(** * PICTOOL watermark engine: a shallow embedding and its properties

    The development embeds the watermark layout code of
    [picaddmark/watermark_app.py] (class [WatermarkApp]),
    [modules/watermark_tool.py] (class [WatermarkTool]) and [utils.py]
    as Rocq functions, and states the properties of the specification
    over them.

    Conventions of the embedding:
    - a Python [str] is a list of Unicode code points ([text]);
    - a Python [int] is a [Z]; a Python [float] is the rational [Q] it
      denotes. Font metrics are taken as they are measured (pixel counts
      and 1/64-pixel advances, small dyadic values that binary64 adds
      exactly); where the source compares the result of float arithmetic
      with a threshold (the luminance) or returns a float quotient (the
      mean of a band, the aspect ratio), every operation is rounded to
      binary64 ([binary64]);
    - [int(x)] on a float is truncation toward zero ([py_int]);
    - a call that may raise returns an [option] ([None]: it raised);
    - a [while] loop runs on fuel, and is proved to finish within it. *)

From Stdlib Require Import String Ascii ZArith QArith Qminmax Qround Lqa Lia.
From Stdlib Require Import DecimalString HexadecimalString DecimalZ.
From Stdlib Require Qcanon.
From stdpp Require Import gmap list.

Local Open Scope Z_scope.

(** ** Python primitives *)

Module Py.

Definition char := Z.
Definition text := list char.

(** Code points of an ASCII literal. *)
Definition str (s : string) : text :=
  List.map (fun a => Z.of_N (N_of_ascii a)) (list_ascii_of_string s).

Definition SPACE : char := 32.
Definition NUL : char := 0.

Definition text_eqb (a b : text) : bool := bool_decide (a = b).

(** [int(x)] for a float [x]: truncation toward zero. *)
Definition py_int (q : Q) : Z := Z.quot (Qnum q) (Z.pos (Qden q)).

(** [math.floor] is not called by the source; it is the reference
    against which [py_int] is compared. *)
Definition floor (q : Q) : Z := Z.div (Qnum q) (Z.pos (Qden q)).

(** Built-in [round(x)]: nearest integer, ties to the even one. *)
Definition py_round (q : Q) : Z :=
  let f := floor q in
  let twice_frac := (2 * (q - inject_Z f))%Q in
  if Qle_bool twice_frac 1
  then (if Qeq_bool twice_frac 1 then (if Z.even f then f else f + 1) else f)
  else f + 1.

Definition Qlt_bool (a b : Q) : bool := negb (Qle_bool b a).

(** [max(a, b)] and [min(a, b)] on floats: the first argument wins a tie. *)
Definition qmax (a b : Q) : Q := if Qlt_bool a b then b else a.
Definition qmin (a b : Q) : Q := if Qlt_bool b a then b else a.

(** *** binary64 arithmetic *)

(** [floor(log2(n / d))] for positive [n] and [d]. *)
Definition ilog2 (n d : Z) : Z :=
  let l := Z.log2 n - Z.log2 d in
  if (if 0 <=? l then d * 2 ^ l <=? n else d <=? n * 2 ^ (- l)) then l else l - 1.

(** The binary64 number nearest to [q], ties to the even significand:
    the significand is [|q| / 2^e] rounded to an integer, for the exponent
    [e] that leaves it 53 bits, or [-1074] in the subnormal range. The
    range has no upper end here; the overflow of a quotient is tested
    where the source can meet it. *)
Definition binary64 (q : Q) : Q :=
  let q := Qred q in
  let n := Z.abs (Qnum q) in
  let d := Z.pos (Qden q) in
  if n =? 0 then 0%Q
  else
    let e := Z.max (ilog2 n d - 52) (-1074) in
    let m :=
      py_round (if 0 <=? e then n # Z.to_pos (d * 2 ^ e)
                else (n * 2 ^ (- e)) # Qden q) in
    let r := if 0 <=? e then inject_Z (m * 2 ^ e) else m # Z.to_pos (2 ^ (- e)) in
    Qred (if Qnum q <? 0 then (- r)%Q else r).

(** A float literal, and the float an [int] operand is converted to (the
    ints converted are colour components, far inside the float range). *)
Definition float (q : Q) : Q := binary64 q.
Definition float_of_int (n : Z) : Q := binary64 (inject_Z n).

(** [x * y] and [x + y] on floats: the exact result, rounded once. *)
Definition fmul (x y : Q) : Q := binary64 (x * y).
Definition fadd (x y : Q) : Q := binary64 (x + y).

(** [sys.float_info.max]. *)
Definition max_float : Q := inject_Z ((2 ^ 53 - 1) * 2 ^ 971).

(** [a / b] for two ints, [b] not zero: the quotient rounded once; [None]
    stands for the [OverflowError] of a result too large for a float. *)
Definition int_truediv (a b : Z) : option Q :=
  let r := binary64 (inject_Z a / inject_Z b) in
  if Qle_bool r max_float && Qle_bool (- max_float) r then Some r else None.

(** [s.split(sep)] for a one-character separator. *)
Fixpoint split (sep : char) (s : text) : list text :=
  match s with
  | [] => [[]]
  | c :: s' =>
      if c =? sep then [] :: split sep s'
      else match split sep s' with
           | w :: ws => (c :: w) :: ws
           | [] => [[c]]
           end
  end.

(** [sep.join(ws)] for a one-character separator. *)
Fixpoint join (sep : char) (ws : list text) : text :=
  match ws with
  | [] => []
  | [w] => w
  | w :: ws' => w ++ sep :: join sep ws'
  end.

(** [prefix] is a prefix of [s]: what remains of [s] after it. *)
Fixpoint strip_prefix (prefix s : text) : option text :=
  match prefix, s with
  | [], _ => Some s
  | _ :: _, [] => None
  | p :: prefix', c :: s' => if p =? c then strip_prefix prefix' s' else None
  end.

(** [old in s]. *)
Fixpoint contains (old s : text) : bool :=
  match strip_prefix old s with
  | Some _ => true
  | None => match s with
            | [] => false
            | _ :: s' => contains old s'
            end
  end.

(** [s.replace(old, new)] for a non-empty [old]: occurrences are
    replaced left to right, without overlap. The fuel is the length of
    [s]; every step consumes at least one character. *)
Fixpoint replace_fuel (fuel : nat) (old new s : text) : text :=
  match fuel with
  | O => s
  | S fuel' =>
      match s with
      | [] => []
      | c :: s' =>
          match strip_prefix old s with
          | Some rest => new ++ replace_fuel fuel' old new rest
          | None => c :: replace_fuel fuel' old new s'
          end
      end
  end.

Definition replace (old new s : text) : text :=
  replace_fuel (length s) old new s.

(** [str.isspace] on one code point. *)
Definition isspace (c : char) : bool :=
  ((9 <=? c) && (c <=? 13)) || ((28 <=? c) && (c <=? 32))
  || (c =? 133) || (c =? 160) || (c =? 5760)
  || ((8192 <=? c) && (c <=? 8202))
  || (c =? 8232) || (c =? 8233) || (c =? 8239) || (c =? 8287) || (c =? 12288).

Fixpoint lstrip (s : text) : text :=
  match s with
  | c :: s' => if isspace c then lstrip s' else s
  | [] => []
  end.

Definition rstrip (s : text) : text := rev (lstrip (rev s)).

(** [s.strip()]. *)
Definition strip (s : text) : text := rstrip (lstrip s).

(** [s.split(sep)[0]]. *)
Definition split_head (sep : char) (s : text) : text :=
  match split sep s with
  | w :: _ => w
  | [] => []
  end.

(** *** Slices, searches and conversions used by the file-name, colour and
    parameter code *)

(** A slice bound as an offset: a negative bound counts from the end. *)
Definition slice_index (k : Z) (s : text) : nat :=
  Z.to_nat (if k <? 0 then Z.of_nat (length s) + k else k).

(** [s[:k]], [s[k:]] and [s[i:j]]. *)
Definition slice_to (k : Z) (s : text) : text := take (slice_index k s) s.
Definition slice_from (k : Z) (s : text) : text := drop (slice_index k s) s.
Definition slice (i j : Z) (s : text) : text :=
  drop (slice_index i s) (take (slice_index j s) s).

Fixpoint rfind_from (c : char) (s : text) (i found : Z) : Z :=
  match s with
  | [] => found
  | x :: s' => rfind_from c s' (i + 1) (if x =? c then i else found)
  end.

(** [s.rfind(c)] for one character: the last index of [c], or [-1]. *)
Definition rfind (c : char) (s : text) : Z := rfind_from c s 0 (-1).

(** [s.lstrip(c)] for a one-character argument. *)
Fixpoint lstrip_char (c : char) (s : text) : text :=
  match s with
  | x :: s' => if x =? c then lstrip_char c s' else s
  | [] => []
  end.

(** [str(n)] for an [int]. *)
Definition str_int (n : Z) : text :=
  str (DecimalString.NilEmpty.string_of_int (Z.to_int n)).

(** ['{:x}'.format(n)] for [n >= 0]. *)
Definition hex (n : Z) : text :=
  str (HexadecimalString.NilEmpty.string_of_uint (N.to_hex_uint (Z.to_N n))).

(** ['{:02x}'.format(v)]: lower-case hexadecimal, zero-padded to two
    places; the sign of a negative value takes one of them. *)
Definition format_02x (v : Z) : text :=
  if v <? 0 then 45 :: hex (- v)
  else
    let digits := hex v in
    if (length digits <? 2)%nat then 48 :: digits else digits.

(** The first code points of the blocks of ten decimal digits (category
    Nd) outside ASCII, Unicode 14. *)
Definition decimal_blocks : list Z :=
  [1632; 1776; 1984; 2406; 2534; 2662; 2790; 2918; 3046; 3174; 3302; 3430;
   3558; 3664; 3792; 3872; 4160; 4240; 6112; 6160; 6470; 6608; 6784; 6800;
   6992; 7088; 7232; 7248; 42528; 43216; 43264; 43472; 43504; 43600; 44016;
   65296; 66720; 68912; 69734; 69872; 69942; 70096; 70384; 70736; 70864;
   71248; 71360; 71472; 71904; 72016; 72784; 73040; 73120; 92768; 92864;
   93008; 120782; 120792; 120802; 120812; 120822; 123200; 123632; 125264;
   130032].

(** [unicodedata.decimal(c)] outside ASCII. *)
Definition decimal_value (c : char) : option Z :=
  match List.find (fun b => (b <=? c) && (c <? b + 10)) decimal_blocks with
  | Some b => Some (c - b)
  | None => None
  end.

(** What [int] makes of one code point before it parses: ASCII stays, a
    space of another script becomes [' '], a decimal digit of another
    script its ASCII digit, anything else ['?']. *)
Definition to_ascii (c : char) : char :=
  if c <? 128 then c
  else if isspace c then 32
  else match decimal_value c with
       | Some d => 48 + d
       | None => 63
       end.

(** The C [isspace] the integer parser skips with. *)
Definition ascii_space (c : char) : bool := ((9 <=? c) && (c <=? 13)) || (c =? 32).

Fixpoint skip_spaces (s : text) : text :=
  match s with
  | c :: s' => if ascii_space c then skip_spaces s' else s
  | [] => []
  end.

(** The value of a digit or letter, as the integer parser reads it. *)
Definition digit_value (c : char) : option Z :=
  if (48 <=? c) && (c <=? 57) then Some (c - 48)
  else if (97 <=? c) && (c <=? 122) then Some (c - 87)
  else if (65 <=? c) && (c <=? 90) then Some (c - 55)
  else None.

(** The digits of a literal, single underscores allowed between them:
    the value read, whether a digit was read, and what follows. Two
    underscores in a row, or one at the end, are an error. *)
Fixpoint scan_digits (base : Z) (s : text) (prev_underscore seen : bool) (acc : Z)
  : option (Z * bool * text) :=
  let stop := if prev_underscore then None else Some (acc, seen, s) in
  match s with
  | [] => stop
  | c :: s' =>
      if c =? 95 then
        if prev_underscore then None else scan_digits base s' true seen acc
      else
        match digit_value c with
        | Some v =>
            if v <? base then scan_digits base s' false true (acc * base + v)
            else stop
        | None => stop
        end
  end.

(** [int(s, base)] for [base] 10 (where [int(s)] is meant) or 16; [None]
    stands for [ValueError]. *)
Definition int_of_str (base : Z) (s : text) : option Z :=
  let s := skip_spaces (List.map to_ascii s) in
  let '(negative, s) :=
    match s with
    | 43 :: s' => (false, s')
    | 45 :: s' => (true, s')
    | _ => (false, s)
    end in
  let s :=
    match s with
    | 48 :: x :: s' =>
        if (base =? 16) && ((x =? 120) || (x =? 88))
        then match s' with
             | 95 :: s'' => s''
             | _ => s'
             end
        else s
    | _ => s
    end in
  match s with
  | 95 :: _ => None
  | _ =>
      match scan_digits base s false false 0 with
      | Some (v, true, rest) =>
          match skip_spaces rest with
          | [] => Some (if negative then - v else v)
          | _ :: _ => None
          end
      | _ => None
      end
  end.

(** The separators of an [os.path] flavour. *)
Record Flavour := {
  sep : char;
  altsep : option char
}.

Definition posixpath : Flavour := {| sep := 47; altsep := None |}.
Definition ntpath : Flavour := {| sep := 92; altsep := Some 47 |}.

(** [os.path.splitext(p)]: the extension starts at the last dot of the
    last path component, unless only dots precede it there. *)
Definition splitext (os : Flavour) (p : text) : text * text :=
  let sepIndex :=
    match altsep os with
    | Some a => Z.max (rfind (sep os) p) (rfind a p)
    | None => rfind (sep os) p
    end in
  let dotIndex := rfind 46 p in
  if sepIndex <? dotIndex then
    if existsb (fun c => negb (c =? 46)) (slice (sepIndex + 1) dotIndex p)
    then (slice_to dotIndex p, slice_from dotIndex p)
    else (p, [])
  else (p, []).

End Py.

(** ** Pillow: fonts and the measurement surface *)

Module Pil.
Import Py.

(** A loaded font object, seen through the calls the source makes on it.
    [font_textbbox c] is [ImageDraw.textbbox((0, 0), c, font=font)]
    reduced to its extent [(right - left, bottom - top)]; the optional
    fields are the attributes the source probes with [hasattr]. A
    measurement that raises is [None]. *)
Record Font := {
  font_textbbox : char -> option (Q * Q);
  font_getsize : option (char -> option (Q * Q));
  font_getlength : option (char -> option Q);
  font_size : option Q
}.

(** A tag value of the EXIF mapping: a [str], or a value of another type
    (bytes, int, ...) of which only the truth value matters. *)
Inductive exif_value :=
| ExifStr (s : text)
| ExifOther (truthy : bool).

(** An opened image, in RGB: its [size], its pixels, and [getexif()]
    ([None]: the call raises). *)
Record Image := {
  size : Z * Z;
  getpixel : Z -> Z -> Z * Z * Z;
  getexif : option (gmap Z exif_value)
}.

(** [image.crop((x0, y0, x1, y1))] (left, top, right, bottom): pixels outside the source
    are zero; reversed coordinates raise. *)
Definition crop (image : Image) (box : Z * Z * Z * Z) : option Image :=
  let '(x0, y0, x1, y1) := box in
  if (x1 <? x0) || (y1 <? y0) then None
  else Some
    {| size := (x1 - x0, y1 - y0);
       getpixel := fun x y =>
         let sx := x + x0 in
         let sy := y + y0 in
         if (0 <=? sx) && (sx <? fst (size image)) && (0 <=? sy) && (sy <? snd (size image))
         then getpixel image sx sy else (0, 0, 0);
       getexif := getexif image |}.

(** The pixels of an image, row by row. *)
Definition getdata (image : Image) : list (Z * Z * Z) :=
  flat_map (fun y => List.map (fun x => getpixel image x y) (seqZ 0 (fst (size image))))
           (seqZ 0 (snd (size image))).

Definition band_sum (band : Z * Z * Z -> Z) (data : list (Z * Z * Z)) : Z :=
  fold_left (fun acc px => acc + band px) data 0.

(** [ImageStat.Stat(image).mean[:3]]: per band, the sum over the pixel
    count, one float division (sums and counts stay below 2^53, where
    they are exact); no pixel at all is a division by zero. *)
Definition stat_mean (image : Image) : option (Q * Q * Q) :=
  let data := getdata image in
  let count := Z.of_nat (length data) in
  if count =? 0 then None
  else Some (binary64 (inject_Z (band_sum (fun px => fst (fst px)) data) / inject_Z count),
             binary64 (inject_Z (band_sum (fun px => snd (fst px)) data) / inject_Z count),
             binary64 (inject_Z (band_sum (fun px => snd px) data) / inject_Z count)).

End Pil.

(** ** datetime: [strptime] and [strftime] for the formats the source uses *)

Module Datetime.
Import Py.

Record datetime := {
  year : Z; month : Z; day : Z;
  hour : Z; minute : Z; second : Z
}.

(** A format string, directive by directive. Whitespace in a format stands
    for the pattern [\s+]. *)
Inductive directive :=
| Dir_Y | Dir_m | Dir_d | Dir_H | Dir_M | Dir_S
| Lit (c : char)
| Whitespace.

Definition between (lo hi : Z) (c : char) : bool := (lo <=? c) && (c <=? hi).
Definition digit : char -> bool := between 48 57.

(** The pattern of each numeric directive in [_strptime.TimeRE], as its
    alternatives in order, each a sequence of character classes over the
    ASCII digits:
    [%Y] is [\d\d\d\d], [%m] is [1[0-2]|0[1-9]|[1-9]],
    [%d] is [3[0-1]|[1-2]\d|0[1-9]|[1-9]| [1-9]],
    [%H] is [2[0-3]|[0-1]\d|\d], [%M] is [[0-5]\d|\d],
    [%S] is [6[0-1]|[0-5]\d|\d]. *)
Definition alternatives (d : directive) : list (list (char -> bool)) :=
  match d with
  | Dir_Y => [[digit; digit; digit; digit]]
  | Dir_m => [[Z.eqb 49; between 48 50]; [Z.eqb 48; between 49 57]; [between 49 57]]
  | Dir_d => [[Z.eqb 51; between 48 49]; [between 49 50; digit];
              [Z.eqb 48; between 49 57]; [between 49 57]; [Z.eqb 32; between 49 57]]
  | Dir_H => [[Z.eqb 50; between 48 51]; [between 48 49; digit]; [digit]]
  | Dir_M => [[between 48 53; digit]; [digit]]
  | Dir_S => [[Z.eqb 54; between 48 49]; [between 48 53; digit]; [digit]]
  | Lit c => [[Z.eqb c]]
  | Whitespace => []
  end.

(** One alternative against the head of [s]: the matched text and the rest. *)
Fixpoint match_classes (classes : list (char -> bool)) (s : text) : option (text * text) :=
  match classes with
  | [] => Some ([], s)
  | cl :: classes' =>
      match s with
      | [] => None
      | c :: s' =>
          if cl c then
            match match_classes classes' s' with
            | Some (m, rest) => Some (c :: m, rest)
            | None => None
            end
          else None
      end
  end.

(** [\s+], greedy: every non-empty run of leading whitespace, longest first. *)
Fixpoint match_whitespace (s : text) : list (text * text) :=
  match s with
  | c :: s' =>
      if isspace c
      then List.map (fun mr => (c :: fst mr, snd mr)) (match_whitespace s') ++ [([c], s')]
      else []
  | [] => []
  end.

(** The ways one directive can match at the head of [s], in the order the
    regex engine tries them. *)
Definition candidates (d : directive) (s : text) : list (text * text) :=
  match d with
  | Whitespace => match_whitespace s
  | _ => omap (fun classes => match_classes classes s) (alternatives d)
  end.

(** [int(group)]: the digits of a matched group (a leading space is skipped). *)
Definition int_of_digits (m : text) : Z :=
  fold_left (fun acc c => if digit c then 10 * acc + (c - 48) else acc) m 0.

Definition set_field (d : directive) (m : text) (dt : datetime) : datetime :=
  let v := int_of_digits m in
  match d with
  | Dir_Y => {| year := v; month := month dt; day := day dt;
                hour := hour dt; minute := minute dt; second := second dt |}
  | Dir_m => {| year := year dt; month := v; day := day dt;
                hour := hour dt; minute := minute dt; second := second dt |}
  | Dir_d => {| year := year dt; month := month dt; day := v;
                hour := hour dt; minute := minute dt; second := second dt |}
  | Dir_H => {| year := year dt; month := month dt; day := day dt;
                hour := v; minute := minute dt; second := second dt |}
  | Dir_M => {| year := year dt; month := month dt; day := day dt;
                hour := hour dt; minute := v; second := second dt |}
  | Dir_S => {| year := year dt; month := month dt; day := day dt;
                hour := hour dt; minute := minute dt; second := v |}
  | Lit _ | Whitespace => dt
  end.

(** All matches of the whole format at the head of [s], in backtracking
    order, each with what is left of [s]. *)
Fixpoint match_format (fmt : list directive) (s : text) (dt : datetime)
  : list (datetime * text) :=
  match fmt with
  | [] => [(dt, s)]
  | d :: fmt' =>
      flat_map (fun mr => match_format fmt' (snd mr) (set_field d (fst mr) dt))
               (candidates d s)
  end.

Definition is_leap (y : Z) : bool :=
  (y mod 4 =? 0) && (negb (y mod 100 =? 0) || (y mod 400 =? 0)).

Definition days_in_month (y m : Z) : Z :=
  if m =? 2 then (if is_leap y then 29 else 28)
  else if (m =? 4) || (m =? 6) || (m =? 9) || (m =? 11) then 30
  else 31.

(** The range checks of the [datetime] constructor. *)
Definition valid (dt : datetime) : bool :=
  (1 <=? year dt) && (year dt <=? 9999)
  && (1 <=? month dt) && (month dt <=? 12)
  && (1 <=? day dt) && (day dt <=? days_in_month (year dt) (month dt))
  && (0 <=? hour dt) && (hour dt <=? 23)
  && (0 <=? minute dt) && (minute dt <=? 59)
  && (0 <=? second dt) && (second dt <=? 59).

Definition epoch : datetime :=
  {| year := 1900; month := 1; day := 1; hour := 0; minute := 0; second := 0 |}.

(** [datetime.strptime(s, fmt)]; [None] stands for [ValueError]: the
    pattern does not match, unconverted data remains after the first
    match, or the fields are no valid date. *)
Definition strptime (s : text) (fmt : list directive) : option datetime :=
  match match_format fmt s epoch with
  | [] => None
  | (dt, rest) :: _ =>
      match rest with
      | [] => if valid dt then Some dt else None
      | _ :: _ => None
      end
  end.

(** ["%Y:%m:%d %H:%M:%S"] and ["%Y-%m-%d %H:%M:%S"]. *)
Definition FMT_EXIF : list directive :=
  [Dir_Y; Lit 58; Dir_m; Lit 58; Dir_d; Whitespace; Dir_H; Lit 58; Dir_M; Lit 58; Dir_S].
Definition FMT_ISO : list directive :=
  [Dir_Y; Lit 45; Dir_m; Lit 45; Dir_d; Whitespace; Dir_H; Lit 58; Dir_M; Lit 58; Dir_S].

(** A field in decimal, zero-padded to [width] digits. *)
Fixpoint zero_padded (width : nat) (v : Z) : text :=
  match width with
  | O => []
  | S width' => zero_padded width' (v / 10) ++ [48 + v mod 10]
  end.

(** [dt.strftime("%Y-%m-%d %H:%M:%S")]. For years below 1000 the padding
    of [%Y] is the C library's choice (the Windows runtime prints [0001],
    glibc prints [1]); the four-digit form is modelled, and what is stated
    about the shape of the result is stated for years from 1000 on. *)
Definition strftime (dt : datetime) : text :=
  zero_padded 4 (year dt) ++ [45] ++ zero_padded 2 (month dt) ++ [45]
  ++ zero_padded 2 (day dt) ++ [32] ++ zero_padded 2 (hour dt) ++ [58]
  ++ zero_padded 2 (minute dt) ++ [58] ++ zero_padded 2 (second dt).

End Datetime.

(** ** utils.py *)

Module Utils.
Import Py Pil Datetime.

(** [is_chinese_char(char)] and [contains_chinese(text)]. *)
Definition is_chinese_char (c : char) : bool := (19968 <=? c) && (c <=? 40959).
Definition contains_chinese (t : text) : bool := existsb is_chinese_char t.

Definition TAG_DATETIME_ORIGINAL : Z := 36867.
Definition TAG_DATETIME : Z := 306.

(** [value and isinstance(value, str)] for [value = exif_data.get(tag)]:
    the tag holds a non-empty string. *)
Definition nonempty_str (value : option exif_value) : option text :=
  match value with
  | Some (ExifStr (c :: s)) => Some (c :: s)
  | _ => None
  end.

(** [get_exif_datetime(image)]. *)
Definition get_exif_datetime (image : Image) : option text :=
  match getexif image with
  | None => None
  | Some exif_data =>
      if bool_decide (exif_data = ∅) then None
      else
        match nonempty_str (exif_data !! TAG_DATETIME_ORIGINAL) with
        | Some datetime_original =>
            let datetime_original := strip (split_head NUL datetime_original) in
            match strptime datetime_original FMT_EXIF with
            | Some dt_obj => Some (strftime dt_obj)
            | None => Some datetime_original
            end
        | None =>
            match nonempty_str (exif_data !! TAG_DATETIME) with
            | Some datetime_modified =>
                let datetime_modified := strip (split_head NUL datetime_modified) in
                match strptime datetime_modified FMT_EXIF with
                | Some dt_obj => Some (strftime dt_obj)
                | None => Some datetime_modified
                end
            | None => None
            end
        end
  end.

(** [illegal_chars]: less-than, greater-than, colon, double quote, slash,
    backslash, bar, question mark and asterisk. *)
Definition illegal_chars : text := [60; 62; 58; 34; 47; 92; 124; 63; 42].

(** [safe_filename(filename)], for the [os.path] of the platform. *)
Definition safe_filename (os : Flavour) (filename : text) : text :=
  let filename := fold_left (fun f c => replace [c] [95] f) illegal_chars filename in
  let filename := List.filter (fun c => 32 <=? c) filename in
  let filename :=
    if (200 <? length filename)%nat then
      let '(name, ext) := splitext os filename in
      let max_name_length := 200 - Z.of_nat (length ext) in
      slice_to max_name_length name ++ ext
    else filename in
  strip filename.

(** [truncate_filename(filename, max_length)]. *)
Definition truncate_filename (os : Flavour) (filename : text) (max_length : Z) : text :=
  if Z.of_nat (length filename) <=? max_length then filename
  else
    let '(name, ext) := splitext os filename in
    let available_length := max_length - Z.of_nat (length ext) - 3 in
    if available_length <=? 0 then slice_to max_length filename
    else slice_to available_length name ++ str "..." ++ ext.

(** [calculate_aspect_ratio(width, height)]; [math.gcd] is never
    negative, and each [/] is the true division of two ints. [None] stands
    for the [OverflowError] of a quotient too large for a float. *)
Definition calculate_aspect_ratio (width height : Z) : option (Q * Q) :=
  if (width =? 0) || (height =? 0) then Some (1, 1)%Q
  else
    let gcd := Z.gcd width height in
    match int_truediv width gcd with
    | None => None
    | Some width_ratio =>
        match int_truediv height gcd with
        | None => None
        | Some height_ratio => Some (width_ratio, height_ratio)
        end
    end.

Section get_unique_filename.
(** The file names [f] of the folder for which
    [os.path.exists(os.path.join(folder_path, f))] holds. *)
Variable taken : gset text.
Variables base_name extension : text.

(** [f"{base_name}_{counter}.{extension}"]. *)
Definition numbered (counter : Z) : text :=
  base_name ++ [95] ++ str_int counter ++ [46] ++ extension.

(** The [while os.path.exists(...)] loop; the fuel bounds the runs of
    its body. *)
Fixpoint unique_loop (fuel : nat) (filename : text) (counter : Z) : option text :=
  if bool_decide (filename ∈ taken) then
    match fuel with
    | O => None
    | S fuel' => unique_loop fuel' (numbered counter) (counter + 1)
    end
  else Some filename.

End get_unique_filename.

(** [get_unique_filename(folder_path, base_name, extension)]. Every run of
    the loop body has met another existing name, so the number of existing
    names is fuel enough. *)
Definition get_unique_filename (taken : gset text) (base_name extension : text)
  : option text :=
  let extension := lstrip_char 46 extension in
  let filename := base_name ++ [46] ++ extension in
  unique_loop taken base_name extension (base.size taken) filename 1.

End Utils.

(** ** picaddmark/watermark_app.py *)

Module WatermarkApp.
Import Py Pil Datetime.

(** [is_chinese(char)]: ['一' <= char <= '鿿']. *)
Definition is_chinese (c : char) : bool := (19968 <=? c) && (c <=? 40959).

(** One entry of [line_buffer] / [word_chars_metrics]:
    [{'text', 'font', 'width', 'height'}]. *)
Record Item := {
  item_text : text;
  item_font : Font;
  item_width : Q;
  item_height : Q
}.

(** One [draw.text] call of [draw_watermark]. [run_x], [run_y] are the
    float cursor ([current_x], [temp_x], [y]) at the call; the pixel
    position handed to Pillow is [(int(run_x), int(run_y))]. [run_forced]
    records which call site drew the run: the forced character break
    ([true]) or [flush_line_buffer] ([false]). A [draw.text] that raises is
    logged by the source and the layout goes on, so the run is listed all
    the same. *)
Record Run := {
  run_text : text;
  run_font : Font;
  run_width : Q;
  run_height : Q;
  run_x : Q;
  run_y : Q;
  run_forced : bool
}.

Definition run_pixel (r : Run) : Z * Z := (py_int (run_x r), py_int (run_y r)).

Section draw_watermark.
(** [hasattr(draw, 'textbbox')] of the Pillow in use. *)
Variable use_bbox : bool.
Variables font_chinese font_english : Font.
Variables x_start y_start max_width_constraint : Q.

(** Nested [get_char_metrics(char, font)]. *)
Definition get_char_metrics (c : char) (font : Font) : Q * Q :=
  if use_bbox then
    match font_textbbox font c with
    | Some wh => wh
    | None => (10, 10)%Q
    end
  else
    match font_getsize font with
    | Some getsize =>
        match getsize c with
        | Some wh => wh
        | None => (10, 10)%Q
        end
    | None =>
        match font_getlength font with
        | Some getlength =>
            match getlength c with
            | Some w => (w, match font_size font with Some s => s | None => w end)
            | None => (10, 10)%Q
            end
        | None =>
            let s := match font_size font with Some s => s | None => 10%Q end in
            (s, s)
        end
    end.

(** The font objects are never [None] here, so
    [font_english if font_english else font_chinese] is [font_english]. *)
Definition font_for_space : Font := font_english.

(** [space_width]: starts at [0.0]; a failing measurement leaves it there. *)
Definition space_width : Q :=
  match font_getlength font_for_space with
  | Some getlength =>
      match getlength SPACE with Some w => w | None => 0%Q end
  | None =>
      match font_getsize font_for_space with
      | Some getsize =>
          match getsize SPACE with Some wh => fst wh | None => 0%Q end
      | None =>
          match font_size font_for_space with
          | Some s => (s / 2)%Q
          | None => 5%Q
          end
      end
  end.

(** The comprehension building [word_chars_metrics]. *)
Definition char_item (c : char) : Item :=
  let font := if is_chinese c then font_chinese else font_english in
  let wh := get_char_metrics c font in
  {| item_text := [c]; item_font := font;
     item_width := fst wh; item_height := snd wh |}.

Definition word_chars_metrics (word : text) : list Item := List.map char_item word.

Definition word_width (ms : list Item) : Q :=
  fold_left (fun acc m => (acc + item_width m)%Q) ms 0%Q.

Definition word_max_h (ms : list Item) : Q :=
  fold_left (fun acc m => qmax acc (item_height m)) ms 0%Q.

Definition space_item : Item :=
  {| item_text := [SPACE]; item_font := font_for_space;
     item_width := space_width;
     item_height := snd (get_char_metrics SPACE font_for_space) |}.

(** Nested [flush_line_buffer]: the runs of one buffered line, left to
    right from [start_x]. *)
Fixpoint flush_runs (current_x current_y : Q) (buffer : list Item) : list Run :=
  match buffer with
  | [] => []
  | item :: buffer' =>
      {| run_text := item_text item; run_font := item_font item;
         run_width := item_width item; run_height := item_height item;
         run_x := current_x; run_y := current_y; run_forced := false |}
      :: flush_runs (current_x + item_width item)%Q current_y buffer'
  end.

Definition total_line_height (buffer : list Item) : Q :=
  match buffer with
  | [] => 0%Q
  | item :: buffer' =>
      fold_left (fun acc m => qmax acc (item_height m)) buffer' (item_height item)
  end.

Definition flush_line_buffer (start_x current_y : Q) (buffer : list Item)
  : list Run * Q :=
  (flush_runs start_x current_y buffer, total_line_height buffer).

(** The inner [while char_idx_in_word < len(word_chars_metrics)] loop of
    the forced break: returns the runs, the final [y] and [temp_h]. *)
Fixpoint force_break (ms : list Item) (temp_x temp_h y : Q) : list Run * Q * Q :=
  match ms with
  | [] => ([], y, temp_h)
  | char_metric :: ms' =>
      let wrap :=
        Qlt_bool x_start temp_x
        && Qlt_bool (x_start + max_width_constraint) (temp_x + item_width char_metric) in
      let y1 :=
        if wrap
        then (y + (if Qlt_bool 0 temp_h then temp_h else item_height char_metric))%Q
        else y in
      let temp_x1 := if wrap then x_start else temp_x in
      let temp_h1 := if wrap then 0%Q else temp_h in
      let r :=
        {| run_text := item_text char_metric; run_font := item_font char_metric;
           run_width := item_width char_metric; run_height := item_height char_metric;
           run_x := temp_x1; run_y := y1; run_forced := true |} in
      let '(rs, y2, temp_h2) :=
        force_break ms' (temp_x1 + item_width char_metric)%Q
                    (qmax temp_h1 (item_height char_metric)) y1 in
      (r :: rs, y2, temp_h2)
  end.

(** The variables of the outer [while] loop, and the draw calls made so far. *)
Record Loop := {
  word_index : nat;
  line_buffer : list Item;
  current_line_width : Q;
  current_line_max_h : Q;
  y : Q;
  drawn : list Run
}.

(** One iteration of [while word_index < len(words)]. *)
Definition loop_body (word : text) (st : Loop) : Loop :=
  let is_first_word_in_line :=
    match line_buffer st with [] => true | _ :: _ => false end in
  let potential_line_width :=
    if is_first_word_in_line then current_line_width st
    else (current_line_width st + space_width)%Q in
  let ms := word_chars_metrics word in
  if Qle_bool (potential_line_width + word_width ms) max_width_constraint then
    {| word_index := S (word_index st);
       line_buffer :=
         line_buffer st ++ (if is_first_word_in_line then [] else [space_item]) ++ ms;
       current_line_width :=
         ((if is_first_word_in_line then current_line_width st
           else current_line_width st + space_width) + word_width ms)%Q;
       current_line_max_h := qmax (current_line_max_h st) (word_max_h ms);
       y := y st;
       drawn := drawn st |}
  else if is_first_word_in_line then
    let '(rs, y1, temp_h) := force_break ms x_start 0%Q (y st) in
    {| word_index := S (word_index st);
       line_buffer := [];
       current_line_width := 0%Q;
       current_line_max_h := 0%Q;
       y := (y1 + temp_h)%Q;
       drawn := drawn st ++ rs |}
  else
    let '(rs, line_height) := flush_line_buffer x_start (y st) (line_buffer st) in
    {| word_index := word_index st;
       line_buffer := [];
       current_line_width := 0%Q;
       current_line_max_h := 0%Q;
       y := (y st + line_height)%Q;
       drawn := drawn st ++ rs |}.

Fixpoint while_words (fuel : nat) (words : list text) (st : Loop) : option Loop :=
  match words !! word_index st with
  | None => Some st
  | Some word =>
      match fuel with
      | O => None
      | S fuel' => while_words fuel' words (loop_body word st)
      end
  end.

Definition initial : Loop :=
  {| word_index := 0; line_buffer := []; current_line_width := 0%Q;
     current_line_max_h := 0%Q; y := y_start; drawn := [] |}.

(** [draw_watermark]: the draw calls in the order they are made. A word
    takes at most two iterations (a flush, then its placement). *)
Definition draw_watermark (t : text) : option (list Run) :=
  match t with
  | [] => Some []
  | _ :: _ =>
      let words := split SPACE t in
      match while_words (2 * length words) words initial with
      | None => None
      | Some st =>
          match line_buffer st with
          | [] => Some (drawn st)
          | _ :: _ =>
              Some (drawn st ++ fst (flush_line_buffer x_start (y st) (line_buffer st)))
          end
      end
  end.

End draw_watermark.

(** The text of the draw calls, concatenated in call order. *)
Definition runs_text (rs : list Run) : text := concat (List.map run_text rs).

(** [calculate_text_size(text, inf, font_chinese, font_english,
    calculate_only=True)]: the single-line width and the tallest glyph.
    The per-character measurement is the same three-tier fallback as
    [get_char_metrics], written inline in the source. *)
Definition calculate_text_size (use_bbox : bool) (t : text)
    (font_chinese font_english : Font) : Q * Q :=
  match t with
  | [] => (0, 0)%Q
  | _ :: _ =>
      fold_left
        (fun acc c =>
           let font := if is_chinese c then font_chinese else font_english in
           let wh := get_char_metrics use_bbox c font in
           ((fst acc + fst wh)%Q, qmax (snd acc) (snd wh)))
        t (0, 0)%Q
  end.

(** The [for i in range(max_iterations)] search of
    [calculate_adaptive_font_size]; [width_at mid] is the measured
    single-line width at size [mid]. *)
Fixpoint adaptive_search (width_at : Z -> Q) (target_width : Q)
    (iterations : nat) (low high best_size : Z) : Z :=
  match iterations with
  | O => best_size
  | S iterations' =>
      if high <? low then best_size
      else
        let mid := (low + high) / 2 in
        if mid <=? 0 then best_size
        else if Qle_bool (width_at mid) target_width
             then adaptive_search width_at target_width iterations' (mid + 1) high mid
             else adaptive_search width_at target_width iterations' low (mid - 1) best_size
  end.

(** [max(10, int(min(img_w, img_h) * 0.015))]. The product is taken
    exactly; for sides below 100000 binary64 truncates to the same integer,
    here and for the factors 0.30, 0.02 and 0.3 below. *)
Definition min_font_size (img_w img_h : Z) : Z :=
  Z.max 10 (py_int (inject_Z (Z.min img_w img_h) * 0.015)).

Definition max_font_size (img_w img_h : Z) : Z :=
  Z.max (min_font_size img_w img_h + 1) (py_int (inject_Z (Z.min img_w img_h) * 0.30)).

(** [calculate_adaptive_font_size]. [font_chinese_path size] and
    [font_english_path size] are [get_font_style(path, size)], which never
    raises (it falls back to the default font), so the [except] arm of the
    search is not reached. *)
Definition calculate_adaptive_font_size (use_bbox : bool) (t : text)
    (base_font_size : Z) (image_size : Z * Z)
    (font_chinese_path font_english_path : Z -> Font) : Z :=
  match t with
  | [] => base_font_size
  | _ :: _ =>
      let '(img_w, img_h) := image_size in
      let target_width := (inject_Z img_w * 0.80)%Q in
      let min_font_size := min_font_size img_w img_h in
      let max_font_size := max_font_size img_w img_h in
      let width_at mid :=
        fst (calculate_text_size use_bbox t (font_chinese_path mid) (font_english_path mid)) in
      let best_size :=
        adaptive_search width_at target_width 10 min_font_size max_font_size min_font_size in
      Z.max min_font_size (Z.min best_size max_font_size)
  end.

(** The anchor names of the position menu. *)
Definition TOP_LEFT : text := [24038; 19978; 35282].      (* 左上角 *)
Definition TOP_RIGHT : text := [21491; 19978; 35282].     (* 右上角 *)
Definition BOTTOM_LEFT : text := [24038; 19979; 35282].   (* 左下角 *)
Definition BOTTOM_RIGHT : text := [21491; 19979; 35282].  (* 右下角 *)
Definition CENTER : text := [20013; 24515].               (* 中心 *)

(** [calculate_position(image_size, text_bbox, position)], on the integer
    extents that [textbbox] measures. *)
Definition calculate_position (image_size text_bbox : Z * Z) (position : text) : Z * Z :=
  let '(img_w, img_h) := image_size in
  let '(text_w, text_h) := text_bbox in
  let margin := 10 in
  let pos :=
    if text_eqb position TOP_LEFT then (margin, margin)
    else if text_eqb position TOP_RIGHT then (img_w - text_w - margin, margin)
    else if text_eqb position BOTTOM_LEFT then (margin, img_h - text_h - margin)
    else if text_eqb position BOTTOM_RIGHT
         then (img_w - text_w - margin, img_h - text_h - margin)
    else if text_eqb position CENTER then ((img_w - text_w) / 2, (img_h - text_h) / 2)
    else (margin, margin) in
  let final_x := Z.max 0 (Z.min (fst pos) (img_w - text_w)) in
  let final_y := Z.max 0 (Z.min (snd pos) (img_h - text_h)) in
  (final_x, final_y).

(** [_calculate_contrast_color(image_region)]; [None] is a falsy region.
    Any exception inside yields black. *)
Definition _calculate_contrast_color (image_region : option Image) : Z * Z * Z :=
  match image_region with
  | None => (0, 0, 0)
  | Some region =>
      if (fst (size region) =? 0) || (snd (size region) =? 0) then (0, 0, 0)
      else
        match stat_mean region with
        | None => (0, 0, 0)
        | Some (r_mean, g_mean, b_mean) =>
            let luminance :=
              fadd (fadd (fmul (float 0.299) r_mean) (fmul (float 0.587) g_mean))
                   (fmul (float 0.114) b_mean) in
            if Qlt_bool luminance 128 then (255, 255, 255) else (0, 0, 0)
        end
  end.

(** [opacity_value = int(opacity_percent * 255 / 100)] of
    [preview_watermark] and [start_processing_thread]. *)
Definition opacity_value (opacity_percent : Z) : Z :=
  py_int (inject_Z (opacity_percent * 255) / 100).

Definition TAG_DATETIME_ORIGINAL : Z := 36867.
Definition TAG_DATETIME : Z := 306.

Definition nonempty_str (value : option exif_value) : option text :=
  match value with
  | Some (ExifStr (c :: s)) => Some (c :: s)
  | _ => None
  end.

(** The [for fmt in (...)] loop: the first format that parses. *)
Fixpoint parse_first (s : text) (fmts : list (list directive)) : option datetime :=
  match fmts with
  | [] => None
  | fmt :: fmts' =>
      match strptime s fmt with
      | Some dt_obj => Some dt_obj
      | None => parse_first s fmts'
      end
  end.

(** [_get_exif_datetime(image)]. *)
Definition _get_exif_datetime (image : Image) : option text :=
  match getexif image with
  | None => None
  | Some exif_data =>
      if bool_decide (exif_data = ∅) then None
      else
        match nonempty_str (exif_data !! TAG_DATETIME_ORIGINAL) with
        | Some datetime_original =>
            let datetime_original := strip (split_head NUL datetime_original) in
            match parse_first datetime_original [FMT_EXIF; FMT_ISO] with
            | Some dt_obj => Some (strftime dt_obj)
            | None => Some datetime_original
            end
        | None =>
            match nonempty_str (exif_data !! TAG_DATETIME) with
            | Some datetime_modified =>
                let datetime_modified := strip (split_head NUL datetime_modified) in
                match parse_first datetime_modified [FMT_EXIF; FMT_ISO] with
                | Some dt_obj => Some (strftime dt_obj)
                | None => Some datetime_modified
                end
            | None => None
            end
        end
  end.

Definition EXIF_DATE : text := str "{exif_date}".
Definition NOT_AVAILABLE : text := str "N/A".

(** [exif_date_str if exif_date_str else "N/A"]. *)
Definition or_not_available (exif_date_str : option text) : text :=
  match exif_date_str with
  | Some (c :: s) => c :: s
  | _ => NOT_AVAILABLE
  end.

(** [_process_dynamic_text(text, image_obj)]. *)
Definition _process_dynamic_text (t : text) (image_obj : Image) : text :=
  if contains EXIF_DATE t
  then replace EXIF_DATE (or_not_available (_get_exif_datetime image_obj)) t
  else t.

(** *** The batch worker *)

(** What the worker puts on [processing_queue]. *)
Inductive message :=
| Progress (current_progress total_images : nat) (filename : text)
| Error (filename img_err : text)
| Finished (processed_count skipped_count : nat) (error : option text).

Record Worker := {
  processed_count : nat;
  skipped_count : nat;
  processing_queue : list message;
  (** the files handed to [process_single_image], in call order *)
  attempted : list text
}.

Section batch.
(** [process_single_image(filename, ...)]: [None] when it returns,
    [Some e] when it raises [e]. *)
Variable process_single_image : text -> option text.
(** [self.stop_requested] as the worker reads it once [i] files have been
    handed to [process_single_image]. *)
Variable stop_requested : nat -> bool.

(** The [for i, filename in enumerate(image_files)] loop, from index [i]. *)
Fixpoint process_loop (total_images i : nat) (image_files : list text) (w : Worker)
  : Worker :=
  match image_files with
  | [] => w
  | filename :: image_files' =>
      if stop_requested i then w
      else
        let current_progress := S i in
        let queue := processing_queue w ++ [Progress current_progress total_images filename] in
        match process_single_image filename with
        | None =>
            process_loop total_images (S i) image_files'
              {| processed_count := S (processed_count w);
                 skipped_count := skipped_count w;
                 processing_queue := queue;
                 attempted := attempted w ++ [filename] |}
        | Some img_err =>
            process_loop total_images (S i) image_files'
              {| processed_count := processed_count w;
                 skipped_count := S (skipped_count w);
                 processing_queue := queue ++ [Error filename img_err];
                 attempted := attempted w ++ [filename] |}
        end
  end.

Definition idle : Worker :=
  {| processed_count := 0; skipped_count := 0; processing_queue := []; attempted := [] |}.

Definition put (m : message) (w : Worker) : Worker :=
  {| processed_count := processed_count w; skipped_count := skipped_count w;
     processing_queue := processing_queue w ++ [m]; attempted := attempted w |}.

(** [_threaded_add_watermarks]. [setup] is the part before the loop
    ([os.makedirs], [os.listdir]): [inl e] when it raises [e], [inr files]
    when it yields the supported files of the folder. *)
Definition _threaded_add_watermarks (setup : text + list text) : Worker :=
  match setup with
  | inl error => put (Finished 0 0 (Some error)) idle
  | inr image_files =>
      let total_images := length image_files in
      if (total_images =? 0)%nat then put (Finished 0 0 None) idle
      else
        let w := process_loop total_images 0 image_files idle in
        put (Finished (processed_count w) (skipped_count w) None) w
  end.

End batch.

(** The final text of [progress_label]: 处理已停止, 处理因错误结束, 处理完成. *)
Inductive progress_label := LabelStopped | LabelEndedByError | LabelCompleted.

(** The message box that closes a run: [showerror("处理失败")],
    [showwarning("处理已停止")], [showinfo("处理完成")]. *)
Inductive dialog :=
| DialogFailed (error_str : text) (processed_count skipped_count : nat)
| DialogStopped (processed_count skipped_count : nat)
| DialogCompleted (processed_count skipped_count : nat).

(** [_handle_completion(processed_count, skipped_count, error_str)];
    [was_stopped] is [self.stop_requested] as the main thread reads it. *)
Definition _handle_completion (was_stopped : bool) (processed_count skipped_count : nat)
    (error_str : option text) : progress_label * dialog :=
  let truthy_error := match error_str with Some (c :: e) => Some (c :: e) | _ => None end in
  let label :=
    if was_stopped then LabelStopped
    else match truthy_error with Some _ => LabelEndedByError | None => LabelCompleted end in
  let box :=
    match truthy_error with
    | Some e => DialogFailed e processed_count skipped_count
    | None =>
        if was_stopped then DialogStopped processed_count skipped_count
        else DialogCompleted processed_count skipped_count
    end in
  (label, box).

(** [_check_queue], polled until the ['finished'] message arrives. *)
Fixpoint _check_queue (was_stopped : bool) (queue : list message)
  : option (progress_label * dialog) :=
  match queue with
  | [] => None
  | Finished processed skipped error_str :: _ =>
      Some (_handle_completion was_stopped processed skipped error_str)
  | _ :: queue' => _check_queue was_stopped queue'
  end.

(** *** Parameters of a run *)

(** [self.position_options]. *)
Definition position_options : list text :=
  [TOP_LEFT; TOP_RIGHT; BOTTOM_LEFT; BOTTOM_RIGHT; CENTER].

(** The widgets [_get_validated_params] reads. *)
Record Gui := {
  entry_text : text;
  entry_font_size : text;
  entry_opacity : text;
  position_var : text
}.

(** The [ValueError] messages of [_get_validated_params]: 水印内容不能为空,
    字体大小必须是有效的正整数, 透明度必须是 0 到 100 之间的有效整数. *)
Inductive invalid_param := EmptyText | InvalidFontSize | InvalidOpacity.

(** [_get_validated_params()]. The [ValueError] raised inside each [try]
    for a value out of range is caught by its own [except] and raised
    again with the message of that [except]. *)
Definition _get_validated_params (gui : Gui)
  : invalid_param + (text * Z * Z * text) :=
  let watermark_text := strip (entry_text gui) in
  match watermark_text with
  | [] => inl EmptyText
  | _ :: _ =>
      match int_of_str 10 (entry_font_size gui) with
      | None => inl InvalidFontSize
      | Some font_size =>
          if font_size <=? 0 then inl InvalidFontSize
          else
            match int_of_str 10 (entry_opacity gui) with
            | None => inl InvalidOpacity
            | Some opacity =>
                if negb ((0 <=? opacity) && (opacity <=? 100)) then inl InvalidOpacity
                else
                  let position := position_var gui in
                  let position :=
                    if bool_decide (position ∈ position_options) then position
                    else BOTTOM_RIGHT in
                  inr (watermark_text, font_size, opacity, position)
            end
      end
  end.

(** The entries of the settings that [save_settings] derives from the
    validated parameters: [watermark_text], [str(font_size)],
    [str(opacity)] and [position]; [load_settings] puts them back into
    the widgets. *)
Definition saved_entries (params : text * Z * Z * text) : Gui :=
  let '(watermark_text, font_size, opacity, position) := params in
  {| entry_text := watermark_text;
     entry_font_size := str_int font_size;
     entry_opacity := str_int opacity;
     position_var := position |}.

(** *** The colour of a run in [process_single_image] *)

(** [watermark_bbox]: the region analysed in high-contrast mode, from
    the start position and the single-line estimate of the text size. *)
Definition watermark_bbox (img_w img_h : Z)
    (x_start y_start text_width_estimate text_height_estimate : Q) : Z * Z * Z * Z :=
  let box_left := qmax 0 x_start in
  let box_top := qmax 0 y_start in
  let analyze_w := qmin (inject_Z img_w - box_left) text_width_estimate in
  let analyze_h := qmin (inject_Z img_h - box_top) (text_height_estimate * 1.5) in
  let box_right := (box_left + analyze_w)%Q in
  let box_bottom := (box_top + analyze_h)%Q in
  (py_int box_left, py_int box_top, py_int box_right, py_int box_bottom).

(** [final_color_rgb]: the user's colour, or in high-contrast mode the
    contrast colour of the analysed region when that region is not empty. *)
Definition final_color_rgb (color : Z * Z * Z) (is_high_contrast : bool)
    (image_rgba : Image)
    (x_start y_start text_width_estimate text_height_estimate : Q) : Z * Z * Z :=
  if is_high_contrast then
    let '(img_w, img_h) := size image_rgba in
    let '(x0, y0, x1, y1) :=
      watermark_bbox img_w img_h x_start y_start
        text_width_estimate text_height_estimate in
    if (x0 <? x1) && (y0 <? y1)
    then _calculate_contrast_color (crop image_rgba (x0, y0, x1, y1))
    else color
  else color.

End WatermarkApp.

(** ** modules/watermark_tool.py *)

Module WatermarkTool.
Import Py Pil Datetime.

(** [process_dynamic_text(text, image)]. *)
Definition process_dynamic_text (t : text) (image : Image) : text :=
  if contains (str "{exif_date}") t
  then
    let exif_date := Utils.get_exif_datetime image in
    let replace_text :=
      match exif_date with
      | Some (c :: d) => c :: d
      | _ => str "N/A"
      end in
    replace (str "{exif_date}") replace_text t
  else t.

(** [opacity_value = int(self.opacity.get() * 255 / 100)] of
    [add_watermark_to_image]; [opacity] is an [IntVar]. *)
Definition opacity_value (opacity : Z) : Z :=
  py_int (inject_Z (opacity * 255) / 100).

(** The search loop of [calculate_adaptive_font_size]. [text_width_at mid]
    is the width of [temp_draw.textbbox((0, 0), text, font=get_font(text,
    mid))]; [None] when the measurement raises, which leaves the function. *)
Fixpoint adaptive_search (text_width_at : Z -> option Q) (target_width : Q)
    (iterations : nat) (low high best_size : Z) : option Z :=
  match iterations with
  | O => Some best_size
  | S iterations' =>
      if high <? low then Some best_size
      else
        let mid := (low + high) / 2 in
        match text_width_at mid with
        | None => None
        | Some text_width =>
            if Qle_bool text_width target_width
            then adaptive_search text_width_at target_width iterations' (mid + 1) high mid
            else adaptive_search text_width_at target_width iterations' low (mid - 1) best_size
        end
  end.

Definition min_size (img_w img_h : Z) : Z :=
  Z.max 10 (py_int (inject_Z (Z.min img_w img_h) * 0.02)).

Definition max_size (img_w img_h : Z) : Z :=
  py_int (inject_Z (Z.min img_w img_h) * 0.3).

(** [calculate_adaptive_font_size(text, image_size)]. *)
Definition calculate_adaptive_font_size (text_width_at : Z -> option Q)
    (image_size : Z * Z) : option Z :=
  let '(img_w, img_h) := image_size in
  let target_width := (inject_Z img_w * 0.8)%Q in
  let min_size := min_size img_w img_h in
  let max_size := max_size img_w img_h in
  match adaptive_search text_width_at target_width 10 min_size max_size min_size with
  | None => None
  | Some best_size => Some (Z.max min_size (Z.min best_size max_size))
  end.

(** [calculate_position(image_size, text_size)]; [position] is
    [self.position_var.get()]. *)
Definition calculate_position (position : text) (image_size text_size : Z * Z) : Z * Z :=
  let '(img_w, img_h) := image_size in
  let '(text_w, text_h) := text_size in
  let margin := 10 in
  if text_eqb position WatermarkApp.TOP_LEFT then (margin, margin)
  else if text_eqb position WatermarkApp.TOP_RIGHT then (img_w - text_w - margin, margin)
  else if text_eqb position WatermarkApp.BOTTOM_LEFT then (margin, img_h - text_h - margin)
  else if text_eqb position WatermarkApp.BOTTOM_RIGHT
       then (img_w - text_w - margin, img_h - text_h - margin)
  else if text_eqb position WatermarkApp.CENTER
       then ((img_w - text_w) / 2, (img_h - text_h) / 2)
  else (margin, margin).

(** [get_contrast_color(rgb)], the foreground of the colour button:
    [true] stands for ['white'], [false] for ['black']. *)
Definition get_contrast_color (rgb : Z * Z * Z) : bool :=
  let '(r, g, b) := rgb in
  let luminance :=
    fadd (fadd (fmul (float 0.299) (float_of_int r)) (fmul (float 0.587) (float_of_int g)))
         (fmul (float 0.114) (float_of_int b)) in
  Qlt_bool luminance 128.

(** [calculate_contrast_color_for_region(image, x, y, width, height)];
    any exception yields [self.watermark_color]. *)
Definition calculate_contrast_color_for_region (watermark_color : Z * Z * Z)
    (image : Image) (x y width height : Z) : Z * Z * Z :=
  match crop image (x, y, x + width, y + height) with
  | None => watermark_color
  | Some region =>
      match stat_mean region with
      | None => watermark_color
      | Some (mean0, mean1, mean2) =>
          let luminance :=
            fadd (fadd (fmul (float 0.299) mean0) (fmul (float 0.587) mean1))
                 (fmul (float 0.114) mean2) in
          if Qlt_bool 128 luminance then (0, 0, 0) else (255, 255, 255)
      end
  end.

(** *** The batch worker *)

(** The [data] of a ['status'] message: 开始批量添加水印...,
    处理图片 i/total: filename, 处理已取消, 处理完成 - 成功: p, 失败: e. *)
Inductive status :=
| StatusStarted
| StatusItem (i total_images : nat) (filename : text)
| StatusCancelled
| StatusCompleted (processed_count error_count : nat).

(** What the worker puts on [message_queue], by ['type']. *)
Inductive message :=
| Status (data : status)
| Progress (data : Q)
| Info
| Error (e : text)
| EnableControls.

(** What the worker writes with [self.logger.error]: 处理图片失败 path,
    批量处理失败. *)
Inductive log_entry :=
| ImageFailed (image_path : text)
| BatchFailed (e : text).

Record Worker := {
  processed_count : nat;
  error_count : nat;
  message_queue : list message;
  logged : list log_entry;
  (** the paths whose processing was started, in order *)
  attempted : list text
}.

(** [os.path.basename(image_path)], POSIX flavour. *)
Definition basename (image_path : text) : text :=
  List.last (split 47 image_path) [].

Section batch.
(** The body of the per-image [try]: open, transpose, resolve the text,
    watermark, save. [true] when it completes, [false] when it raises. *)
Variable process_image : text -> bool.
Variable stop_requested : nat -> bool.

(** The [for i, image_path in enumerate(self.image_files)] loop. *)
Fixpoint process_loop (total_images i : nat) (image_files : list text) (w : Worker)
  : Worker :=
  match image_files with
  | [] => w
  | image_path :: image_files' =>
      if stop_requested i then w
      else
        let progress := (inject_Z (Z.of_nat (S i)) / inject_Z (Z.of_nat total_images) * 100)%Q in
        let queue :=
          message_queue w
          ++ [Progress progress; Status (StatusItem (S i) total_images (basename image_path))] in
        if process_image image_path then
          process_loop total_images (S i) image_files'
            {| processed_count := S (processed_count w);
               error_count := error_count w;
               message_queue := queue;
               logged := logged w;
               attempted := attempted w ++ [image_path] |}
        else
          process_loop total_images (S i) image_files'
            {| processed_count := processed_count w;
               error_count := S (error_count w);
               message_queue := queue;
               logged := logged w ++ [ImageFailed image_path];
               attempted := attempted w ++ [image_path] |}
  end.

Definition put (ms : list message) (w : Worker) : Worker :=
  {| processed_count := processed_count w; error_count := error_count w;
     message_queue := message_queue w ++ ms; logged := logged w;
     attempted := attempted w |}.

Definition idle : Worker :=
  {| processed_count := 0; error_count := 0; message_queue := [];
     logged := []; attempted := [] |}.

(** [process_images_thread]. [output_folder] is [create_output_folder(...)]:
    [inl e] when it raises [e]. *)
Definition process_images_thread (output_folder : text + text) (image_files : list text)
  : Worker :=
  match output_folder with
  | inl e =>
      put [Error e; EnableControls]
        {| processed_count := 0; error_count := 0; message_queue := [];
           logged := [BatchFailed e]; attempted := [] |}
  | inr _ =>
      let total_images := length image_files in
      let w := process_loop total_images 0 image_files (put [Status StatusStarted] idle) in
      let w :=
        if stop_requested (length (attempted w)) then put [Status StatusCancelled] w
        else
          let w := put [Status (StatusCompleted (processed_count w) (error_count w))] w in
          if (0 <? processed_count w)%nat then put [Info] w else w in
      put [EnableControls] w
  end.

End batch.

(** [rgb_to_hex(rgb)]: ['#{:02x}{:02x}{:02x}'.format(...)]. *)
Definition rgb_to_hex (rgb : Z * Z * Z) : text :=
  let '(r, g, b) := rgb in
  [35] ++ format_02x r ++ format_02x g ++ format_02x b.

(** [hex_to_rgb(hex_color)]; [None] when an [int(..., 16)] raises. *)
Definition hex_to_rgb (hex_color : text) : option (Z * Z * Z) :=
  let hex_color := lstrip_char 35 hex_color in
  match int_of_str 16 (slice 0 2 hex_color) with
  | None => None
  | Some r =>
      match int_of_str 16 (slice 2 4 hex_color) with
      | None => None
      | Some g =>
          match int_of_str 16 (slice 4 6 hex_color) with
          | None => None
          | Some b => Some (r, g, b)
          end
      end
  end.

(** The [draw.text((x, y), text, font=font, fill=fill_color)] call of
    [add_watermark_to_image]; the font is [get_font(text, font_size)]. *)
Record Drawing := {
  draw_xy : Z * Z;
  draw_text : text;
  draw_font_size : Z;
  draw_fill : Z * Z * Z * Z
}.

Section add_watermark_to_image.
(** The settings the method reads from its widgets. *)
Variables multi_size_var high_contrast_var : bool.
Variables font_size opacity : Z.
Variable watermark_color : Z * Z * Z.
Variable position_var : text.
(** [draw.textbbox((0, 0), text, font=self.get_font(text, size))] as its
    extent [(right - left, bottom - top)]; [None] when it raises. *)
Variable textbbox : text -> Z -> option (Z * Z).

(** [add_watermark_to_image(image, text)], seen through the one draw call
    it makes; [None] when a measurement raises. *)
Definition add_watermark_to_image (image : Image) (t : text) : option Drawing :=
  let font_size :=
    if multi_size_var
    then calculate_adaptive_font_size
           (fun mid => option_map (fun wh => inject_Z (fst wh)) (textbbox t mid))
           (size image)
    else Some font_size in
  match font_size with
  | None => None
  | Some font_size =>
      match textbbox t font_size with
      | None => None
      | Some (text_width, text_height) =>
          let '(x, y) := calculate_position position_var (size image) (text_width, text_height) in
          let color :=
            if high_contrast_var
            then calculate_contrast_color_for_region watermark_color image
                   x y text_width text_height
            else watermark_color in
          let opacity_value := opacity_value opacity in
          Some {| draw_xy := (x, y); draw_text := t; draw_font_size := font_size;
                  draw_fill := (color, opacity_value) |}
      end
  end.

End add_watermark_to_image.

End WatermarkTool.

(** A font whose every glyph, the space included, advances [w] and is [h] tall. *)
Definition fixed_font (w h : Q) : Pil.Font :=
  {| Pil.font_textbbox := fun _ => Some (w, h);
     Pil.font_getsize := None;
     Pil.font_getlength := Some (fun _ => Some w);
     Pil.font_size := Some h |}.



(** An image of one colour, without EXIF data. *)
Definition uniform_image (w h : Z) (rgb : Z * Z * Z) : Pil.Image :=
  {| Pil.size := (w, h); Pil.getpixel := fun _ _ => rgb; Pil.getexif := Some ∅ |}.

(** The same image with an EXIF mapping. *)
Definition with_exif (image : Pil.Image) (exif_data : gmap Z Pil.exif_value) : Pil.Image :=
  {| Pil.size := Pil.size image; Pil.getpixel := Pil.getpixel image;
     Pil.getexif := Some exif_data |}.

(** ** Vocabulary of the statements *)

Module Layout.
Import Py Pil WatermarkApp.

(** Perceptual luminance of a mean colour. *)
Definition luminance_of (mean : Q * Q * Q) : Q :=
  let '(r, g, b) := mean in (0.299 * r + 0.587 * g + 0.114 * b)%Q.

(** The luminance as the source computes it from a mean colour: three
    float products, added from the left. *)
Definition computed_luminance (mean : Q * Q * Q) : Q :=
  let '(r, g, b) := mean in
  fadd (fadd (fmul (float 0.299) r) (fmul (float 0.587) g)) (fmul (float 0.114) b).

(** The mean colour of an image as exact fractions: the band sums over the
    pixel count, before the float division of [stat_mean]. *)
Definition exact_mean (image : Image) : Q * Q * Q :=
  let data := getdata image in
  let count := Z.of_nat (length data) in
  ((inject_Z (band_sum (fun px => fst (fst px)) data) / inject_Z count)%Q,
   (inject_Z (band_sum (fun px => snd (fst px)) data) / inject_Z count)%Q,
   (inject_Z (band_sum (fun px => snd px) data) / inject_Z count)%Q).

(** Every band of every pixel is a byte, as in an RGB image. *)
Definition rgb_bytes (image : Image) : Prop :=
  forall x y,
    let '(r, g, b) := getpixel image x y in
    0 <= r <= 255 /\ 0 <= g <= 255 /\ 0 <= b <= 255.

(** A text with its ASCII spaces removed. *)
Definition without_spaces (t : text) : text := filter (fun c : Z => c <> SPACE) (t : list Z).

Definition buffer_text (buffer : list Item) : text := concat (List.map item_text buffer).

(** What the loop has drawn so far, followed by what waits in the buffer. *)
Definition pending_text (st : Loop) : text :=
  runs_text (drawn st) ++ buffer_text (line_buffer st).

Definition buffer_width (buffer : list Item) : Q :=
  fold_right (fun m acc => (item_width m + acc)%Q) 0%Q buffer.

(** Iterations the loop can still take: two per remaining word, one less
    when the line is empty (no flush comes before the next placement). *)
Definition loop_measure (words : list text) (st : Loop) : nat :=
  (2 * (length words - word_index st)
   - match line_buffer st with [] => 1 | _ :: _ => 0 end)%nat.

(** The advance of one character on a line: the measured space width for a
    space, the glyph width otherwise. *)
Definition glyph_width (use_bbox : bool) (font_chinese font_english : Font) (c : char) : Q :=
  if c =? SPACE then space_width font_english
  else item_width (char_item use_bbox font_chinese font_english c).

(** The width of a text set on a single line. *)
Definition line_width (use_bbox : bool) (font_chinese font_english : Font) (t : text) : Q :=
  fold_right (fun c acc => (glyph_width use_bbox font_chinese font_english c + acc)%Q) 0%Q t.

(** A buffered item is one character of non-negative width. *)
Definition sound_item (m : Item) : Prop :=
  (0 <= item_width m)%Q /\ length (item_text m) = 1%nat.

(** A run is one character; it ends left of the right limit
    [x_start + max_width], or it is a forced character at the line start
    that alone is wider than the line. *)
Definition within (x_start max_width : Q) (r : Run) : Prop :=
  length (run_text r) = 1%nat
  /\ (x_start <= run_x r)%Q
  /\ ((run_x r + run_width r <= x_start + max_width)%Q
      \/ (run_forced r = true /\ (run_x r == x_start)%Q /\ (max_width < run_width r)%Q)).

(** The loop invariant behind the content property: the pending text is
    the words placed so far, joined, with some joining spaces left out. *)
Definition text_invariant (words : list text) (st : Loop) : Prop :=
  (word_index st <= length words)%nat
  /\ without_spaces (pending_text st)
     = without_spaces (join SPACE (take (word_index st) words))
  /\ sublist (pending_text st) (join SPACE (take (word_index st) words))
  /\ (line_buffer st <> [] -> (0 < word_index st)%nat).

(** The loop invariant behind the width property. *)
Definition width_invariant (x_start max_width : Q) (st : Loop) : Prop :=
  Forall (within x_start max_width) (drawn st)
  /\ (current_line_width st == buffer_width (line_buffer st))%Q
  /\ (line_buffer st <> [] -> (buffer_width (line_buffer st) <= max_width)%Q)
  /\ Forall sound_item (line_buffer st).

(** The loop invariant of a text that fits one line: nothing is drawn
    before the end, and the buffer holds the placed words with their spaces. *)
Definition single_line_invariant (use_bbox : bool) (font_chinese font_english : Font)
    (words : list text) (st : Loop) : Prop :=
  drawn st = []
  /\ (word_index st <= length words)%nat
  /\ buffer_text (line_buffer st) = join SPACE (take (word_index st) words)
  /\ (current_line_width st
      == line_width use_bbox font_chinese font_english
           (join SPACE (take (word_index st) words)))%Q
  /\ (line_buffer st = [] <-> word_index st = 0%nat).

End Layout.

Module Resolution.
Import Py Pil Datetime.

(** [sep.join(pieces)] for a separator of any length. *)
Fixpoint intercalate (sep : text) (pieces : list text) : text :=
  match pieces with
  | [] => []
  | [p] => p
  | p :: pieces' => p ++ sep ++ intercalate sep pieces'
  end.

(** The value of the tag the date is read from: DateTimeOriginal when it
    holds a non-empty string, else DateTime when that does. *)
Definition first_date_tag (exif_data : gmap Z exif_value) : option text :=
  match Utils.nonempty_str (exif_data !! Utils.TAG_DATETIME_ORIGINAL) with
  | Some s => Some s
  | None => Utils.nonempty_str (exif_data !! Utils.TAG_DATETIME)
  end.

(** A tag value up to its first NUL, stripped of surrounding whitespace. *)
Definition cleaned (s : text) : text := strip (split_head NUL s).

(** What takes the place of [{exif_date}], by the amended statement: the
    reformatted timestamp when the cleaned tag value parses, that value as it
    is when it does not parse, and [N/A] when there is nothing to show. *)
Definition substitute (parse : text -> option datetime) (image : Image) : text :=
  match getexif image with
  | None => str "N/A"
  | Some exif_data =>
      match first_date_tag exif_data with
      | None => str "N/A"
      | Some s =>
          match parse (cleaned s) with
          | Some dt => strftime dt
          | None =>
              match cleaned s with
              | [] => str "N/A"
              | c :: s' => c :: s'
              end
          end
      end
  end.

(** The substitute as the specification words it: [N/A] also when the tag
    value does not parse. *)
Definition substitute_as_specified (parse : text -> option datetime) (image : Image) : text :=
  match getexif image with
  | None => str "N/A"
  | Some exif_data =>
      match first_date_tag exif_data with
      | None => str "N/A"
      | Some s =>
          match parse (cleaned s) with
          | Some dt => strftime dt
          | None => str "N/A"
          end
      end
  end.

End Resolution.

Module Batch.
Import Py.

(** The files of a run whose processing returned, and those where it raised. *)
Definition succeeded (process_single_image : text -> option text) (files : list text)
  : list text :=
  filter (fun f => process_single_image f = None) files.

Definition failed (process_single_image : text -> option text) (files : list text)
  : list text :=
  filter (fun f => process_single_image f <> None) files.

(** The queue entries [WatermarkApp] emits for [files], the first of which
    has index [i]: a progress entry per file, and an error entry after it
    when the file failed. *)
Fixpoint app_events (process_single_image : text -> option text)
    (total_images i : nat) (files : list text) : list WatermarkApp.message :=
  match files with
  | [] => []
  | f :: files' =>
      WatermarkApp.Progress (S i) total_images f
      :: match process_single_image f with
         | None => []
         | Some img_err => [WatermarkApp.Error f img_err]
         end
      ++ app_events process_single_image total_images (S i) files'
  end.

(** The queue entries [WatermarkTool] emits for [files]. *)
Fixpoint tool_events (total_images i : nat) (files : list text)
  : list WatermarkTool.message :=
  match files with
  | [] => []
  | f :: files' =>
      WatermarkTool.Progress
        (inject_Z (Z.of_nat (S i)) / inject_Z (Z.of_nat total_images) * 100)
      :: WatermarkTool.Status
           (WatermarkTool.StatusItem (S i) total_images (WatermarkTool.basename f))
      :: tool_events total_images (S i) files'
  end.

End Batch.

Module Geometry.
Import Py Pil WatermarkApp.

(** Runs that go down the page between [top] and [bottom]: no run lies
    above [top], above the run drawn before it, or below [bottom]. *)
Fixpoint descending (top bottom : Q) (rs : list Run) : Prop :=
  match rs with
  | [] => (top <= bottom)%Q
  | r :: rs' => (top <= run_y r)%Q /\ descending (run_y r) bottom rs'
  end.

(** The runs of one row at height [row], flushed from the line buffer,
    the first at [x] and each next one where the one before it ends. *)
Fixpoint abutting (x row : Q) (rs : list Run) : Prop :=
  match rs with
  | [] => True
  | r :: rs' =>
      (run_x r == x)%Q /\ (run_y r == row)%Q /\ run_forced r = false
      /\ abutting (x + run_width r) row rs'
  end.

(** The loop invariant behind the vertical order. *)
Definition rows_invariant (y_start : Q) (st : Loop) : Prop :=
  descending y_start (y st) (drawn st)
  /\ Forall (fun m => (0 <= item_height m)%Q) (line_buffer st).

End Geometry.

Module Lines.
Import Py Pil WatermarkApp Layout Geometry.

(** The words of a line from its first word that is not empty. *)
Fixpoint strip_empty (ws : list text) : list text :=
  match ws with
  | [] => []
  | w :: ws' =>
      match w with
      | [] => strip_empty ws'
      | _ :: _ => ws
      end
  end.

(** The text of a line of words: one space between two words, and none
    before the first word that is not empty. *)
Definition line_text (ws : list text) : text := join SPACE (strip_empty ws).

(** A line as it is drawn: its words and its draw calls. The calls spell
    the words of the line; they are one flushed row that starts at
    [x_start], or the forced characters of a single word. *)
Definition drawn_line (x_start : Q) (line : list text * list Run) : Prop :=
  runs_text (snd line) = line_text (fst line)
  /\ ((exists row, abutting x_start row (snd line))
      \/ (Forall (fun r => run_forced r = true) (snd line)
          /\ (length (strip_empty (fst line)) <= 1)%nat)).

(** The loop invariant behind the lines: the words placed so far are those
    of the lines drawn, then those of the line in the buffer. *)
Definition lines_invariant (x_start : Q) (words : list text) (st : Loop) : Prop :=
  exists (done : list (list text * list Run)) (cur : list text),
    concat (List.map fst done) ++ cur = take (word_index st) words
    /\ concat (List.map snd done) = drawn st
    /\ Forall (drawn_line x_start) done
    /\ buffer_text (line_buffer st) = line_text cur
    /\ Forall (fun m => item_text m <> []) (line_buffer st).

End Lines.

Module Names.
Import Py.

(** A name after the first two steps of [safe_filename]: the illegal
    characters replaced, the control characters removed. *)
Definition sanitized (filename : text) : text :=
  List.filter (fun c => 32 <=? c)
    (fold_left (fun f c => replace [c] [95] f) Utils.illegal_chars filename).

(** The names [get_unique_filename] tries, in order: the plain name
    first, then the numbered ones from 1 on. *)
Definition candidate (base_name extension : text) (k : Z) : text :=
  if k =? 0 then base_name ++ [46] ++ extension
  else Utils.numbered base_name extension k.

End Names.

(** * Properties *)

Import Py Pil Datetime Layout.

(** ** The embedding at work *)

Example split_keeps_empty_words :
  split SPACE (str "a  b ") = [str "a"; []; str "b"; []].
Proof. reflexivity. Qed.

Example strip_cuts_at_nul :
  Resolution.cleaned (str "  2023:05:01 12:34:56 " ++ [0] ++ str "pad")
  = str "2023:05:01 12:34:56".
Proof. reflexivity. Qed.

Example strptime_reformats :
  option_map strftime (strptime (str "2023:05:01 12:34:56") FMT_EXIF)
  = Some (str "2023-05-01 12:34:56")
  /\ strptime (str "2023:02:29 12:34:56") FMT_EXIF = None
  /\ strptime (str "2023:05:01 12:34:56 ") FMT_EXIF = None
  /\ strptime (str "2023-05-01 12:34:56") FMT_EXIF = None
  /\ option_map strftime (strptime (str "2024-02-29 1:2:3") FMT_ISO)
     = Some (str "2024-02-29 01:02:03").
Proof. repeat split; reflexivity. Qed.

(** ["abcdefgh ij"] on a line three glyphs wide, glyphs 1 x 1: the long
    word is broken into rows of three, the short one starts the next row. *)
Example forced_break_positions :
  option_map (List.map (fun r => (WatermarkApp.run_text r, WatermarkApp.run_pixel r)))
    (WatermarkApp.draw_watermark true (fixed_font 1 1) (fixed_font 1 1) 0 0 3
       (str "abcdefgh ij"))
  = Some [(str "a", (0, 0)); (str "b", (1, 0)); (str "c", (2, 0));
          (str "d", (0, 1)); (str "e", (1, 1)); (str "f", (2, 1));
          (str "g", (0, 2)); (str "h", (1, 2));
          (str "i", (0, 3)); (str "j", (1, 3))].
Proof. vm_compute. reflexivity. Qed.

(** A text whose token meets an image without EXIF date reads [N/A]. *)
Example exif_date_without_exif :
  WatermarkApp._process_dynamic_text (str "{exif_date}") (uniform_image 1 1 (0, 0, 0))
  = str "N/A"
  /\ WatermarkTool.process_dynamic_text (str "{exif_date}") (uniform_image 1 1 (0, 0, 0))
     = str "N/A".
Proof. split; vm_compute; reflexivity. Qed.

(** A white region asks for black text, a black region for white text. *)
Example contrast_of_white_and_black :
  WatermarkApp._calculate_contrast_color (Some (uniform_image 3 2 (255, 255, 255)))
  = (0, 0, 0)
  /\ WatermarkApp._calculate_contrast_color (Some (uniform_image 3 2 (0, 0, 0)))
     = (255, 255, 255)
  /\ WatermarkApp._calculate_contrast_color (Some (uniform_image 0 2 (0, 0, 0)))
     = (0, 0, 0).
Proof. repeat split; vm_compute; reflexivity. Qed.

(** ** Numbers *)

Lemma py_int_nonneg_div (n : Z) (d : positive) :
  0 <= n -> py_int (n # d) = n / Z.pos d.
Proof. intros Hn. unfold py_int; simpl. apply Z.quot_div_nonneg; lia. Qed.

Lemma py_int_scale (m num : Z) (den : positive) :
  0 <= m * num -> py_int (inject_Z m * (num # den)) = (m * num) / Z.pos den.
Proof. intros H. unfold py_int; simpl. apply Z.quot_div_nonneg; lia. Qed.

Lemma Qlt_bool_iff (a b : Q) : Qlt_bool a b = true <-> (a < b)%Q.
Proof.
  unfold Qlt_bool. rewrite negb_true_iff, <- not_true_iff_false, Qle_bool_iff.
  split; [apply Qnot_le_lt | apply Qlt_not_le].
Qed.

Lemma Qlt_bool_false_iff (a b : Q) : Qlt_bool a b = false <-> (b <= a)%Q.
Proof. unfold Qlt_bool. rewrite negb_false_iff. apply Qle_bool_iff. Qed.

Lemma Qle_bool_false_iff (a b : Q) : Qle_bool a b = false <-> (b < a)%Q.
Proof.
  rewrite <- not_true_iff_false, Qle_bool_iff.
  split; [apply Qnot_le_lt | apply Qlt_not_le].
Qed.

(** ** Opacity *)

Lemma opacity_value_div (opacity_percent : Z) :
  0 <= opacity_percent ->
  WatermarkApp.opacity_value opacity_percent = opacity_percent * 255 / 100.
Proof.
  intros H. unfold WatermarkApp.opacity_value, py_int; simpl.
  rewrite Z.mul_1_r. apply Z.quot_div_nonneg; lia.
Qed.

(** C6, as stated, fails: at 1 percent the source computes
    [int(2.55) = 2], where rounding gives 3. *)
Lemma opacity_value_is_not_rounded :
  ~ (forall opacity_percent : Z, 0 <= opacity_percent <= 100 ->
       WatermarkApp.opacity_value opacity_percent
       = Z.max 0 (Z.min 255 (py_round (inject_Z (opacity_percent * 255) / 100)))).
Proof. intros H. specialize (H 1 ltac:(lia)). vm_compute in H. discriminate. Qed.

(** C6 (amended): for every opacity percentage in [0, 100] both call sites
    compute alpha as [opacity * 255 / 100] truncated (rounded down), a
    value of [0, 255]; 0 gives 0, 100 gives 255 and 50 gives 127. *)
Theorem opacity_value_truncates (opacity_percent : Z) :
  0 <= opacity_percent <= 100 ->
  WatermarkApp.opacity_value opacity_percent = floor (inject_Z (opacity_percent * 255) / 100)
  /\ WatermarkTool.opacity_value opacity_percent = WatermarkApp.opacity_value opacity_percent
  /\ WatermarkApp.opacity_value opacity_percent = opacity_percent * 255 / 100
  /\ 0 <= WatermarkApp.opacity_value opacity_percent <= 255
  /\ WatermarkApp.opacity_value 0 = 0
  /\ WatermarkApp.opacity_value 100 = 255
  /\ WatermarkApp.opacity_value 50 = 127.
Proof.
  intros H. rewrite !opacity_value_div by lia.
  repeat split; try reflexivity.
  - unfold floor; simpl. now rewrite Z.mul_1_r.
  - apply Z.div_pos; lia.
  - apply Z.div_le_upper_bound; lia.
Qed.

Lemma opacity_value_truncates_at_50 :
  0 <= 50 <= 100 /\ WatermarkApp.opacity_value 50 = 50 * 255 / 100.
Proof.
  split; [lia |].
  apply (opacity_value_truncates 50); lia.
Defined.

(** ** Position *)

(** [WatermarkApp.calculate_position] clamps: whenever the text box fits
    the image, the origin keeps it inside, for every anchor name. *)
Lemma app_calculate_position_within_image (img_w img_h text_w text_h : Z) (position : text) :
  text_w <= img_w -> text_h <= img_h ->
  let xy := WatermarkApp.calculate_position (img_w, img_h) (text_w, text_h) position in
  0 <= fst xy <= img_w - text_w /\ 0 <= snd xy <= img_h - text_h.
Proof.
  intros Hw Hh. unfold WatermarkApp.calculate_position. cbv zeta.
  set (pos := if text_eqb position WatermarkApp.TOP_LEFT then _ else _).
  simpl. lia.
Qed.

(** C4: [WatermarkTool.calculate_position] returns the table entry without
    the clamp of [WatermarkApp.calculate_position]. For a 100 x 100 image and
    a 95 x 95 text box anchored top-left it answers (10, 10), outside
    [0, 100 - 95]; the clamping sibling answers (5, 5). *)
Theorem tool_calculate_position_not_clamped :
  WatermarkTool.calculate_position WatermarkApp.TOP_LEFT (100, 100) (95, 95) = (10, 10)
  /\ ~ (10 <= 100 - 95)
  /\ WatermarkTool.calculate_position WatermarkApp.TOP_RIGHT (100, 100) (95, 95) = (-5, 10)
  /\ WatermarkApp.calculate_position (100, 100) (95, 95) WatermarkApp.TOP_LEFT = (5, 5).
Proof. repeat split; try reflexivity. lia. Qed.

(** ** binary64 *)

Lemma binary64_proper (q q' : Q) : (q == q')%Q -> binary64 q = binary64 q'.
Proof. intros H. unfold binary64. now rewrite (Qred_complete _ _ H). Qed.

Lemma py_round_integer (z : Z) : py_round (z # 1) = z.
Proof.
  assert (Hf : Py.floor (z # 1) = z)
    by (unfold Py.floor; cbn [Qnum Qden]; apply Z.div_1_r).
  unfold py_round. rewrite Hf.
  assert (H0 : (2 * ((z # 1) - inject_Z z) == 0)%Q) by (unfold inject_Z; ring).
  assert (Hle : Qle_bool (2 * ((z # 1) - inject_Z z)) 1 = true)
    by (apply Qle_bool_iff; rewrite H0; discriminate).
  assert (Hne : Qeq_bool (2 * ((z # 1) - inject_Z z)) 1 = false).
  { destruct (Qeq_bool _ 1) eqn:E; [| reflexivity].
    apply Qeq_bool_eq in E. rewrite H0 in E. discriminate. }
  now rewrite Hle, Hne.
Qed.

(** An integer below 2^53 is a binary64 number: rounding leaves it. *)
Lemma binary64_integer (a : Z) :
  Z.abs a < 2 ^ 53 -> (binary64 (inject_Z a) == inject_Z a)%Q.
Proof.
  intros Ha. unfold binary64.
  assert (Hred : Qred (inject_Z a) = inject_Z a).
  { apply Qcanon.Qred_identity. cbn. apply Z.gcd_1_r. }
  rewrite Hred. cbn [Qnum Qden inject_Z].
  destruct (Z.eqb_spec (Z.abs a) 0) as [H0 | H0].
  { assert (a = 0) by lia. subst a. reflexivity. }
  set (n := Z.abs a) in *.
  assert (Hn : 0 < n) by lia.
  assert (Hlog : 0 <= Z.log2 n < 53).
  { split; [apply Z.log2_nonneg |]. apply Z.log2_lt_pow2; lia. }
  assert (Hilog : ilog2 n 1 = Z.log2 n).
  { unfold ilog2. change (Z.log2 1) with 0. rewrite Z.sub_0_r.
    destruct (0 <=? Z.log2 n) eqn:E; [| apply Z.leb_gt in E; lia].
    destruct (1 * 2 ^ Z.log2 n <=? n) eqn:E2; [reflexivity |].
    apply Z.leb_gt in E2. pose proof (Z.log2_spec n Hn). lia. }
  change (Z.pos 1) with 1. rewrite Hilog.
  rewrite Z.max_l by lia.
  rewrite Qred_correct.
  assert (Hsign : ((if a <? 0 then - inject_Z n else inject_Z n) == inject_Z a)%Q).
  { destruct (a <? 0) eqn:E.
    - apply Z.ltb_lt in E. unfold n. rewrite Z.abs_neq by lia.
      unfold inject_Z, Qopp, Qeq. cbn. lia.
    - apply Z.ltb_ge in E. unfold n. rewrite Z.abs_eq by lia. reflexivity. }
  destruct (0 <=? Z.log2 n - 52) eqn:E.
  - apply Z.leb_le in E. assert (He : Z.log2 n - 52 = 0) by lia. rewrite He.
    change (1 * 2 ^ 0) with 1. change (Z.to_pos 1) with 1%positive.
    rewrite py_round_integer. rewrite Z.mul_1_r. exact Hsign.
  - apply Z.leb_gt in E.
    rewrite py_round_integer.
    set (k := - (Z.log2 n - 52)) in *.
    assert (Hk : 0 < 2 ^ k) by (apply Z.pow_pos_nonneg; lia).
    assert (Hr : (n * 2 ^ k # Z.to_pos (2 ^ k) == inject_Z n)%Q).
    { unfold Qeq, inject_Z. cbn [Qnum Qden]. rewrite Z2Pos.id by lia. ring. }
    destruct (a <? 0); [rewrite Hr | rewrite Hr]; exact Hsign.
Qed.

(** The products and the sum of the luminance are rounded: on the grey
    (128, 128, 128) the source computes 127.99999999999999, on
    (1, 189, 147) exactly 128. *)
Example computed_luminance_of_grey :
  Qlt_bool (computed_luminance (128, 128, 128)%Q) 128 = true
  /\ Qeq_bool (luminance_of (128, 128, 128)%Q) 128 = true
  /\ Qeq_bool (computed_luminance (1, 189, 147)%Q) 128 = true.
Proof. repeat split; vm_compute; reflexivity. Qed.

(** ** Contrast colour *)

(** [WatermarkApp._calculate_contrast_color] on a region with pixels:
    white exactly when the luminance it computes is below 128, black from
    128 on. *)
Lemma app_contrast_color_threshold (region : Image) (mean : Q * Q * Q) :
  fst (size region) <> 0 -> snd (size region) <> 0 ->
  stat_mean region = Some mean ->
  ((computed_luminance mean < 128)%Q ->
     WatermarkApp._calculate_contrast_color (Some region) = (255, 255, 255))
  /\ ((128 <= computed_luminance mean)%Q ->
     WatermarkApp._calculate_contrast_color (Some region) = (0, 0, 0)).
Proof.
  intros Hw Hh Hmean. unfold WatermarkApp._calculate_contrast_color.
  apply Z.eqb_neq in Hw, Hh. rewrite Hw, Hh, Hmean. cbn [orb].
  destruct mean as [[r g] b]. unfold computed_luminance.
  split; intros HL.
  - apply Qlt_bool_iff in HL. now rewrite HL.
  - apply Qlt_bool_false_iff in HL. now rewrite HL.
Qed.

(** C5: on a region whose luminance is exactly 128 (every pixel
    (1, 189, 147): 0.299 + 0.587 * 189 + 0.114 * 147 = 128)
    [WatermarkTool.calculate_contrast_color_for_region] answers white,
    because it tests [luminance > 128]; [_calculate_contrast_color] and
    [get_contrast_color] test [luminance < 128] and answer black. *)
Theorem tool_contrast_color_tie_is_white :
  let image := uniform_image 4 4 (1, 189, 147) in
  (exists mean, stat_mean image = Some mean /\ (luminance_of mean == 128)%Q)
  /\ WatermarkTool.calculate_contrast_color_for_region (255, 255, 0) image 0 0 4 4
     = (255, 255, 255)
  /\ WatermarkApp._calculate_contrast_color (crop image (0, 0, 4, 4)) = (0, 0, 0)
  /\ WatermarkTool.get_contrast_color (1, 189, 147) = false.
Proof.
  cbv zeta. split; [| repeat split; vm_compute; reflexivity].
  eexists. split; [vm_compute; reflexivity |]. vm_compute. reflexivity.
Qed.

(** ** Adaptive font size *)

(** C3, as stated, fails: on a 20 x 20 image the size is at least 10,
    above 0.30 * 20 = 6. *)
Lemma adaptive_font_size_exceeds_30_percent :
  ~ (forall (use_bbox : bool) (t : text) (base_font_size img_w img_h : Z)
            (font_chinese_path font_english_path : Z -> Font),
       t <> [] ->
       let s := WatermarkApp.calculate_adaptive_font_size use_bbox t base_font_size
                  (img_w, img_h) font_chinese_path font_english_path in
       (Qmax 10 (0.015 * inject_Z (Z.min img_w img_h)) <= inject_Z s)%Q
       /\ (inject_Z s <= 0.30 * inject_Z (Z.min img_w img_h))%Q).
Proof.
  intros H.
  specialize (H true (str "a") 40 20 20
                (fun s => fixed_font (inject_Z s / 2) (inject_Z s))
                (fun s => fixed_font (inject_Z s / 2) (inject_Z s))
                ltac:(discriminate)).
  destruct H as [_ H]. vm_compute in H. apply H. reflexivity.
Qed.

Lemma app_font_range_arith (img_w img_h : Z) :
  0 <= Z.min img_w img_h ->
  WatermarkApp.min_font_size img_w img_h = Z.max 10 (Z.min img_w img_h * 15 / 1000)
  /\ WatermarkApp.max_font_size img_w img_h
     = Z.max (WatermarkApp.min_font_size img_w img_h + 1) (Z.min img_w img_h * 30 / 100).
Proof.
  intros H. unfold WatermarkApp.max_font_size, WatermarkApp.min_font_size.
  rewrite (py_int_scale _ 15 1000), (py_int_scale _ 30 100) by lia. split; reflexivity.
Qed.

Lemma tool_font_range_arith (img_w img_h : Z) :
  0 <= Z.min img_w img_h ->
  WatermarkTool.min_size img_w img_h = Z.max 10 (Z.min img_w img_h * 2 / 100)
  /\ WatermarkTool.max_size img_w img_h = Z.min img_w img_h * 3 / 10.
Proof.
  intros H. unfold WatermarkTool.max_size, WatermarkTool.min_size.
  rewrite (py_int_scale _ 2 100), (py_int_scale _ 3 10) by lia. split; reflexivity.
Qed.

Lemma tool_adaptive_search_total (text_width_at : Z -> option Q) (target : Q) :
  (forall mid, is_Some (text_width_at mid)) ->
  forall iterations low high best,
    is_Some (WatermarkTool.adaptive_search text_width_at target iterations low high best).
Proof.
  intros Htot. induction iterations as [| n IH]; intros low high best; simpl; [eauto |].
  destruct (high <? low); [eauto |].
  destruct (Htot ((low + high) / 2)) as [w ->].
  destruct (Qle_bool w target); apply IH.
Qed.

(** C3 (amended): the adaptive size lies in the range the search is run
    on, which is built with integer truncation and a floor of 10:
    [max(10, int(0.015 m)) .. max(that + 1, int(0.30 m))] in
    [WatermarkApp] for non-empty text, and
    [max(10, int(0.02 m)) .. max(that, int(0.3 m))] in [WatermarkTool],
    with [m = min(w, h)]. From [m >= 37] on, the upper end in
    [WatermarkApp] is [int(0.30 m)], at most [0.30 m]. *)
Theorem adaptive_font_size_within_search_range :
  (forall (use_bbox : bool) (t : text) (base_font_size img_w img_h : Z)
          (font_chinese_path font_english_path : Z -> Font),
      t <> [] ->
      let s := WatermarkApp.calculate_adaptive_font_size use_bbox t base_font_size
                 (img_w, img_h) font_chinese_path font_english_path in
      WatermarkApp.min_font_size img_w img_h <= s <= WatermarkApp.max_font_size img_w img_h
      /\ (0 <= Z.min img_w img_h ->
          Z.max 10 (Z.min img_w img_h * 15 / 1000) <= s
          /\ s <= Z.max (Z.max 10 (Z.min img_w img_h * 15 / 1000) + 1)
                        (Z.min img_w img_h * 30 / 100))
      /\ (37 <= Z.min img_w img_h ->
          (inject_Z s <= 0.30 * inject_Z (Z.min img_w img_h))%Q))
  /\ (forall (text_width_at : Z -> option Q) (img_w img_h : Z),
      (forall s, WatermarkTool.calculate_adaptive_font_size text_width_at (img_w, img_h) = Some s ->
         WatermarkTool.min_size img_w img_h <= s
         /\ s <= Z.max (WatermarkTool.min_size img_w img_h) (WatermarkTool.max_size img_w img_h))
      /\ ((forall mid, is_Some (text_width_at mid)) ->
          is_Some (WatermarkTool.calculate_adaptive_font_size text_width_at (img_w, img_h)))).
Proof.
  split.
  - intros use_bbox t base img_w img_h fcp fep Ht s.
    assert (Hrange : WatermarkApp.min_font_size img_w img_h <= s
                     <= WatermarkApp.max_font_size img_w img_h).
    { subst s. unfold WatermarkApp.calculate_adaptive_font_size.
      destruct t as [| c t']; [congruence |].
      unfold WatermarkApp.max_font_size. lia. }
    split; [exact Hrange |]. split.
    + intros Hm. destruct (app_font_range_arith img_w img_h Hm) as [E1 E2].
      rewrite E2, E1 in Hrange. lia.
    + intros Hm.
      destruct (app_font_range_arith img_w img_h ltac:(lia)) as [E1 E2].
      rewrite E2, E1 in Hrange.
      assert (Hs : s <= Z.min img_w img_h * 30 / 100).
      { destruct Hrange as [_ Hs]. revert Hs.
        generalize (Z.min img_w img_h) Hm. intros m Hm'.
        Z.div_mod_to_equations. lia. }
      assert (Hq : 100 * s <= 30 * Z.min img_w img_h).
      { revert Hs. generalize (Z.min img_w img_h). intros m.
        Z.div_mod_to_equations. lia. }
      unfold Qle; simpl. lia.
  - intros text_width_at img_w img_h. split.
    + intros s. unfold WatermarkTool.calculate_adaptive_font_size.
      destruct (WatermarkTool.adaptive_search _ _ _ _ _ _) as [best |]; [| discriminate].
      intros [= <-]. lia.
    + intros Htot. unfold WatermarkTool.calculate_adaptive_font_size.
      destruct (tool_adaptive_search_total text_width_at
                  (inject_Z img_w * 0.8) Htot 10
                  (WatermarkTool.min_size img_w img_h) (WatermarkTool.max_size img_w img_h)
                  (WatermarkTool.min_size img_w img_h)) as [best ->].
      eauto.
Qed.

Lemma adaptive_font_size_within_search_range_on_a_photo :
  str "Hello" <> []
  /\ WatermarkApp.min_font_size 4000 3000
     <= WatermarkApp.calculate_adaptive_font_size true (str "Hello") 40 (4000, 3000)
          (fun s => fixed_font (inject_Z s / 2) (inject_Z s))
          (fun s => fixed_font (inject_Z s / 2) (inject_Z s))
     <= WatermarkApp.max_font_size 4000 3000.
Proof.
  split; [discriminate |].
  exact (proj1 (proj1 adaptive_font_size_within_search_range true (str "Hello") 40 4000 3000
                  _ _ ltac:(discriminate))).
Defined.

(** ** Line layout *)

Section layout.
Import WatermarkApp.

Variable use_bbox : bool.
Variables font_chinese font_english : Font.
Variables x_start y_start max_width : Q.

Local Abbreviation body := (loop_body use_bbox font_chinese font_english x_start max_width).
Local Abbreviation while := (while_words use_bbox font_chinese font_english x_start max_width).
Local Abbreviation metrics := (word_chars_metrics use_bbox font_chinese font_english).
Local Abbreviation force := (force_break x_start max_width).
Local Abbreviation spc := (space_item use_bbox font_english).

(** Case analysis on the three branches of [loop_body]. *)
Ltac body_cases st :=
  unfold loop_body;
  let item := fresh "item" in
  let buffer := fresh "buffer" in
  destruct (line_buffer st) as [| item buffer] eqn:Hbuf;
  [ destruct (Qle_bool _ _) eqn:Hfit;
    [| destruct (force_break _ _ _ _ _ _) as [[rs y1] temp_h] eqn:Hforce ]
  | destruct (Qle_bool _ _) eqn:Hfit ];
  cbn [word_index line_buffer current_line_width current_line_max_h y drawn
       flush_line_buffer fst snd].

Ltac split4 := split; [| split; [| split]].

(** *** Termination of the [while] loop *)

Lemma loop_body_measure (words : list text) (st : Loop) (word : text) :
  words !! word_index st = Some word ->
  (S (loop_measure words (body word st)) <= loop_measure words st)%nat.
Proof.
  intros Hword. apply lookup_lt_Some in Hword.
  unfold loop_measure. body_cases st.
  - destruct (metrics word); simpl; lia.
  - lia.
  - destruct (_ ++ _); simpl; lia.
  - lia.
Qed.

(** The loop as a Hoare rule: an invariant of the body holds when the loop
    ends, and the loop does end within the fuel of [loop_measure]. *)
Lemma while_words_rule (P : Loop -> Prop) (words : list text) :
  (forall st word, words !! word_index st = Some word -> P st -> P (body word st)) ->
  forall fuel st,
    (loop_measure words st <= fuel)%nat -> P st ->
    exists st', while fuel words st = Some st' /\ P st' /\ words !! word_index st' = None.
Proof.
  intros Hstep. induction fuel as [| fuel IH]; intros st Hfuel HP.
  - destruct (words !! word_index st) as [word |] eqn:Hword.
    + pose proof (loop_body_measure words st word Hword). lia.
    + exists st. simpl. rewrite Hword. auto.
  - destruct (words !! word_index st) as [word |] eqn:Hword.
    + pose proof (loop_body_measure words st word Hword).
      destruct (IH (body word st)) as [st' [Hrun Hst']]; [lia | eauto |].
      exists st'. simpl. rewrite Hword. auto.
    + exists st. simpl. rewrite Hword. auto.
Qed.

Lemma initial_measure (words : list text) :
  (loop_measure words (initial y_start) <= 2 * length words)%nat.
Proof. unfold loop_measure; simpl. lia. Qed.

(** *** Text of the runs *)

Lemma buffer_text_app (a b : list Item) : buffer_text (a ++ b) = buffer_text a ++ buffer_text b.
Proof. unfold buffer_text. now rewrite List.map_app, concat_app. Qed.

Lemma runs_text_app (a b : list Run) : runs_text (a ++ b) = runs_text a ++ runs_text b.
Proof. unfold runs_text. now rewrite List.map_app, concat_app. Qed.

Lemma buffer_text_metrics (word : text) : buffer_text (metrics word) = word.
Proof.
  unfold buffer_text, word_chars_metrics.
  induction word as [| c word IH]; simpl; [reflexivity |]. now f_equal.
Qed.

Lemma runs_text_flush (buffer : list Item) (cx cy : Q) :
  runs_text (flush_runs cx cy buffer) = buffer_text buffer.
Proof.
  revert cx. induction buffer as [| item buffer IH]; intros cx; [reflexivity |].
  unfold runs_text, buffer_text in *. simpl. now rewrite IH.
Qed.

Lemma runs_text_force (ms : list Item) (temp_x temp_h cy : Q) :
  runs_text (fst (fst (force ms temp_x temp_h cy))) = buffer_text ms.
Proof.
  revert temp_x temp_h cy.
  induction ms as [| m ms IH]; intros temp_x temp_h cy; [reflexivity |].
  simpl. destruct (force ms _ _ _) as [[rs y2] h2] eqn:Hrec.
  match type of Hrec with
  | force_break _ _ _ ?a ?b ?c = _ => specialize (IH a b c); rewrite Hrec in IH
  end.
  unfold runs_text, buffer_text in *. simpl in *. now rewrite IH.
Qed.

(** *** [split] and [join] *)

Lemma split_nonempty (sep : char) (s : text) : split sep s <> [].
Proof.
  destruct s as [| c s]; simpl; [discriminate |].
  destruct (c =? sep); [discriminate |]. destruct (split sep s); discriminate.
Qed.

Lemma join_split (sep : char) (s : text) : join sep (split sep s) = s.
Proof.
  induction s as [| c s IH]; [reflexivity |].
  simpl. destruct (c =? sep) eqn:Hc.
  - apply Z.eqb_eq in Hc. subst c.
    pose proof (split_nonempty sep s).
    destruct (split sep s) as [| w ws]; [congruence |].
    change (join sep ([] :: w :: ws)) with (sep :: join sep (w :: ws)). now rewrite IH.
  - pose proof (split_nonempty sep s).
    destruct (split sep s) as [| w ws]; [congruence |].
    destruct ws as [| w' ws]; simpl in *; now rewrite IH.
Qed.

Lemma join_snoc (sep : char) (ws : list text) (w : text) :
  ws <> [] -> join sep (ws ++ [w]) = join sep ws ++ sep :: w.
Proof.
  induction ws as [| v ws IH]; intros Hne; [congruence |].
  destruct ws as [| v' ws]; [reflexivity |].
  change (join sep ((v :: v' :: ws) ++ [w])) with (v ++ sep :: join sep ((v' :: ws) ++ [w])).
  rewrite IH by discriminate.
  change (join sep (v :: v' :: ws)) with (v ++ sep :: join sep (v' :: ws)).
  now rewrite <- app_assoc.
Qed.

Lemma join_take_S (words : list text) (i : nat) (word : text) :
  words !! i = Some word ->
  join SPACE (take (S i) words)
  = match i with
    | O => word
    | S _ => join SPACE (take i words) ++ SPACE :: word
    end.
Proof.
  intros Hword. rewrite (take_S_r _ _ _ Hword).
  destruct i as [| i]; [now rewrite take_0 |].
  apply join_snoc. destruct words; [discriminate | discriminate].
Qed.

Lemma without_spaces_app (a b : text) :
  without_spaces (a ++ b) = without_spaces a ++ without_spaces b.
Proof. apply filter_app. Qed.

Lemma without_spaces_space (a : text) : without_spaces (SPACE :: a) = without_spaces a.
Proof. unfold without_spaces. rewrite filter_cons_False; [reflexivity | tauto]. Qed.

(** *** The content invariant *)

Lemma text_invariant_initial (words : list text) : text_invariant words (initial y_start).
Proof.
  unfold text_invariant, pending_text; simpl. repeat split; try lia; try constructor.
  congruence.
Qed.

Lemma text_invariant_step (words : list text) (st : Loop) (word : text) :
  words !! word_index st = Some word ->
  text_invariant words st -> text_invariant words (body word st).
Proof.
  intros Hword (Hidx & Hfilter & Hsub & Hpos).
  pose proof (lookup_lt_Some _ _ _ Hword) as Hlt.
  pose proof (join_take_S words _ _ Hword) as Hjoin.
  assert (Hplain :
    line_buffer st = [] ->
    without_spaces (pending_text st ++ word)
    = without_spaces (join SPACE (take (S (word_index st)) words))
    /\ sublist (pending_text st ++ word) (join SPACE (take (S (word_index st)) words))).
  { intros _. rewrite Hjoin. destruct (word_index st) as [| i] eqn:Hi.
    - rewrite take_0 in Hfilter, Hsub. simpl in Hsub.
      apply sublist_nil_r in Hsub. rewrite Hsub. split; reflexivity.
    - split.
      + rewrite !without_spaces_app, without_spaces_space. now f_equal.
      + apply sublist_app; [assumption |]. now apply sublist_cons. }
  unfold text_invariant, pending_text in *. body_cases st.
  - (* first word of a line, fits *)
    change (buffer_text []) with (@nil Z) in *. rewrite app_nil_r in Hplain.
    simpl. rewrite buffer_text_metrics.
    destruct (Hplain eq_refl) as [H1 H2].
    repeat split; [lia | exact H1 | exact H2 | lia].
  - (* first word of a line, forced break *)
    change (buffer_text []) with (@nil Z) in *. rewrite app_nil_r in Hplain.
    rewrite runs_text_app.
    pose proof (runs_text_force (metrics word) x_start 0 (y st)) as Hrs.
    rewrite Hforce in Hrs. simpl in Hrs. rewrite Hrs, buffer_text_metrics.
    rewrite app_nil_r.
    destruct (Hplain eq_refl) as [H1 H2].
    repeat split; [lia | exact H1 | exact H2 | congruence].
  - (* later word, fits: a space run, then the word *)
    specialize (Hpos ltac:(discriminate)).
    destruct (word_index st) as [| i] eqn:Hi; [lia |].
    rewrite Hjoin.
    rewrite !buffer_text_app, buffer_text_metrics.
    change (buffer_text [spc]) with [SPACE].
    rewrite (app_assoc (runs_text (drawn st))).
    change ([SPACE] ++ word) with (SPACE :: word).
    repeat split; [lia | | | lia].
    + rewrite (without_spaces_app _ (SPACE :: word)), Hfilter.
      now rewrite without_spaces_app.
    + now apply sublist_app.
  - (* later word, does not fit: the line is flushed *)
    rewrite runs_text_app, runs_text_flush. simpl. rewrite app_nil_r.
    repeat split; [lia | exact Hfilter | exact Hsub | congruence].
Qed.

(** *** Widths *)

Lemma fold_width_sum (ms : list Item) (a : Q) :
  (fold_left (fun acc m => acc + item_width m) ms a == a + buffer_width ms)%Q.
Proof.
  revert a. induction ms as [| m ms IH]; intros a; simpl.
  - lra.
  - rewrite IH. fold (buffer_width ms). lra.
Qed.

Lemma word_width_sum (ms : list Item) : (word_width ms == buffer_width ms)%Q.
Proof. unfold word_width. rewrite fold_width_sum. lra. Qed.

Lemma buffer_width_app (a b : list Item) :
  (buffer_width (a ++ b) == buffer_width a + buffer_width b)%Q.
Proof.
  induction a as [| m a IH]; simpl.
  - lra.
  - fold (buffer_width (a ++ b)) (buffer_width a). rewrite IH. lra.
Qed.

Lemma buffer_width_nonneg (buffer : list Item) :
  Forall sound_item buffer -> (0 <= buffer_width buffer)%Q.
Proof.
  induction 1 as [| m buffer [Hm _] _ IH]; simpl; [lra |].
  fold (buffer_width buffer). lra.
Qed.

Lemma flush_runs_within (buffer : list Item) (cx cy : Q) :
  Forall sound_item buffer ->
  (x_start <= cx)%Q ->
  (cx + buffer_width buffer <= x_start + max_width)%Q ->
  Forall (within x_start max_width) (flush_runs cx cy buffer).
Proof.
  intros Hpos. revert cx.
  induction Hpos as [| m buffer [Hm Hlen] Hrest IH]; intros cx Hcx Hend; simpl; constructor.
  - pose proof (buffer_width_nonneg buffer Hrest).
    simpl in Hend. fold (buffer_width buffer) in Hend.
    split; [exact Hlen |]. split; simpl; [assumption | left; lra].
  - simpl in Hend. fold (buffer_width buffer) in Hend. apply IH; lra.
Qed.

Lemma force_break_within (ms : list Item) (temp_x temp_h cy : Q) :
  Forall sound_item ms ->
  (x_start <= temp_x)%Q ->
  Forall (within x_start max_width) (fst (fst (force ms temp_x temp_h cy))).
Proof.
  intros Hpos. revert temp_x temp_h cy.
  induction Hpos as [| m ms [Hm Hlen] Hrest IH]; intros temp_x temp_h cy Hx; simpl;
    [constructor |].
  destruct (force ms _ _ _) as [[rs y2] h2] eqn:Hrec. simpl.
  match type of Hrec with
  | force_break _ _ _ ?a ?b ?c = _ =>
      assert (Htail : Forall (within x_start max_width) rs);
      [ specialize (IH a b c); rewrite Hrec in IH; apply IH | ]
  end.
  { destruct (_ && _); lra. }
  constructor; [| exact Htail].
  unfold within; simpl. split; [exact Hlen |].
  destruct (Qlt_bool x_start temp_x) eqn:Hlt; simpl.
  - destruct (Qlt_bool (x_start + max_width) (temp_x + item_width m)) eqn:Hover.
    + split; [lra |].
      destruct (Qlt_le_dec max_width (item_width m)) as [Hwide | Hfits].
      * right. split; [reflexivity | split; [lra | assumption]].
      * left. lra.
    + apply Qlt_bool_false_iff in Hover. split; [assumption | left; assumption].
  - apply Qlt_bool_false_iff in Hlt. split; [assumption |].
    destruct (Qlt_le_dec max_width (item_width m)) as [Hwide | Hfits].
    + right. split; [reflexivity | split; [lra | assumption]].
    + left. lra.
Qed.

Section nonnegative_widths.
Hypothesis glyph_nonneg :
  forall c, (0 <= item_width (char_item use_bbox font_chinese font_english c))%Q.
Hypothesis space_nonneg : (0 <= space_width font_english)%Q.

Lemma metrics_nonneg (word : text) :
  Forall sound_item (metrics word).
Proof.
  unfold word_chars_metrics.
  induction word as [| c word IH]; simpl; constructor; [split; auto | assumption].
Qed.

Lemma width_invariant_initial : width_invariant x_start max_width (initial y_start).
Proof.
  unfold width_invariant; simpl.
  split; [constructor | split; [lra | split; [congruence | constructor]]].
Qed.

Lemma width_invariant_step (st : Loop) (word : text) :
  width_invariant x_start max_width st ->
  width_invariant x_start max_width (body word st).
Proof.
  intros (Hdrawn & Hsum & Hroom & Hpos).
  pose proof (metrics_nonneg word) as Hms.
  pose proof (word_width_sum (metrics word)) as Hww.
  unfold width_invariant. body_cases st.
  - (* first word of a line, fits *)
    apply Qle_bool_iff in Hfit. simpl in Hsum. simpl.
    split4; [assumption | lra | intros _; lra | assumption].
  - (* first word of a line, forced break *)
    split4; [| simpl; lra | congruence | constructor].
    apply Forall_app. split; [assumption |].
    pose proof (force_break_within (metrics word) x_start 0 (y st) Hms ltac:(lra)) as H.
    now rewrite Hforce in H.
  - (* later word, fits *)
    apply Qle_bool_iff in Hfit.
    assert (Hbw : (buffer_width ((item :: buffer) ++ [spc] ++ metrics word)
                   == buffer_width (item :: buffer) + space_width font_english
                      + buffer_width (metrics word))%Q).
    { rewrite !buffer_width_app. simpl. lra. }
    split4; [assumption | rewrite Hbw; lra | intros _; rewrite Hbw; lra |].
    apply Forall_app. split; [assumption |].
    apply Forall_app. split; [| assumption].
    constructor; [split; [exact space_nonneg | reflexivity] | constructor].
  - (* later word, does not fit: flush *)
    split4; [| simpl; lra | congruence | constructor].
    apply Forall_app. split; [assumption |].
    apply flush_runs_within; [assumption | lra |].
    specialize (Hroom ltac:(discriminate)). lra.
Qed.

End nonnegative_widths.

(** *** A text that fits one line *)

Lemma split_no_sep (sep : char) (s : text) :
  Forall (fun w => ~ In sep w) (split sep s).
Proof.
  induction s as [| c s IH]; simpl.
  - constructor; [intros [] | constructor].
  - destruct (c =? sep) eqn:Hc.
    + constructor; [intros [] | assumption].
    + apply Z.eqb_neq in Hc.
      destruct (split sep s) as [| w ws]; [repeat constructor; intros [H | []]; congruence |].
      inversion IH as [| ? ? Hw Hws]; subst.
      constructor; [| assumption]. intros [H | H]; [congruence | contradiction].
Qed.

Lemma split_first_nonempty (sep c : char) (s : text) :
  c <> sep -> exists w ws, split sep (c :: s) = (c :: w) :: ws.
Proof.
  intros Hc. apply Z.eqb_neq in Hc. simpl. rewrite Hc.
  destruct (split sep s) as [| w ws]; eauto.
Qed.

Lemma join_take_prefix (sep : char) (ws : list text) (k : nat) :
  exists rest, join sep ws = join sep (take k ws) ++ rest.
Proof.
  revert k. induction ws as [| w ws IH]; intros k.
  - exists []. now rewrite take_nil.
  - destruct k as [| k]; [exists (join sep (w :: ws)); reflexivity |].
    destruct (IH k) as [rest Hrest]. simpl take.
    destruct ws as [| v ws].
    + exists []. rewrite take_nil. simpl. now rewrite app_nil_r.
    + destruct k as [| k].
      * exists (sep :: join sep (v :: ws)). reflexivity.
      * change (join sep (w :: v :: ws)) with (w ++ sep :: join sep (v :: ws)).
        simpl take in *.
        change (join sep (w :: v :: take k ws)) with (w ++ sep :: join sep (v :: take k ws)).
        exists rest. rewrite Hrest. now rewrite <- app_assoc.
Qed.

Section single_line.
Hypothesis glyph_width_nonneg :
  forall c, (0 <= glyph_width use_bbox font_chinese font_english c)%Q.

Local Abbreviation lw := (line_width use_bbox font_chinese font_english).

Lemma line_width_app (a b : text) : (lw (a ++ b) == lw a + lw b)%Q.
Proof.
  induction a as [| c a IH]; simpl.
  - lra.
  - fold (lw (a ++ b)) (lw a). rewrite IH. lra.
Qed.

Lemma line_width_nonneg (a : text) : (0 <= lw a)%Q.
Proof.
  induction a as [| c a IH]; simpl; [lra |].
  fold (lw a). pose proof (glyph_width_nonneg c). lra.
Qed.

Lemma metrics_line_width (word : text) :
  ~ In SPACE word -> (buffer_width (metrics word) == lw word)%Q.
Proof.
  induction word as [| c word IH]; intros Hno; simpl; [lra |].
  fold (buffer_width (metrics word)) (lw word).
  rewrite IH by (intros H; apply Hno; now right).
  unfold glyph_width, char_item; simpl.
  destruct (c =? SPACE) eqn:Hc; [| lra].
  apply Z.eqb_eq in Hc. exfalso. apply Hno. now left.
Qed.

Lemma single_line_initial (words : list text) :
  single_line_invariant use_bbox font_chinese font_english words (initial y_start).
Proof.
  unfold single_line_invariant; simpl.
  split; [reflexivity |]. split; [lia |]. split; [reflexivity |].
  split; [lra |]. split; auto.
Qed.

Lemma single_line_step (words : list text) (st : Loop) (word : text) :
  Forall (fun w => ~ In SPACE w) words ->
  (forall w, words !! 0%nat = Some w -> w <> []) ->
  (lw (join SPACE words) <= max_width)%Q ->
  words !! word_index st = Some word ->
  single_line_invariant use_bbox font_chinese font_english words st ->
  single_line_invariant use_bbox font_chinese font_english words (body word st).
Proof.
  intros Hnosp Hfirst Hroom Hword (Hdrawn & Hidx & Htext & Hsum & Hbuffer).
  pose proof (lookup_lt_Some _ _ _ Hword) as Hlt.
  pose proof (join_take_S words _ _ Hword) as Hjoin.
  assert (Hw : (word_width (metrics word) == lw word)%Q).
  { rewrite word_width_sum. apply metrics_line_width.
    rewrite Forall_forall in Hnosp. apply Hnosp.
    eapply list_elem_of_lookup_2; eassumption. }
  assert (Hprefix : (lw (join SPACE (take (S (word_index st)) words)) <= max_width)%Q).
  { destruct (join_take_prefix SPACE words (S (word_index st))) as [rest Hrest].
    rewrite Hrest, line_width_app in Hroom.
    pose proof (line_width_nonneg rest). lra. }
  assert (Hsp : (lw (SPACE :: word) == space_width font_english + lw word)%Q).
  { simpl. fold (lw word). unfold glyph_width. simpl. lra. }
  unfold single_line_invariant.
  destruct (word_index st) as [| i] eqn:Hi.
  - (* the first word starts the line *)
    rewrite take_0 in Htext, Hsum. simpl in Htext, Hsum.
    rewrite Hjoin in Hprefix.
    assert (Hne : word <> []) by (apply Hfirst; assumption).
    body_cases st; rewrite ?Hi, ?Hjoin.
    + split; [assumption |]. split; [lia |].
      split; [simpl; apply buffer_text_metrics |].
      split; [lra |].
      split; [| lia]. simpl. destruct word; [congruence | discriminate].
    + apply Qle_bool_false_iff in Hfit. lra.
    + destruct Hbuffer as [_ H]. discriminate (H eq_refl).
    + destruct Hbuffer as [_ H]. discriminate (H eq_refl).
  - (* a later word follows a space on the same line *)
    rewrite Hjoin in Hprefix. rewrite line_width_app, Hsp in Hprefix.
    body_cases st; rewrite ?Hi, ?Hjoin.
    + destruct Hbuffer as [H _]. discriminate (H eq_refl).
    + destruct Hbuffer as [H _]. discriminate (H eq_refl).
    + split; [assumption |]. split; [lia |].
      split; [rewrite !buffer_text_app, buffer_text_metrics, Htext; reflexivity |].
      split; [rewrite line_width_app, Hsp; lra |].
      split; [discriminate | lia].
    + apply Qle_bool_false_iff in Hfit. lra.
Qed.

End single_line.

(** *** The whole routine *)

(** [draw_watermark] on a non-empty text returns: it ends in a state
    where every word is placed and every invariant of the loop body holds,
    and draws what that state has drawn, then the last buffered line. *)
Lemma draw_watermark_rule (P : Loop -> Prop) (t : text) :
  t <> [] ->
  P (initial y_start) ->
  (forall st word,
      split SPACE t !! word_index st = Some word -> P st -> P (body word st)) ->
  exists st,
    draw_watermark use_bbox font_chinese font_english x_start y_start max_width t
    = Some (drawn st ++ flush_runs x_start (y st) (line_buffer st))
    /\ P st /\ split SPACE t !! word_index st = None.
Proof.
  intros Ht Hinit Hstep.
  destruct (while_words_rule P (split SPACE t) Hstep
              (2 * length (split SPACE t)) (initial y_start)
              (initial_measure _) Hinit) as (st & Hrun & HP & Hend).
  exists st. split; [| auto].
  unfold draw_watermark. destruct t as [| c t']; [congruence |].
  rewrite Hrun. destruct (line_buffer st); simpl; [now rewrite app_nil_r | reflexivity].
Qed.

End layout.

Lemma py_int_below (q : Q) : (0 <= q)%Q -> (inject_Z (py_int q) <= q)%Q.
Proof.
  destruct q as [n d]. unfold Qle, py_int; simpl. intros Hn.
  rewrite Z.mul_1_r in *. rewrite Z.quot_div_nonneg by lia.
  rewrite Z.mul_comm. apply Z.mul_div_le. lia.
Qed.

(** C1, as stated, fails: the space between two words is not drawn when
    the second word starts a new line. ["a b"] on a line two glyphs wide is
    drawn as ["a"], ["b"]. *)
Lemma draw_watermark_drops_space_at_line_break :
  ~ (forall (use_bbox : bool) (font_chinese font_english : Font)
            (x_start y_start max_width : Q) (t : text) (rs : list WatermarkApp.Run),
       WatermarkApp.draw_watermark use_bbox font_chinese font_english
         x_start y_start max_width t = Some rs ->
       WatermarkApp.runs_text rs = t).
Proof.
  intros H.
  specialize (H true (fixed_font 1 1) (fixed_font 1 1) 0%Q 0%Q 2%Q (str "a b")
                _ eq_refl).
  vm_compute in H. discriminate.
Qed.

(** C2: with non-negative glyph and space widths, [draw_watermark] always
    returns, and each of its runs is one character that ends at or before
    [x_start + max_width], unless it is a forced character, alone at the
    line start, whose own width exceeds [max_width]. For an origin that is
    not negative this also bounds the pixel column given to Pillow, which is
    the cursor truncated. *)
Theorem draw_watermark_runs_within_width
    (use_bbox : bool) (font_chinese font_english : Font)
    (x_start y_start max_width : Q) (t : text) :
  (forall c, (0 <= WatermarkApp.item_width
                     (WatermarkApp.char_item use_bbox font_chinese font_english c))%Q) ->
  (0 <= WatermarkApp.space_width font_english)%Q ->
  exists rs,
    WatermarkApp.draw_watermark use_bbox font_chinese font_english
      x_start y_start max_width t = Some rs
    /\ forall r, In r rs ->
         length (WatermarkApp.run_text r) = 1%nat
         /\ ((WatermarkApp.run_x r + WatermarkApp.run_width r <= x_start + max_width)%Q
             \/ (WatermarkApp.run_forced r = true
                 /\ (WatermarkApp.run_x r == x_start)%Q
                 /\ (max_width < WatermarkApp.run_width r)%Q))
         /\ ((0 <= x_start)%Q ->
             (inject_Z (fst (WatermarkApp.run_pixel r)) <= WatermarkApp.run_x r)%Q).
Proof.
  intros Hglyph Hspace.
  destruct t as [| c0 t0] eqn:Et.
  { exists []. split; [reflexivity | intros r []]. }
  rewrite <- Et. assert (Ht : t <> []) by (subst t; discriminate).
  destruct (draw_watermark_rule use_bbox font_chinese font_english x_start y_start max_width
              (width_invariant x_start max_width) t Ht)
    as (st & Hdraw & (Hdrawn & Hsum & Hroom & Hitems) & _).
  - apply width_invariant_initial.
  - intros st word _. now apply width_invariant_step.
  - eexists. split; [exact Hdraw |].
    assert (Hall : Forall (within x_start max_width)
                     (WatermarkApp.drawn st
                      ++ WatermarkApp.flush_runs x_start (WatermarkApp.y st)
                           (WatermarkApp.line_buffer st))).
    { apply Forall_app. split; [assumption |].
      destruct (WatermarkApp.line_buffer st) as [| m buffer] eqn:Hbuf; [constructor |].
      apply flush_runs_within; [assumption | lra |].
      specialize (Hroom ltac:(discriminate)). lra. }
    intros r Hr. rewrite Forall_forall in Hall.
    destruct (Hall r) as (Hlen & Hx & Hend); [now apply list_elem_of_In |].
    split; [exact Hlen |]. split; [exact Hend |].
    intros Hx0. apply py_int_below. lra.
Qed.

Lemma draw_watermark_runs_within_width_wrapped :
  exists rs,
    WatermarkApp.draw_watermark true (fixed_font 1 1) (fixed_font 1 1) 0 0 3
      (str "abcdefgh ij") = Some rs
    /\ forall r, In r rs ->
         (WatermarkApp.run_x r + WatermarkApp.run_width r <= 0 + 3)%Q
         \/ (WatermarkApp.run_forced r = true
             /\ (WatermarkApp.run_x r == 0)%Q
             /\ (3 < WatermarkApp.run_width r)%Q).
Proof.
  destruct (draw_watermark_runs_within_width true (fixed_font 1 1) (fixed_font 1 1)
              0%Q 0%Q 3%Q (str "abcdefgh ij")) as (rs & Hrs & Hall).
  - intros c. unfold WatermarkApp.char_item.
    destruct (WatermarkApp.is_chinese c); vm_compute; discriminate.
  - vm_compute. discriminate.
  - exists rs. split; [exact Hrs |]. intros r Hr. apply (Hall r Hr).
Defined.

(** ** Dynamic text *)

Section replace.
Variables old new : text.

Lemma strip_prefix_length (s rest : text) :
  strip_prefix old s = Some rest -> (length rest + length old = length s)%nat.
Proof.
  revert s. induction old as [| p prefix IH]; intros s H; simpl in *.
  - injection H as <-. lia.
  - destruct s as [| c s]; [discriminate |].
    destruct (p =? c); [| discriminate]. apply IH in H. simpl. lia.
Qed.

Lemma strip_prefix_app (rest : text) : strip_prefix old (old ++ rest) = Some rest.
Proof.
  induction old as [| p prefix IH]; simpl; [reflexivity |].
  now rewrite Z.eqb_refl.
Qed.

Lemma replace_fuel_enough (fuel : nat) (s : text) :
  old <> [] -> (length s <= fuel)%nat ->
  replace_fuel fuel old new s = replace old new s.
Proof.
  intros Hold. unfold replace.
  remember (length s) as n eqn:Hn.
  revert s Hn fuel. induction n as [n IH] using lt_wf_ind. intros s Hn fuel Hfuel.
  destruct s as [| c s]; [subst n; destruct fuel; reflexivity |].
  simpl in Hn. subst n. destruct fuel as [| fuel]; [simpl in Hfuel; lia |].
  simpl in Hfuel. cbn [replace_fuel].
  destruct (strip_prefix old (c :: s)) as [rest |] eqn:Hp.
  - pose proof (strip_prefix_length _ _ Hp) as Hlen. simpl in Hlen.
    assert (0 < length old)%nat by (destruct old; [congruence | simpl; lia]).
    f_equal.
    rewrite (IH (length rest) ltac:(lia) rest eq_refl fuel ltac:(lia)).
    now rewrite (IH (length rest) ltac:(lia) rest eq_refl (length s) ltac:(lia)).
  - f_equal. apply (IH (length s) ltac:(lia) s eq_refl fuel). lia.
Qed.

(** The three equations of a left-to-right scan. *)
Lemma replace_nil : replace old new [] = [].
Proof. reflexivity. Qed.

Lemma replace_match (c : char) (s rest : text) :
  old <> [] -> strip_prefix old (c :: s) = Some rest ->
  replace old new (c :: s) = new ++ replace old new rest.
Proof.
  intros Hold Hp. unfold replace at 1. cbn [length replace_fuel]. rewrite Hp.
  f_equal. apply replace_fuel_enough; [assumption |].
  pose proof (strip_prefix_length _ _ Hp) as Hlen. simpl in Hlen.
  assert (0 < length old)%nat by (destruct old; [congruence | simpl; lia]). lia.
Qed.

Lemma replace_skip (c : char) (s : text) :
  strip_prefix old (c :: s) = None ->
  replace old new (c :: s) = c :: replace old new s.
Proof.
  intros Hp. unfold replace at 1. cbn [length replace_fuel]. now rewrite Hp.
Qed.

End replace.

Import Resolution.

Lemma exif_date_head : WatermarkApp.EXIF_DATE = 123 :: str "exif_date}".
Proof. reflexivity. Qed.

Lemma exif_date_no_match (c : char) (s : text) :
  c <> 123 -> strip_prefix WatermarkApp.EXIF_DATE (c :: s) = None.
Proof.
  intros Hc. rewrite exif_date_head. cbn [strip_prefix].
  destruct (Z.eqb_spec 123 c); [congruence | reflexivity].
Qed.

Lemma exif_date_skips (new : text) (c : char) (s : text) :
  c <> 123 ->
  replace WatermarkApp.EXIF_DATE new (c :: s) = c :: replace WatermarkApp.EXIF_DATE new s.
Proof. intros Hc. apply replace_skip. now apply exif_date_no_match. Qed.

Lemma contains_cons (old : text) (c : char) (s : text) :
  contains old (c :: s)
  = match strip_prefix old (c :: s) with
    | Some _ => true
    | None => contains old s
    end.
Proof. reflexivity. Qed.

Lemma exif_date_contains_skips (c : char) (s : text) :
  c <> 123 -> contains WatermarkApp.EXIF_DATE (c :: s) = contains WatermarkApp.EXIF_DATE s.
Proof. intros Hc. rewrite contains_cons. now rewrite exif_date_no_match. Qed.

Lemma replace_plain_piece (new p rest : text) :
  ~ In 123 p ->
  replace WatermarkApp.EXIF_DATE new (p ++ rest) = p ++ replace WatermarkApp.EXIF_DATE new rest.
Proof.
  induction p as [| c p IH]; intros Hp; [reflexivity |].
  simpl. rewrite exif_date_skips by (intros ->; apply Hp; now left).
  f_equal. apply IH. intros H. apply Hp. now right.
Qed.

(** Every occurrence is replaced: between pieces free of opening braces the
    token stands exactly at the joints. *)
Lemma replace_every_occurrence (new : text) (pieces : list text) :
  Forall (fun p => ~ In 123 p) pieces ->
  replace WatermarkApp.EXIF_DATE new (intercalate WatermarkApp.EXIF_DATE pieces)
  = intercalate new pieces.
Proof.
  induction 1 as [| p pieces Hp Hrest IH]; [reflexivity |].
  destruct pieces as [| q pieces].
  - simpl. rewrite <- (app_nil_r p) at 1. rewrite replace_plain_piece by assumption.
    now rewrite app_nil_r.
  - change (intercalate ?sep (p :: q :: pieces))
      with (p ++ sep ++ intercalate sep (q :: pieces)).
    rewrite replace_plain_piece by assumption. f_equal.
    change (WatermarkApp.EXIF_DATE ++ ?rest) with (123 :: (List.tl WatermarkApp.EXIF_DATE ++ rest)).
    rewrite (replace_match _ _ _ _ (intercalate WatermarkApp.EXIF_DATE (q :: pieces)));
      [now rewrite IH | discriminate |].
    apply (strip_prefix_app WatermarkApp.EXIF_DATE).
Qed.

Lemma contains_at_joint (pieces : list text) (p q : text) :
  ~ In 123 p ->
  contains WatermarkApp.EXIF_DATE (intercalate WatermarkApp.EXIF_DATE (p :: q :: pieces)) = true.
Proof.
  intros Hp.
  change (intercalate ?sep (p :: q :: pieces))
    with (p ++ sep ++ intercalate sep (q :: pieces)).
  induction p as [| c p IH].
  - rewrite app_nil_l.
    generalize (intercalate WatermarkApp.EXIF_DATE (q :: pieces)). intros rest.
    pose proof (strip_prefix_app WatermarkApp.EXIF_DATE rest) as H.
    rewrite exif_date_head in *.
    change ((123 :: ?a) ++ rest) with (123 :: (a ++ rest)) in *.
    rewrite contains_cons.
    match goal with
    | |- match ?x with Some _ => _ | None => _ end = _ =>
        assert (Hx : x = Some rest) by exact H; now rewrite Hx
    end.
  - change ((c :: p) ++ ?r) with (c :: (p ++ r)).
    rewrite exif_date_contains_skips by (intros ->; apply Hp; now left).
    apply IH. intros H. apply Hp. now right.
Qed.

Lemma contains_false_plain (p : text) :
  ~ In 123 p -> contains WatermarkApp.EXIF_DATE p = false.
Proof.
  induction p as [| c p IH]; intros Hp; [reflexivity |].
  rewrite exif_date_contains_skips by (intros ->; apply Hp; now left).
  apply IH. intros H. apply Hp. now right.
Qed.

Lemma strftime_length (dt : datetime) : length (strftime dt) = 19%nat.
Proof.
  assert (Hpad : forall n v, length (zero_padded n v) = n).
  { induction n as [| n IH]; intros v; simpl; [reflexivity |].
    rewrite length_app, IH. simpl. lia. }
  unfold strftime. rewrite !length_app, !Hpad. reflexivity.
Qed.

Lemma or_not_available_strftime (dt : datetime) :
  WatermarkApp.or_not_available (Some (strftime dt)) = strftime dt.
Proof.
  pose proof (strftime_length dt) as H. unfold WatermarkApp.or_not_available.
  destruct (strftime dt); [discriminate | reflexivity].
Qed.

(** The value [WatermarkApp] substitutes is [substitute] with its two formats. *)
Lemma app_substitute (image : Image) :
  WatermarkApp.or_not_available (WatermarkApp._get_exif_datetime image)
  = substitute (fun s => WatermarkApp.parse_first s [FMT_EXIF; FMT_ISO]) image.
Proof.
  unfold WatermarkApp._get_exif_datetime, substitute, first_date_tag.
  destruct (getexif image) as [exif_data |]; [| reflexivity].
  change WatermarkApp.nonempty_str with Utils.nonempty_str.
  change WatermarkApp.TAG_DATETIME_ORIGINAL with Utils.TAG_DATETIME_ORIGINAL.
  change WatermarkApp.TAG_DATETIME with Utils.TAG_DATETIME.
  case_bool_decide as Hempty.
  { subst exif_data. rewrite !lookup_empty. reflexivity. }
  fold (cleaned).
  destruct (Utils.nonempty_str (exif_data !! Utils.TAG_DATETIME_ORIGINAL)) as [s |].
  - fold (cleaned s).
    destruct (WatermarkApp.parse_first (cleaned s) _) as [dt |].
    + apply or_not_available_strftime.
    + simpl. destruct (cleaned s); reflexivity.
  - destruct (Utils.nonempty_str (exif_data !! Utils.TAG_DATETIME)) as [s |]; [| reflexivity].
    fold (cleaned s).
    destruct (WatermarkApp.parse_first (cleaned s) _) as [dt |].
    + apply or_not_available_strftime.
    + simpl. destruct (cleaned s); reflexivity.
Qed.

(** The value [WatermarkTool] substitutes is [substitute] with the EXIF format. *)
Lemma tool_substitute (image : Image) :
  WatermarkApp.or_not_available (Utils.get_exif_datetime image)
  = substitute (fun s => strptime s FMT_EXIF) image.
Proof.
  unfold Utils.get_exif_datetime, substitute, first_date_tag.
  destruct (getexif image) as [exif_data |]; [| reflexivity].
  case_bool_decide as Hempty.
  { subst exif_data. rewrite !lookup_empty. reflexivity. }
  destruct (Utils.nonempty_str (exif_data !! Utils.TAG_DATETIME_ORIGINAL)) as [s |].
  - fold (cleaned s).
    destruct (strptime (cleaned s) _) as [dt |].
    + apply or_not_available_strftime.
    + simpl. destruct (cleaned s); reflexivity.
  - destruct (Utils.nonempty_str (exif_data !! Utils.TAG_DATETIME)) as [s |]; [| reflexivity].
    fold (cleaned s).
    destruct (strptime (cleaned s) _) as [dt |].
    + apply or_not_available_strftime.
    + simpl. destruct (cleaned s); reflexivity.
Qed.

Lemma tool_process_dynamic_text_unfold (t : text) (image : Image) :
  WatermarkTool.process_dynamic_text t image
  = if contains WatermarkApp.EXIF_DATE t
    then replace WatermarkApp.EXIF_DATE
           (WatermarkApp.or_not_available (Utils.get_exif_datetime image)) t
    else t.
Proof. reflexivity. Qed.

Lemma replace_token (new : text) :
  replace WatermarkApp.EXIF_DATE new WatermarkApp.EXIF_DATE = new.
Proof.
  change (replace WatermarkApp.EXIF_DATE new WatermarkApp.EXIF_DATE)
    with (replace WatermarkApp.EXIF_DATE new (123 :: str "exif_date}")).
  rewrite (replace_match _ _ _ _ []); [apply app_nil_r | discriminate | reflexivity].
Qed.

(** C7, as stated, fails: a DateTimeOriginal of ["0000:00:00 00:00:00"]
    (a camera clock never set) parses under neither format, and the text
    shows that string, not [N/A]. *)
Lemma unparsed_exif_date_is_not_replaced_by_NA :
  ~ (forall (t : text) (image : Image),
       WatermarkApp._process_dynamic_text t image
       = if contains WatermarkApp.EXIF_DATE t
         then replace WatermarkApp.EXIF_DATE
                (substitute_as_specified
                   (fun s => WatermarkApp.parse_first s [FMT_EXIF; FMT_ISO]) image) t
         else t).
Proof.
  intros H.
  specialize (H (str "{exif_date}")
                (with_exif (uniform_image 1 1 (0, 0, 0))
                   {[ 36867 := ExifStr (str "0000:00:00 00:00:00") ]})).
  vm_compute in H. discriminate.
Qed.

(** C7 (amended): a text without the token [{exif_date}] is returned
    unchanged; in a text with it every occurrence is replaced by one value:
    the timestamp of the first date tag (DateTimeOriginal, else DateTime) cut
    at its first NUL and stripped, reformatted as [YYYY-MM-DD HH:MM:SS] when
    it parses ([WatermarkApp] also accepts dashes in the date) and shown as
    it is when it does not; [N/A] stands in only when there is no EXIF data,
    no such tag, or nothing left of the tag value. *)
Theorem dynamic_text_substitution (image : Image) :
  let app_value :=
    substitute (fun s => WatermarkApp.parse_first s [FMT_EXIF; FMT_ISO]) image in
  let tool_value := substitute (fun s => strptime s FMT_EXIF) image in
  (forall t,
      WatermarkApp._process_dynamic_text t image
      = (if contains WatermarkApp.EXIF_DATE t
         then replace WatermarkApp.EXIF_DATE app_value t else t)
      /\ WatermarkTool.process_dynamic_text t image
         = (if contains WatermarkApp.EXIF_DATE t
            then replace WatermarkApp.EXIF_DATE tool_value t else t))
  /\ (forall t, contains WatermarkApp.EXIF_DATE t = false ->
        WatermarkApp._process_dynamic_text t image = t
        /\ WatermarkTool.process_dynamic_text t image = t)
  /\ (forall pieces, Forall (fun p => ~ In 123 p) pieces ->
        WatermarkApp._process_dynamic_text (intercalate WatermarkApp.EXIF_DATE pieces) image
        = intercalate app_value pieces
        /\ WatermarkTool.process_dynamic_text (intercalate WatermarkApp.EXIF_DATE pieces) image
           = intercalate tool_value pieces).
Proof.
  intros app_value tool_value.
  assert (Hgen : forall t,
      WatermarkApp._process_dynamic_text t image
      = (if contains WatermarkApp.EXIF_DATE t
         then replace WatermarkApp.EXIF_DATE app_value t else t)
      /\ WatermarkTool.process_dynamic_text t image
         = (if contains WatermarkApp.EXIF_DATE t
            then replace WatermarkApp.EXIF_DATE tool_value t else t)).
  { intros t. split.
    - unfold WatermarkApp._process_dynamic_text. now rewrite app_substitute.
    - rewrite tool_process_dynamic_text_unfold. now rewrite tool_substitute. }
  split; [exact Hgen |]. split.
  - intros t Ht. destruct (Hgen t) as [Ha Hb]. rewrite Ht in Ha, Hb. auto.
  - intros pieces Hpieces. destruct (Hgen (intercalate WatermarkApp.EXIF_DATE pieces)) as [Ha Hb].
    rewrite Ha, Hb.
    destruct pieces as [| p [| q pieces]].
    + split; reflexivity.
    + inversion Hpieces; subst. simpl. rewrite contains_false_plain by assumption.
      split; reflexivity.
    + inversion Hpieces; subst. rewrite contains_at_joint by assumption.
      now rewrite !replace_every_occurrence.
Qed.

Lemma dynamic_text_substitution_twice :
  let image :=
    with_exif (uniform_image 1 1 (0, 0, 0))
      {[ 36867 := ExifStr (str "2023:05:01 12:34:56") ]} in
  Forall (fun p => ~ In 123 p) [str "shot "; str " / "; str ""]
  /\ WatermarkApp._process_dynamic_text (str "shot {exif_date} / {exif_date}") image
     = str "shot 2023-05-01 12:34:56 / 2023-05-01 12:34:56".
Proof.
  cbv zeta.
  assert (Hpieces : Forall (fun p => ~ In 123 p) [str "shot "; str " / "; str ""]).
  { repeat constructor; vm_compute; intuition discriminate. }
  split; [exact Hpieces |].
  exact (proj1 (proj2 (proj2 (dynamic_text_substitution _)) _ Hpieces)).
Defined.

(** ** The DateTime fallback *)

Lemma cleaned_nil_unparsed :
  strptime (cleaned []) FMT_EXIF = None
  /\ WatermarkApp.parse_first (cleaned []) [FMT_EXIF; FMT_ISO] = None.
Proof. split; reflexivity. Qed.

(** C10: when tag 36867 is absent and tag 306 holds a string that parses
    (cut at its first NUL and stripped), both lookups return that timestamp
    as [YYYY-MM-DD HH:MM:SS] (19 characters for a four-digit year), and
    [{exif_date}] is replaced by it, not by [N/A]. *)
Theorem exif_date_falls_back_to_modification_time
    (image : Image) (exif_data : gmap Z exif_value) (s : text) (dt : datetime) :
  getexif image = Some exif_data ->
  exif_data !! 36867 = None ->
  exif_data !! 306 = Some (ExifStr s) ->
  (strptime (cleaned s) FMT_EXIF = Some dt ->
     Utils.get_exif_datetime image = Some (strftime dt)
     /\ WatermarkTool.process_dynamic_text WatermarkApp.EXIF_DATE image = strftime dt)
  /\ (WatermarkApp.parse_first (cleaned s) [FMT_EXIF; FMT_ISO] = Some dt ->
      WatermarkApp._get_exif_datetime image = Some (strftime dt)
      /\ WatermarkApp._process_dynamic_text WatermarkApp.EXIF_DATE image = strftime dt)
  /\ (1000 <= year dt -> length (strftime dt) = 19%nat)
  /\ strftime dt <> str "N/A".
Proof.
  intros Hexif Horiginal Hmodified.
  assert (Hne : exif_data <> ∅).
  { intros ->. rewrite lookup_empty in Hmodified. discriminate. }
  assert (Hcontains : contains WatermarkApp.EXIF_DATE WatermarkApp.EXIF_DATE = true)
    by reflexivity.
  split; [| split; [| split]].
  - intros Hparse.
    assert (Hget : Utils.get_exif_datetime image = Some (strftime dt)).
    { unfold Utils.get_exif_datetime. rewrite Hexif.
      rewrite bool_decide_eq_false_2 by assumption.
      unfold Utils.TAG_DATETIME_ORIGINAL, Utils.TAG_DATETIME.
      rewrite Horiginal, Hmodified. simpl Utils.nonempty_str.
      destruct s as [| c s'];
        [destruct cleaned_nil_unparsed as [E _]; rewrite E in Hparse; discriminate |].
      cbn [Utils.nonempty_str]. fold (cleaned (c :: s')). now rewrite Hparse. }
    split; [exact Hget |].
    rewrite tool_process_dynamic_text_unfold, Hcontains, Hget.
    rewrite or_not_available_strftime. apply replace_token.
  - intros Hparse.
    assert (Hget : WatermarkApp._get_exif_datetime image = Some (strftime dt)).
    { unfold WatermarkApp._get_exif_datetime. rewrite Hexif.
      rewrite bool_decide_eq_false_2 by assumption.
      unfold WatermarkApp.TAG_DATETIME_ORIGINAL, WatermarkApp.TAG_DATETIME.
      rewrite Horiginal, Hmodified. simpl WatermarkApp.nonempty_str.
      destruct s as [| c s'];
        [destruct cleaned_nil_unparsed as [_ E]; rewrite E in Hparse; discriminate |].
      cbn [WatermarkApp.nonempty_str]. fold (cleaned (c :: s')). now rewrite Hparse. }
    split; [exact Hget |].
    unfold WatermarkApp._process_dynamic_text. rewrite Hcontains, Hget.
    rewrite or_not_available_strftime. apply replace_token.
  - intros _. apply strftime_length.
  - intros H. pose proof (strftime_length dt) as Hlen. rewrite H in Hlen. discriminate.
Qed.

Lemma exif_date_falls_back_to_modification_time_example :
  let exif_data : gmap Z exif_value := {[ 306 := ExifStr (str "2021:12:31 23:59:58") ]} in
  let image := with_exif (uniform_image 1 1 (0, 0, 0)) exif_data in
  getexif image = Some exif_data
  /\ exif_data !! 36867 = None
  /\ exif_data !! 306 = Some (ExifStr (str "2021:12:31 23:59:58"))
  /\ Utils.get_exif_datetime image = Some (str "2021-12-31 23:59:58")
  /\ WatermarkApp._process_dynamic_text WatermarkApp.EXIF_DATE image
     = str "2021-12-31 23:59:58".
Proof.
  cbv zeta.
  pose proof (exif_date_falls_back_to_modification_time
                (with_exif (uniform_image 1 1 (0, 0, 0))
                   {[ 306 := ExifStr (str "2021:12:31 23:59:58") ]})
                {[ 306 := ExifStr (str "2021:12:31 23:59:58") ]}
                (str "2021:12:31 23:59:58")
                {| year := 2021; month := 12; day := 31;
                   hour := 23; minute := 59; second := 58 |}
                eq_refl eq_refl eq_refl) as (Hutils & Happ & _).
  split; [reflexivity |]. split; [reflexivity |]. split; [reflexivity |].
  split; [apply Hutils; reflexivity | apply Happ; reflexivity].
Defined.

(** ** Batch runs *)

Import Batch.

Section app_batch.
Variable process_single_image : text -> option text.
Variable stop_requested : nat -> bool.
Variable total_images : nat.

Local Abbreviation loop :=
  (WatermarkApp.process_loop process_single_image stop_requested total_images).

Lemma outcome_cons_ok (f : text) (files : list text) :
  process_single_image f = None ->
  succeeded process_single_image (f :: files) = f :: succeeded process_single_image files
  /\ failed process_single_image (f :: files) = failed process_single_image files.
Proof.
  intros Hf. unfold succeeded, failed. rewrite !filter_cons.
  destruct (decide (process_single_image f = None)); [| contradiction].
  destruct (decide (process_single_image f <> None)); [contradiction | auto].
Qed.

Lemma outcome_cons_failed (f e : text) (files : list text) :
  process_single_image f = Some e ->
  succeeded process_single_image (f :: files) = succeeded process_single_image files
  /\ failed process_single_image (f :: files) = f :: failed process_single_image files.
Proof.
  intros Hf. unfold succeeded, failed. rewrite !filter_cons.
  destruct (decide (process_single_image f = None)); [congruence |].
  destruct (decide (process_single_image f <> None)) as [| Hnot]; [auto |].
  exfalso. apply Hnot. rewrite Hf. discriminate.
Qed.

(** The loop handles exactly the first [k] files when the flag is down at
    the first [k] checks and up at the next one (if there is a next one). *)
Lemma app_process_loop_prefix (k : nat) :
  forall (files : list text) (i : nat) (w : WatermarkApp.Worker),
    (k <= length files)%nat ->
    (forall j, (j < k)%nat -> stop_requested (i + j)%nat = false) ->
    ((k < length files)%nat -> stop_requested (i + k)%nat = true) ->
    WatermarkApp.attempted (loop i files w) = WatermarkApp.attempted w ++ take k files
    /\ WatermarkApp.processed_count (loop i files w)
       = (WatermarkApp.processed_count w
          + length (succeeded process_single_image (take k files)))%nat
    /\ WatermarkApp.skipped_count (loop i files w)
       = (WatermarkApp.skipped_count w
          + length (failed process_single_image (take k files)))%nat
    /\ WatermarkApp.processing_queue (loop i files w)
       = WatermarkApp.processing_queue w
         ++ app_events process_single_image total_images i (take k files).
Proof.
  induction k as [| k IH]; intros files i w Hk Hdown Hup.
  - rewrite take_0. simpl. rewrite !app_nil_r, !Nat.add_0_r.
    destruct files as [| f files]; [auto |].
    simpl. rewrite Nat.add_0_r in Hup. rewrite Hup by (simpl; lia). auto.
  - destruct files as [| f files]; [simpl in Hk; lia |].
    simpl in Hk. cbn [WatermarkApp.process_loop take].
    pose proof (Hdown 0%nat ltac:(lia)) as H0. rewrite Nat.add_0_r in H0. rewrite H0.
    assert (Hdown' : forall j, (j < k)%nat -> stop_requested (S i + j)%nat = false).
    { intros j Hj. replace (S i + j)%nat with (i + S j)%nat by lia. apply Hdown. lia. }
    assert (Hup' : (k < length files)%nat -> stop_requested (S i + k)%nat = true).
    { intros Hlt. replace (S i + k)%nat with (i + S k)%nat by lia. apply Hup. simpl. lia. }
    cbn [app_events].
    destruct (process_single_image f) as [img_err |] eqn:Hf.
    + match goal with
      | |- context [WatermarkApp.process_loop _ _ _ (S i) files ?w1] =>
          destruct (IH files (S i) w1 ltac:(lia) Hdown' Hup') as (Ha & Hp & Hs & Hq)
      end.
      rewrite Ha, Hp, Hs, Hq. cbn [WatermarkApp.attempted WatermarkApp.processed_count
        WatermarkApp.skipped_count WatermarkApp.processing_queue].
      destruct (outcome_cons_failed f img_err (take k files) Hf) as [-> ->].
      rewrite <- !app_assoc. simpl. repeat split; try reflexivity. lia.
    + match goal with
      | |- context [WatermarkApp.process_loop _ _ _ (S i) files ?w1] =>
          destruct (IH files (S i) w1 ltac:(lia) Hdown' Hup') as (Ha & Hp & Hs & Hq)
      end.
      rewrite Ha, Hp, Hs, Hq. cbn [WatermarkApp.attempted WatermarkApp.processed_count
        WatermarkApp.skipped_count WatermarkApp.processing_queue].
      destruct (outcome_cons_ok f (take k files) Hf) as [-> ->].
      rewrite <- !app_assoc. simpl. repeat split; try reflexivity. lia.
Qed.

Lemma check_queue_skips_events (was_stopped : bool) (i : nat) (files : list text)
    (rest : list WatermarkApp.message) :
  WatermarkApp._check_queue was_stopped
    (app_events process_single_image total_images i files ++ rest)
  = WatermarkApp._check_queue was_stopped rest.
Proof.
  revert i. induction files as [| f files IH]; intros i; [reflexivity |].
  cbn [app_events]. destruct (process_single_image f); simpl; apply IH.
Qed.

Lemma succeeded_failed_length (files : list text) :
  (length (succeeded process_single_image files)
   + length (failed process_single_image files) = length files)%nat.
Proof.
  induction files as [| f files IH]; [reflexivity |].
  destruct (process_single_image f) as [e |] eqn:Hf.
  - destruct (outcome_cons_failed f e files Hf) as [-> ->]. simpl. lia.
  - destruct (outcome_cons_ok f files Hf) as [-> ->]. simpl. lia.
Qed.

Lemma succeeded_all (files : list text) :
  Forall (fun f => process_single_image f = None) files ->
  succeeded process_single_image files = files.
Proof.
  induction 1 as [| f files Hf _ IH]; [reflexivity |].
  destruct (outcome_cons_ok f files Hf) as [-> _]. now rewrite IH.
Qed.

Lemma app_events_name_failures (i : nat) (files : list text) (f e : text) :
  In (WatermarkApp.Error f e) (app_events process_single_image total_images i files)
  <-> In f files /\ process_single_image f = Some e.
Proof.
  clear stop_requested.
  revert i. induction files as [| g files IH]; intros i; simpl; [tauto |].
  rewrite in_app_iff, IH.
  destruct (process_single_image g) as [img_err |] eqn:Hg; simpl.
  - split.
    + intros [H | [[H | []] | [H1 H2]]]; [discriminate | | tauto].
      injection H as <- <-. auto.
    + intros [[<- | H1] H2]; [| tauto].
      right. left. left. congruence.
  - split.
    + intros [H | [[] | [H1 H2]]]; [discriminate | tauto].
    + intros [[<- | H1] H2]; [congruence | tauto].
Qed.

End app_batch.

Section tool_batch.
Variable process_image : text -> bool.
Variable stop_requested : nat -> bool.
Variable total_images : nat.

Local Abbreviation loop :=
  (WatermarkTool.process_loop process_image stop_requested total_images).

Lemma tool_process_loop_prefix (k : nat) :
  forall (files : list text) (i : nat) (w : WatermarkTool.Worker),
    (k <= length files)%nat ->
    (forall j, (j < k)%nat -> stop_requested (i + j)%nat = false) ->
    ((k < length files)%nat -> stop_requested (i + k)%nat = true) ->
    WatermarkTool.attempted (loop i files w) = WatermarkTool.attempted w ++ take k files
    /\ WatermarkTool.processed_count (loop i files w)
       = (WatermarkTool.processed_count w
          + length (filter (fun f => process_image f = true) (take k files)))%nat
    /\ WatermarkTool.error_count (loop i files w)
       = (WatermarkTool.error_count w
          + length (filter (fun f => process_image f = false) (take k files)))%nat
    /\ WatermarkTool.message_queue (loop i files w)
       = WatermarkTool.message_queue w ++ tool_events total_images i (take k files)
    /\ WatermarkTool.logged (loop i files w)
       = WatermarkTool.logged w
         ++ List.map WatermarkTool.ImageFailed
              (filter (fun f => process_image f = false) (take k files)).
Proof.
  induction k as [| k IH]; intros files i w Hk Hdown Hup.
  - rewrite take_0. simpl. rewrite !app_nil_r, !Nat.add_0_r.
    destruct files as [| f files]; [auto 6 |].
    simpl. rewrite Nat.add_0_r in Hup. rewrite Hup by (simpl; lia). auto 6.
  - destruct files as [| f files]; [simpl in Hk; lia |].
    simpl in Hk. cbn [WatermarkTool.process_loop take].
    pose proof (Hdown 0%nat ltac:(lia)) as H0. rewrite Nat.add_0_r in H0. rewrite H0.
    assert (Hdown' : forall j, (j < k)%nat -> stop_requested (S i + j)%nat = false).
    { intros j Hj. replace (S i + j)%nat with (i + S j)%nat by lia. apply Hdown. lia. }
    assert (Hup' : (k < length files)%nat -> stop_requested (S i + k)%nat = true).
    { intros Hlt. replace (S i + k)%nat with (i + S k)%nat by lia. apply Hup. simpl. lia. }
    cbn [tool_events].
    destruct (process_image f) eqn:Hf.
    + match goal with
      | |- context [WatermarkTool.process_loop _ _ _ (S i) files ?w1] =>
          destruct (IH files (S i) w1 ltac:(lia) Hdown' Hup') as (Ha & Hp & Hs & Hq & Hl)
      end.
      rewrite Ha, Hp, Hs, Hq, Hl. cbn [WatermarkTool.attempted WatermarkTool.processed_count
        WatermarkTool.error_count WatermarkTool.message_queue WatermarkTool.logged].
      rewrite !filter_cons.
      destruct (decide (process_image f = true)); [| congruence].
      destruct (decide (process_image f = false)); [congruence |].
      rewrite <- !app_assoc. simpl. repeat split; try reflexivity. lia.
    + match goal with
      | |- context [WatermarkTool.process_loop _ _ _ (S i) files ?w1] =>
          destruct (IH files (S i) w1 ltac:(lia) Hdown' Hup') as (Ha & Hp & Hs & Hq & Hl)
      end.
      rewrite Ha, Hp, Hs, Hq, Hl. cbn [WatermarkTool.attempted WatermarkTool.processed_count
        WatermarkTool.error_count WatermarkTool.message_queue WatermarkTool.logged].
      rewrite !filter_cons.
      destruct (decide (process_image f = true)); [congruence |].
      destruct (decide (process_image f = false)); [| congruence].
      rewrite <- !app_assoc. simpl. repeat split; try reflexivity. lia.
Qed.

End tool_batch.

(** C8: in a run where no stop is requested, every file is handed to the
    per-image step in order whatever the earlier ones did; a failing file
    adds one to the skipped count and is reported (one error entry naming it
    in [WatermarkApp], one log line in [WatermarkTool]), the others add one
    to the processed count; the run closes with the normal summary
    ([Finished] without error, shown as completed; the completed status in
    [WatermarkTool]), never the fatal one. *)
Theorem item_failures_do_not_abort_the_batch
    (process_single_image : text -> option text) (process_image : text -> bool)
    (stop_requested : nat -> bool) (files : list text) (output_folder : text) :
  (forall i, stop_requested i = false) ->
  let processed := length (succeeded process_single_image files) in
  let skipped := length (failed process_single_image files) in
  let w :=
    WatermarkApp._threaded_add_watermarks process_single_image stop_requested (inr files) in
  let tool_processed := length (filter (fun f => process_image f = true) files) in
  let tool_errors := length (filter (fun f => process_image f = false) files) in
  let tw :=
    WatermarkTool.process_images_thread process_image stop_requested
      (inr output_folder) files in
  (WatermarkApp.attempted w = files
   /\ WatermarkApp.processing_queue w
      = app_events process_single_image (length files) 0 files
        ++ [WatermarkApp.Finished processed skipped None]
   /\ (processed + skipped = length files)%nat
   /\ (forall f e, In (WatermarkApp.Error f e) (WatermarkApp.processing_queue w)
                   <-> In f files /\ process_single_image f = Some e)
   /\ WatermarkApp._check_queue false (WatermarkApp.processing_queue w)
      = Some (WatermarkApp.LabelCompleted, WatermarkApp.DialogCompleted processed skipped))
  /\ (WatermarkTool.attempted tw = files
      /\ WatermarkTool.message_queue tw
         = [WatermarkTool.Status WatermarkTool.StatusStarted]
           ++ tool_events (length files) 0 files
           ++ [WatermarkTool.Status
                 (WatermarkTool.StatusCompleted tool_processed tool_errors)]
           ++ (if (0 <? tool_processed)%nat then [WatermarkTool.Info] else [])
           ++ [WatermarkTool.EnableControls]
      /\ WatermarkTool.logged tw
         = List.map WatermarkTool.ImageFailed
             (filter (fun f => process_image f = false) files)).
Proof.
  intros Hdown processed skipped w tool_processed tool_errors tw.
  split.
  - assert (Hqueue : WatermarkApp.attempted w = files
              /\ WatermarkApp.processing_queue w
                 = app_events process_single_image (length files) 0 files
                   ++ [WatermarkApp.Finished processed skipped None]).
    { subst w. unfold WatermarkApp._threaded_add_watermarks.
      destruct (app_process_loop_prefix process_single_image stop_requested
                  (length files) (length files) files 0%nat WatermarkApp.idle
                  ltac:(lia) ltac:(intros; apply Hdown) ltac:(lia))
        as (Ha & Hp & Hs & Hq).
      rewrite take_ge in Ha, Hp, Hs, Hq by lia. simpl in Ha, Hp, Hs, Hq.
      fold processed in Hp. fold skipped in Hs.
      destruct (length files =? 0)%nat eqn:E.
      - apply Nat.eqb_eq, nil_length_inv in E.
        unfold processed, skipped. rewrite E. split; reflexivity.
      - unfold WatermarkApp.put; simpl. rewrite Ha, Hp, Hs, Hq. split; reflexivity. }
    destruct Hqueue as [Hatt Hqueue].
    split; [exact Hatt |]. split; [exact Hqueue |].
    split; [apply succeeded_failed_length |]. split.
    + intros f e. rewrite Hqueue, in_app_iff, app_events_name_failures.
      split; [intros [H | [H | []]]; [exact H | discriminate] | auto].
    + rewrite Hqueue, check_queue_skips_events. reflexivity.
  - subst tw. unfold WatermarkTool.process_images_thread.
    destruct (tool_process_loop_prefix process_image stop_requested
                (length files) (length files) files 0%nat
                (WatermarkTool.put [WatermarkTool.Status WatermarkTool.StatusStarted]
                   WatermarkTool.idle)
                ltac:(lia) ltac:(intros; apply Hdown) ltac:(lia))
      as (Ha & Hp & Hs & Hq & Hl).
    rewrite take_ge in Ha, Hp, Hs, Hq, Hl by lia.
    unfold WatermarkTool.put, WatermarkTool.idle in *.
    cbn [WatermarkTool.processed_count WatermarkTool.error_count
         WatermarkTool.message_queue WatermarkTool.attempted WatermarkTool.logged
         app Nat.add] in *.
    fold tool_processed in Hp. fold tool_errors in Hs.
    rewrite Hdown, Hp, Hs.
    destruct (0 <? tool_processed)%nat;
      cbn [WatermarkTool.processed_count WatermarkTool.error_count
           WatermarkTool.message_queue WatermarkTool.attempted WatermarkTool.logged];
      rewrite Ha, Hq, Hl; rewrite <- ?app_assoc; repeat split; reflexivity.
Qed.

Lemma item_failures_do_not_abort_the_batch_one_of_three :
  let process f := if text_eqb f (str "b.jpg") then Some (str "cannot identify image file") else None in
  let files := [str "a.jpg"; str "b.jpg"; str "c.jpg"] in
  let w := WatermarkApp._threaded_add_watermarks process (fun _ => false) (inr files) in
  (forall i : nat, (fun _ : nat => false) i = false)
  /\ WatermarkApp.attempted w = files
  /\ WatermarkApp._check_queue false (WatermarkApp.processing_queue w)
     = Some (WatermarkApp.LabelCompleted, WatermarkApp.DialogCompleted 2 1).
Proof.
  cbv zeta. split; [reflexivity |].
  destruct (item_failures_do_not_abort_the_batch
              (fun f => if text_eqb f (str "b.jpg")
                        then Some (str "cannot identify image file") else None)
              (fun _ => true) (fun _ => false)
              [str "a.jpg"; str "b.jpg"; str "c.jpg"] (str "out")
              ltac:(reflexivity)) as [(Hatt & _ & _ & _ & Hdone) _].
  split; [exact Hatt | exact Hdone].
Defined.

(** C9: the flag is read before each file. When it is first seen set at
    the check before file [k], the files handed to the per-image step are
    exactly the first [k]; the counts are the successes and failures among
    them (all [k] processed when none failed); the run ends at once with the
    cancelled outcome ([Finished] shown as stopped in [WatermarkApp], where
    the flag stays set until the completion handler has read it; the
    cancelled status in [WatermarkTool]). *)
Theorem cancellation_stops_the_batch
    (process_single_image : text -> option text) (process_image : text -> bool)
    (stop_requested : nat -> bool) (files : list text) (output_folder : text) (k : nat) :
  (k < length files)%nat ->
  (forall j, (j < k)%nat -> stop_requested j = false) ->
  stop_requested k = true ->
  let handled := take k files in
  let processed := length (succeeded process_single_image handled) in
  let skipped := length (failed process_single_image handled) in
  let w :=
    WatermarkApp._threaded_add_watermarks process_single_image stop_requested (inr files) in
  let tw :=
    WatermarkTool.process_images_thread process_image stop_requested
      (inr output_folder) files in
  (WatermarkApp.attempted w = handled
   /\ WatermarkApp.processed_count w = processed
   /\ WatermarkApp.skipped_count w = skipped
   /\ (processed + skipped = k)%nat
   /\ (Forall (fun f => process_single_image f = None) handled -> processed = k)
   /\ WatermarkApp.processing_queue w
      = app_events process_single_image (length files) 0 handled
        ++ [WatermarkApp.Finished processed skipped None]
   /\ WatermarkApp._check_queue true (WatermarkApp.processing_queue w)
      = Some (WatermarkApp.LabelStopped, WatermarkApp.DialogStopped processed skipped))
  /\ (WatermarkTool.attempted tw = handled
      /\ WatermarkTool.processed_count tw
         = length (filter (fun f => process_image f = true) handled)
      /\ WatermarkTool.message_queue tw
         = [WatermarkTool.Status WatermarkTool.StatusStarted]
           ++ tool_events (length files) 0 handled
           ++ [WatermarkTool.Status WatermarkTool.StatusCancelled;
               WatermarkTool.EnableControls]).
Proof.
  intros Hk Hdown Hup handled processed skipped w tw.
  assert (Hlen : length handled = k) by (subst handled; rewrite length_take; lia).
  split.
  - destruct (app_process_loop_prefix process_single_image stop_requested
                (length files) k files 0%nat WatermarkApp.idle
                ltac:(lia) ltac:(intros; apply Hdown; assumption) ltac:(intros; exact Hup))
      as (Ha & Hp & Hs & Hq).
    fold handled in Ha, Hp, Hs, Hq. fold processed in Hp. fold skipped in Hs.
    simpl in Ha, Hp, Hs, Hq.
    assert (Hw : w = WatermarkApp.put (WatermarkApp.Finished
                       (WatermarkApp.processed_count
                          (WatermarkApp.process_loop process_single_image stop_requested
                             (length files) 0 files WatermarkApp.idle))
                       (WatermarkApp.skipped_count
                          (WatermarkApp.process_loop process_single_image stop_requested
                             (length files) 0 files WatermarkApp.idle)) None)
                     (WatermarkApp.process_loop process_single_image stop_requested
                        (length files) 0 files WatermarkApp.idle)).
    { subst w. unfold WatermarkApp._threaded_add_watermarks.
      destruct files; [simpl in Hk; lia | reflexivity]. }
    rewrite Hw. unfold WatermarkApp.put. cbn [WatermarkApp.attempted
      WatermarkApp.processed_count WatermarkApp.skipped_count WatermarkApp.processing_queue].
    rewrite Ha, Hp, Hs, Hq.
    pose proof (succeeded_failed_length process_single_image handled) as Hsum.
    fold processed skipped in Hsum.
    repeat split; try reflexivity; try lia.
    + intros Hall. subst processed. rewrite succeeded_all by assumption. exact Hlen.
    + rewrite check_queue_skips_events. reflexivity.
  - subst tw. unfold WatermarkTool.process_images_thread.
    destruct (tool_process_loop_prefix process_image stop_requested
                (length files) k files 0%nat
                (WatermarkTool.put [WatermarkTool.Status WatermarkTool.StatusStarted]
                   WatermarkTool.idle)
                ltac:(lia) ltac:(intros; apply Hdown; assumption) ltac:(intros; exact Hup))
      as (Ha & Hp & Hs & Hq & Hl).
    fold handled in Ha, Hp, Hs, Hq, Hl.
    unfold WatermarkTool.put, WatermarkTool.idle in *.
    cbn [WatermarkTool.processed_count WatermarkTool.error_count
         WatermarkTool.message_queue WatermarkTool.attempted WatermarkTool.logged
         app Nat.add] in *.
    rewrite Ha, Hlen, Hup.
    cbn [WatermarkTool.processed_count WatermarkTool.error_count
         WatermarkTool.message_queue WatermarkTool.attempted WatermarkTool.logged].
    rewrite ?Ha, ?Hp, ?Hq. rewrite <- ?app_assoc. repeat split; reflexivity.
Qed.

Lemma cancellation_stops_the_batch_after_first_of_five :
  let files := [str "1.jpg"; str "2.jpg"; str "3.jpg"; str "4.jpg"; str "5.jpg"] in
  let stop (i : nat) := (1 <=? i)%nat in
  let w := WatermarkApp._threaded_add_watermarks (fun _ => None) stop (inr files) in
  (1 < length files)%nat
  /\ stop 1%nat = true
  /\ WatermarkApp.attempted w = [str "1.jpg"]
  /\ WatermarkApp._check_queue true (WatermarkApp.processing_queue w)
     = Some (WatermarkApp.LabelStopped, WatermarkApp.DialogStopped 1 0).
Proof.
  cbv zeta.
  destruct (cancellation_stops_the_batch (fun _ => None) (fun _ => true)
              (fun i => (1 <=? i)%nat)
              [str "1.jpg"; str "2.jpg"; str "3.jpg"; str "4.jpg"; str "5.jpg"]
              (str "out") 1%nat)
    as [(Hatt & _ & _ & _ & _ & _ & Hdone) _].
  - simpl. lia.
  - intros j Hj. destruct j; [reflexivity | lia].
  - reflexivity.
  - split; [simpl; lia |]. split; [reflexivity |]. split; [exact Hatt | exact Hdone].
Defined.

(** * Further properties of the code *)

(** ** The adaptive font-size search *)

Lemma app_adaptive_search_result (width_at : Z -> Q) (target : Q) (iterations : nat) :
  forall low high best,
    let r := WatermarkApp.adaptive_search width_at target iterations low high best in
    r = best \/ (low <= r <= high /\ Qle_bool (width_at r) target = true).
Proof.
  induction iterations as [| n IH]; intros low high best; cbn.
  - now left.
  - destruct (high <? low) eqn:Hrange; [now left |].
    apply Z.ltb_ge in Hrange.
    assert (Hmid : low <= (low + high) / 2 <= high)
      by (split; [apply Z.div_le_lower_bound | apply Z.div_le_upper_bound]; lia).
    destruct ((low + high) / 2 <=? 0); [now left |].
    destruct (Qle_bool (width_at ((low + high) / 2)) target) eqn:Hfit.
    + destruct (IH ((low + high) / 2 + 1) high ((low + high) / 2)) as [-> | [Hr Hw]].
      * right. split; [lia | exact Hfit].
      * right. split; [lia | exact Hw].
    + destruct (IH low ((low + high) / 2 - 1) best) as [-> | [Hr Hw]].
      * now left.
      * right. split; [lia | exact Hw].
Qed.

Lemma tool_adaptive_search_result (text_width_at : Z -> option Q) (target : Q)
    (iterations : nat) :
  forall low high best r,
    WatermarkTool.adaptive_search text_width_at target iterations low high best = Some r ->
    r = best
    \/ (low <= r <= high
        /\ exists w, text_width_at r = Some w /\ Qle_bool w target = true).
Proof.
  induction iterations as [| n IH]; intros low high best r; cbn.
  - intros [= <-]. now left.
  - destruct (high <? low) eqn:Hrange; [intros [= <-]; now left |].
    apply Z.ltb_ge in Hrange.
    assert (Hmid : low <= (low + high) / 2 <= high)
      by (split; [apply Z.div_le_lower_bound | apply Z.div_le_upper_bound]; lia).
    destruct (text_width_at ((low + high) / 2)) as [w |] eqn:Hw; [| discriminate].
    destruct (Qle_bool w target) eqn:Hfit; intros Hrec.
    + destruct (IH _ _ _ _ Hrec) as [-> | [Hr Hex]].
      * right. split; [lia | now exists w].
      * right. split; [lia | exact Hex].
    + destruct (IH _ _ _ _ Hrec) as [-> | [Hr Hex]].
      * now left.
      * right. split; [lia | exact Hex].
Qed.

(** X1. Whenever [WatermarkApp.calculate_adaptive_font_size] returns a
    size above the minimum of its search range, the text measured at that
    very size is at most 80% of the image width; the same holds for
    [WatermarkTool.calculate_adaptive_font_size] whenever it returns. *)
Theorem adaptive_font_size_fits_or_is_minimal :
  (forall (use_bbox : bool) (t : text) (base_font_size img_w img_h : Z)
          (font_chinese_path font_english_path : Z -> Font),
      t <> [] ->
      let s := WatermarkApp.calculate_adaptive_font_size use_bbox t base_font_size
                 (img_w, img_h) font_chinese_path font_english_path in
      s = WatermarkApp.min_font_size img_w img_h
      \/ (fst (WatermarkApp.calculate_text_size use_bbox t
                 (font_chinese_path s) (font_english_path s))
          <= inject_Z img_w * 0.80)%Q)
  /\ (forall (text_width_at : Z -> option Q) (img_w img_h s : Z),
      WatermarkTool.calculate_adaptive_font_size text_width_at (img_w, img_h) = Some s ->
      s = WatermarkTool.min_size img_w img_h
      \/ exists w, text_width_at s = Some w /\ (w <= inject_Z img_w * 0.8)%Q).
Proof.
  split.
  - intros use_bbox t base img_w img_h fc fe Ht.
    destruct t as [| c t]; [congruence |].
    unfold WatermarkApp.calculate_adaptive_font_size.
    set (width_at := fun mid : Z =>
           fst (WatermarkApp.calculate_text_size use_bbox (c :: t) (fc mid) (fe mid))).
    set (mn := WatermarkApp.min_font_size img_w img_h).
    set (mx := WatermarkApp.max_font_size img_w img_h).
    cbv zeta.
    destruct (app_adaptive_search_result width_at (inject_Z img_w * 0.80) 10 mn mx mn)
      as [-> | [Hr Hw]].
    + left. lia.
    + right.
      replace (Z.max mn (Z.min _ mx))
        with (WatermarkApp.adaptive_search width_at (inject_Z img_w * 0.80) 10 mn mx mn)
        by lia.
      apply Qle_bool_iff in Hw. exact Hw.
  - intros text_width_at img_w img_h s.
    unfold WatermarkTool.calculate_adaptive_font_size.
    destruct (WatermarkTool.adaptive_search _ _ _ _ _ _) as [best |] eqn:Hsearch;
      [| discriminate].
    intros [= <-].
    destruct (tool_adaptive_search_result _ _ _ _ _ _ _ Hsearch) as [-> | [Hr (w & Hw & Hfit)]].
    + left. lia.
    + right. exists w.
      replace (Z.max _ (Z.min best _)) with best by lia.
      split; [exact Hw | now apply Qle_bool_iff].
Qed.

Lemma adaptive_font_size_fits_on_a_photo :
  str "Hello" <> []
  /\ (let s := WatermarkApp.calculate_adaptive_font_size true (str "Hello") 40 (4000, 3000)
                 (fun s => fixed_font (inject_Z s / 2) (inject_Z s))
                 (fun s => fixed_font (inject_Z s / 2) (inject_Z s)) in
      s = WatermarkApp.min_font_size 4000 3000
      \/ (fst (WatermarkApp.calculate_text_size true (str "Hello")
                 (fixed_font (inject_Z s / 2) (inject_Z s))
                 (fixed_font (inject_Z s / 2) (inject_Z s)))
          <= inject_Z 4000 * 0.80)%Q).
Proof.
  split; [discriminate |].
  exact (proj1 adaptive_font_size_fits_or_is_minimal true (str "Hello") 40 4000 3000
           (fun s => fixed_font (inject_Z s / 2) (inject_Z s))
           (fun s => fixed_font (inject_Z s / 2) (inject_Z s))
           ltac:(discriminate)).
Defined.

Lemma app_adaptive_search_maximal (width_at : Z -> Q) (target : Q) (top : Z)
    (iterations : nat) :
  forall low high best,
    0 < low ->
    high - low + 1 < 2 ^ Z.of_nat iterations ->
    low - 1 <= best ->
    (forall a b, low <= a -> a <= b -> b <= top -> (width_at a <= width_at b)%Q) ->
    (forall s, high < s -> s <= top -> (target < width_at s)%Q) ->
    forall s,
      WatermarkApp.adaptive_search width_at target iterations low high best < s ->
      s <= top -> (target < width_at s)%Q.
Proof.
  induction iterations as [| n IH]; intros low high best Hlow Hfuel Hbest Hmono Habove s; cbn.
  - intros Hs Htop. apply Habove; [| exact Htop].
    change (2 ^ Z.of_nat 0) with 1 in Hfuel. lia.
  - destruct (high <? low) eqn:Hrange.
    { apply Z.ltb_lt in Hrange. intros Hs Htop. apply Habove; lia. }
    apply Z.ltb_ge in Hrange.
    assert (Hpow : 2 ^ Z.of_nat (S n) = 2 * 2 ^ Z.of_nat n)
      by (rewrite Nat2Z.inj_succ, Z.pow_succ_r; lia).
    assert (Hmid : low <= (low + high) / 2 <= high)
      by (split; [apply Z.div_le_lower_bound | apply Z.div_le_upper_bound]; lia).
    assert (Hhalf : 2 * ((low + high) / 2) <= low + high < 2 * ((low + high) / 2) + 2).
    { pose proof (Z.div_mod (low + high) 2 ltac:(lia)).
      pose proof (Z.mod_pos_bound (low + high) 2 ltac:(lia)). lia. }
    destruct ((low + high) / 2 <=? 0) eqn:Hzero; [apply Z.leb_le in Hzero; lia |].
    destruct (Qle_bool (width_at ((low + high) / 2)) target) eqn:Hfit.
    + apply IH; try lia.
      * intros a b Ha Hab Hb. apply Hmono; lia.
      * exact Habove.
    + apply Qle_bool_false_iff in Hfit.
      apply IH; try lia.
      * exact Hmono.
      * intros s' Hs' Htop.
        destruct (Z_lt_le_dec high s') as [Hhi | Hhi]; [now apply Habove |].
        apply Qlt_le_trans with (width_at ((low + high) / 2)); [exact Hfit |].
        apply Hmono; lia.
Qed.

(** X2. When the measured width does not decrease with the font size and
    the search range of [WatermarkApp.calculate_adaptive_font_size] holds
    fewer than 1024 sizes (so that its ten halving steps exhaust the
    range), the size returned is the largest one that fits: at every larger
    size of the range the text is wider than 80% of the image width. *)
Theorem adaptive_font_size_is_the_largest_that_fits
    (use_bbox : bool) (t : text) (base_font_size img_w img_h : Z)
    (font_chinese_path font_english_path : Z -> Font) :
  let width_at (size : Z) :=
    fst (WatermarkApp.calculate_text_size use_bbox t
           (font_chinese_path size) (font_english_path size)) in
  let s := WatermarkApp.calculate_adaptive_font_size use_bbox t base_font_size
             (img_w, img_h) font_chinese_path font_english_path in
  t <> [] ->
  WatermarkApp.max_font_size img_w img_h - WatermarkApp.min_font_size img_w img_h < 1023 ->
  (forall a b, WatermarkApp.min_font_size img_w img_h <= a -> a <= b ->
               b <= WatermarkApp.max_font_size img_w img_h ->
               (width_at a <= width_at b)%Q) ->
  forall s', s < s' -> s' <= WatermarkApp.max_font_size img_w img_h ->
             (inject_Z img_w * 0.80 < width_at s')%Q.
Proof.
  intros width_at s Ht Hrange Hmono s' Hs' Htop.
  destruct t as [| c t]; [congruence |].
  unfold s, WatermarkApp.calculate_adaptive_font_size in Hs'.
  fold width_at in Hs'.
  set (mn := WatermarkApp.min_font_size img_w img_h) in *.
  set (mx := WatermarkApp.max_font_size img_w img_h) in *.
  cbv zeta in Hs'.
  assert (Hmn : 10 <= mn) by (unfold mn, WatermarkApp.min_font_size; lia).
  assert (Hmx : mn < mx) by (unfold mx, WatermarkApp.max_font_size; fold mn; lia).
  apply (app_adaptive_search_maximal width_at (inject_Z img_w * 0.80) mx 10 mn mx mn);
    try lia.
  exact Hmono.
Qed.

Lemma fixed_font_text_width (t : text) (w h : Q) :
  (fst (WatermarkApp.calculate_text_size true t (fixed_font w h) (fixed_font w h))
   == inject_Z (Z.of_nat (length t)) * w)%Q.
Proof.
  assert (Hfold : forall (t : text) (acc : Q * Q),
             (fst (fold_left
                     (fun acc c =>
                        let font :=
                          if WatermarkApp.is_chinese c then fixed_font w h
                          else fixed_font w h in
                        let wh := WatermarkApp.get_char_metrics true c font in
                        ((fst acc + fst wh)%Q, qmax (snd acc) (snd wh)))
                     t acc)
              == fst acc + inject_Z (Z.of_nat (length t)) * w)%Q).
  { clear t. induction t as [| c t IH]; intros acc.
    - cbn. change (inject_Z (Z.of_nat 0)) with 0%Q. lra.
    - cbn [fold_left length]. rewrite IH.
      rewrite Nat2Z.inj_succ. unfold Z.succ. rewrite inject_Z_plus.
      change (inject_Z 1) with 1%Q.
      destruct (WatermarkApp.is_chinese c); cbn; lra. }
  destruct t as [| c t]; [cbn; change (inject_Z (Z.of_nat 0)) with 0%Q; lra |].
  unfold WatermarkApp.calculate_text_size. rewrite Hfold. cbn [fst]. lra.
Qed.

Lemma adaptive_font_size_is_the_largest_that_fits_on_a_photo :
  let fonts (size : Z) := fixed_font (inject_Z size / 2) (inject_Z size) in
  WatermarkApp.calculate_adaptive_font_size true (str "2023-05-01 12:34:56!") 40
    (4000, 3000) fonts fonts = 320
  /\ (inject_Z 4000 * 0.80
      < fst (WatermarkApp.calculate_text_size true (str "2023-05-01 12:34:56!")
               (fonts 321%Z) (fonts 321%Z)))%Q.
Proof.
  intros fonts.
  split; [vm_compute; reflexivity |].
  apply (adaptive_font_size_is_the_largest_that_fits true (str "2023-05-01 12:34:56!")
           40 4000 3000 fonts fonts).
  - discriminate.
  - vm_compute. reflexivity.
  - intros a b _ Hab _. unfold fonts. rewrite !fixed_font_text_width.
    assert (inject_Z a <= inject_Z b)%Q by (rewrite <- Zle_Qle; exact Hab).
    change (inject_Z (Z.of_nat (length (str "2023-05-01 12:34:56!")))) with 20%Q.
    revert H. generalize (inject_Z a), (inject_Z b). intros qa qb H.
    unfold Qdiv. change (/ 2)%Q with (1 # 2)%Q. lra.
  - vm_compute. reflexivity.
  - vm_compute. discriminate.
Defined.

(** ** Anchors and contrast colours *)

(** X3. When the text and a 10 pixel margin fit into the image in both
    directions, [WatermarkTool.calculate_position] and
    [WatermarkApp.calculate_position] return the same origin for every
    value of the position menu, known or not: the clamp of the latter
    changes nothing there. *)
Theorem calculate_position_agree_when_margins_fit
    (img_w img_h text_w text_h : Z) (position : text) :
  text_w + 10 <= img_w -> text_h + 10 <= img_h ->
  WatermarkTool.calculate_position position (img_w, img_h) (text_w, text_h)
  = WatermarkApp.calculate_position (img_w, img_h) (text_w, text_h) position.
Proof.
  intros Hw Hh.
  unfold WatermarkTool.calculate_position, WatermarkApp.calculate_position.
  assert (Hcx : 0 <= (img_w - text_w) / 2 <= img_w - text_w)
    by (split; [apply Z.div_le_lower_bound | apply Z.div_le_upper_bound]; lia).
  assert (Hcy : 0 <= (img_h - text_h) / 2 <= img_h - text_h)
    by (split; [apply Z.div_le_lower_bound | apply Z.div_le_upper_bound]; lia).
  repeat match goal with
         | |- context [text_eqb position ?a] => destruct (text_eqb position a)
         end;
    cbn [fst snd]; f_equal; lia.
Qed.

Lemma calculate_position_agree_when_margins_fit_bottom_right :
  95 + 10 <= 4000 /\ 40 + 10 <= 3000
  /\ WatermarkTool.calculate_position WatermarkApp.BOTTOM_RIGHT (4000, 3000) (95, 40)
     = WatermarkApp.calculate_position (4000, 3000) (95, 40) WatermarkApp.BOTTOM_RIGHT.
Proof.
  split; [lia | split; [lia |]].
  apply (calculate_position_agree_when_margins_fit 4000 3000 95 40); lia.
Defined.

(** X4. For the centre anchor and a text no larger than the image,
    [WatermarkApp.calculate_position] leaves the same space on both sides
    of the text, up to the one pixel of an odd difference, which goes to
    the right and to the bottom. *)
Theorem center_position_is_centered (img_w img_h text_w text_h : Z) :
  text_w <= img_w -> text_h <= img_h ->
  let xy := WatermarkApp.calculate_position (img_w, img_h) (text_w, text_h)
              WatermarkApp.CENTER in
  0 <= fst xy
  /\ 0 <= (img_w - text_w - fst xy) - fst xy <= 1
  /\ 0 <= snd xy
  /\ 0 <= (img_h - text_h - snd xy) - snd xy <= 1.
Proof.
  intros Hw Hh.
  unfold WatermarkApp.calculate_position.
  change (text_eqb WatermarkApp.CENTER WatermarkApp.TOP_LEFT) with false.
  change (text_eqb WatermarkApp.CENTER WatermarkApp.TOP_RIGHT) with false.
  change (text_eqb WatermarkApp.CENTER WatermarkApp.BOTTOM_LEFT) with false.
  change (text_eqb WatermarkApp.CENTER WatermarkApp.BOTTOM_RIGHT) with false.
  change (text_eqb WatermarkApp.CENTER WatermarkApp.CENTER) with true.
  cbn [fst snd].
  pose proof (Z.div_mod (img_w - text_w) 2 ltac:(lia)).
  pose proof (Z.mod_pos_bound (img_w - text_w) 2 ltac:(lia)).
  pose proof (Z.div_mod (img_h - text_h) 2 ltac:(lia)).
  pose proof (Z.mod_pos_bound (img_h - text_h) 2 ltac:(lia)).
  lia.
Qed.

Lemma center_position_is_centered_odd :
  95 <= 4000 /\ 41 <= 3000
  /\ WatermarkApp.calculate_position (4000, 3000) (95, 41) WatermarkApp.CENTER
     = (1952, 1479)
  /\ 0 <= (4000 - 95 - 1952) - 1952 <= 1.
Proof.
  split; [lia | split; [lia | split; [reflexivity |]]].
  exact (proj1 (proj2 (center_position_is_centered 4000 3000 95 41
                         ltac:(lia) ltac:(lia)))).
Defined.

Lemma flat_map_length_const {A B : Type} (f : A -> list B) (n : nat) (l : list A) :
  (forall a, length (f a) = n) -> length (flat_map f l) = (length l * n)%nat.
Proof.
  intros Hf. induction l as [| a l IH]; [reflexivity |].
  cbn. rewrite length_app, Hf, IH. lia.
Qed.

Lemma getdata_length (image : Image) :
  length (getdata image)
  = (Z.to_nat (snd (size image)) * Z.to_nat (fst (size image)))%nat.
Proof.
  unfold getdata.
  rewrite (flat_map_length_const _ (Z.to_nat (fst (size image)))).
  - now rewrite length_seqZ.
  - intros y. now rewrite length_map, length_seqZ.
Qed.

Lemma stat_mean_defined (image : Image) :
  0 < fst (size image) -> 0 < snd (size image) -> is_Some (stat_mean image).
Proof.
  intros Hw Hh. unfold stat_mean. rewrite getdata_length.
  destruct (_ =? 0) eqn:Hzero; [| eauto].
  apply Z.eqb_eq in Hzero. nia.
Qed.

Lemma Qlt_bool_asym (a b : Q) : ~ (a == b)%Q -> Qlt_bool b a = negb (Qlt_bool a b).
Proof.
  intros Hne.
  destruct (Qlt_bool a b) eqn:Hab; cbn.
  - apply Qlt_bool_iff in Hab. apply Qlt_bool_false_iff. lra.
  - apply Qlt_bool_false_iff in Hab. apply Qlt_bool_iff.
    destruct (Qlt_le_dec b a) as [Hlt | Hle]; [exact Hlt |].
    exfalso. apply Hne. lra.
Qed.

(** X5. On a region of positive width and height the crop and its mean
    exist, and unless the luminance computed from the mean is exactly 128,
    [WatermarkTool.calculate_contrast_color_for_region] returns the colour
    that [WatermarkApp._calculate_contrast_color] returns for the same
    crop: the two functions differ at the tie only, where the first
    answers white and the second black, and neither falls back to its
    default. *)
Theorem contrast_colors_agree_off_the_tie
    (watermark_color : Z * Z * Z) (image : Image) (x y width height : Z) :
  0 < width -> 0 < height ->
  exists region mean,
    crop image (x, y, x + width, y + height) = Some region
    /\ stat_mean region = Some mean
    /\ (~ (computed_luminance mean == 128)%Q ->
        WatermarkTool.calculate_contrast_color_for_region watermark_color image
          x y width height
        = WatermarkApp._calculate_contrast_color
            (crop image (x, y, x + width, y + height)))
    /\ ((computed_luminance mean == 128)%Q ->
        WatermarkTool.calculate_contrast_color_for_region watermark_color image
          x y width height = (255, 255, 255)
        /\ WatermarkApp._calculate_contrast_color
             (crop image (x, y, x + width, y + height)) = (0, 0, 0)).
Proof.
  intros Hw Hh.
  unfold WatermarkTool.calculate_contrast_color_for_region.
  destruct (crop image (x, y, x + width, y + height)) as [region |] eqn:Hcrop.
  2: { unfold crop in Hcrop.
       destruct ((x + width <? x) || (y + height <? y)) eqn:Hrev; [| discriminate].
       apply orb_true_iff in Hrev. destruct Hrev as [Hrev | Hrev];
         apply Z.ltb_lt in Hrev; lia. }
  assert (Hsize : size region = (width, height)).
  { unfold crop in Hcrop.
    destruct ((x + width <? x) || (y + height <? y)); [discriminate |].
    injection Hcrop as <-. cbn. f_equal; lia. }
  destruct (stat_mean_defined region) as [mean Hmean];
    [rewrite Hsize; exact Hw | rewrite Hsize; exact Hh |].
  exists region, mean. split; [reflexivity | split; [exact Hmean |]].
  unfold WatermarkApp._calculate_contrast_color.
  rewrite Hsize, Hmean. cbn [fst snd].
  destruct (width =? 0) eqn:Hw0; [apply Z.eqb_eq in Hw0; lia |].
  destruct (height =? 0) eqn:Hh0; [apply Z.eqb_eq in Hh0; lia |].
  cbn [orb].
  destruct mean as [[r g] b]. unfold computed_luminance.
  set (luminance := fadd (fadd (fmul (float 0.299) r) (fmul (float 0.587) g))
                         (fmul (float 0.114) b)).
  clearbody luminance.
  split.
  - intros Htie. rewrite (Qlt_bool_asym _ _ Htie).
    now destruct (Qlt_bool luminance 128).
  - intros Htie.
    assert (Hnot_above : Qlt_bool 128 luminance = false)
      by (apply Qlt_bool_false_iff; rewrite Htie; apply Qle_refl).
    assert (Hnot_below : Qlt_bool luminance 128 = false)
      by (apply Qlt_bool_false_iff; rewrite Htie; apply Qle_refl).
    rewrite Hnot_above, Hnot_below. split; reflexivity.
Qed.

Lemma contrast_colors_agree_off_the_tie_on_white :
  0 < 4 /\ 0 < 2
  /\ WatermarkTool.calculate_contrast_color_for_region (255, 255, 0)
       (uniform_image 10 10 (255, 255, 255)) 3 3 4 2
     = (0, 0, 0)
  /\ exists region mean,
       crop (uniform_image 10 10 (255, 255, 255)) (3, 3, 3 + 4, 3 + 2) = Some region
       /\ stat_mean region = Some mean.
Proof.
  split; [lia | split; [lia | split; [vm_compute; reflexivity |]]].
  destruct (contrast_colors_agree_off_the_tie (255, 255, 0)
              (uniform_image 10 10 (255, 255, 255)) 3 3 4 2 ltac:(lia) ltac:(lia))
    as (region & mean & Hcrop & Hmean & _).
  exists region, mean. split; [exact Hcrop | exact Hmean].
Defined.

Lemma band_sum_const (band : Z * Z * Z -> Z) (rgb : Z * Z * Z) (data : list (Z * Z * Z)) :
  Forall (fun px => px = rgb) data ->
  band_sum band data = Z.of_nat (length data) * band rgb.
Proof.
  unfold band_sum.
  assert (Hfold : forall acc, Forall (fun px => px = rgb) data ->
                    fold_left (fun acc px => acc + band px) data acc
                    = acc + Z.of_nat (length data) * band rgb).
  { induction data as [| px data IH]; intros acc Hall.
    - cbn. lia.
    - inversion Hall as [| ? ? Hpx Hrest]; subst.
      cbn [fold_left length]. rewrite IH by exact Hrest. lia. }
  intros Hall. rewrite Hfold by exact Hall. lia.
Qed.

Lemma getdata_uniform (w h : Z) (rgb : Z * Z * Z) :
  Forall (fun px => px = rgb) (getdata (uniform_image w h rgb)).
Proof.
  unfold getdata. cbn [size getpixel uniform_image fst snd].
  apply Forall_forall. intros px Hin.
  apply list_elem_of_In, in_flat_map in Hin. destruct Hin as (y & _ & Hin).
  apply in_map_iff in Hin. destruct Hin as (x & Hpx & _). now symmetry.
Qed.

(** X6. On a region of one colour, of any positive size,
    [WatermarkApp._calculate_contrast_color] decides as
    [WatermarkTool.get_contrast_color] does on that colour: white where
    the latter answers white, black where it answers black. The mean over
    the pixels does not depend on their number, and both compute the same
    rounded luminance from it: on the grey (128, 128, 128), whose exact
    luminance is 128, both compute 127.99999999999999 and answer white. *)
Theorem contrast_color_of_a_uniform_region (w h : Z) (rgb : Z * Z * Z) :
  0 < w -> 0 < h ->
  WatermarkApp._calculate_contrast_color (Some (uniform_image w h rgb))
  = if WatermarkTool.get_contrast_color rgb then (255, 255, 255) else (0, 0, 0).
Proof.
  intros Hw Hh.
  unfold WatermarkApp._calculate_contrast_color.
  cbn [size uniform_image fst snd].
  destruct (w =? 0) eqn:Hw0; [apply Z.eqb_eq in Hw0; lia |].
  destruct (h =? 0) eqn:Hh0; [apply Z.eqb_eq in Hh0; lia |].
  cbn [orb].
  unfold stat_mean.
  rewrite !(band_sum_const _ rgb) by apply getdata_uniform.
  rewrite getdata_length. cbn [size uniform_image fst snd].
  set (n := Z.of_nat (Z.to_nat h * Z.to_nat w)).
  assert (Hn : 0 < n) by (unfold n; nia).
  destruct (n =? 0) eqn:Hn0; [apply Z.eqb_eq in Hn0; lia |].
  destruct rgb as [[r g] b]. cbn [fst snd].
  unfold WatermarkTool.get_contrast_color.
  assert (Hmean : forall c : Z, (inject_Z (n * c) / inject_Z n == inject_Z c)%Q).
  { intros c. rewrite inject_Z_mult. field.
    intros Hz. apply (Qeq_bool_neq 0 (inject_Z n)); [| now symmetry].
    unfold Qeq_bool, inject_Z. cbn. destruct n; [lia | reflexivity | lia]. }
  unfold float_of_int.
  rewrite (binary64_proper _ _ (Hmean r)), (binary64_proper _ _ (Hmean g)),
    (binary64_proper _ _ (Hmean b)).
  now destruct (Qlt_bool _ 128).
Qed.

Lemma contrast_color_of_a_uniform_region_grey :
  0 < 7 /\ 0 < 5
  /\ WatermarkTool.get_contrast_color (128, 128, 128) = true
  /\ WatermarkApp._calculate_contrast_color (Some (uniform_image 7 5 (128, 128, 128)))
     = (255, 255, 255).
Proof.
  split; [lia | split; [lia |]].
  assert (Hbutton : WatermarkTool.get_contrast_color (128, 128, 128) = true)
    by (vm_compute; reflexivity).
  split; [exact Hbutton |].
  rewrite (contrast_color_of_a_uniform_region 7 5 (128, 128, 128)
             ltac:(lia) ltac:(lia)).
  rewrite Hbutton. reflexivity.
Defined.

(** ** The luminance, rounded and exact *)

(** [round] is within a half of its argument. *)
Lemma py_round_near (x : Q) :
  (x - (1 # 2) <= inject_Z (py_round x))%Q /\ (inject_Z (py_round x) <= x + (1 # 2))%Q.
Proof.
  assert (Hfloor : Py.floor x = Qfloor x) by (destruct x; reflexivity).
  pose proof (Qfloor_le x) as Hlow. pose proof (Qlt_floor x) as Hhigh.
  rewrite inject_Z_plus in Hhigh. change (inject_Z 1) with 1%Q in Hhigh.
  unfold py_round. rewrite Hfloor.
  set (f := inject_Z (Qfloor x)) in *.
  destruct (Qle_bool (2 * (x - f)) 1) eqn:Hle.
  - apply Qle_bool_iff in Hle.
    destruct (Qeq_bool (2 * (x - f)) 1) eqn:Heq.
    + apply Qeq_bool_eq in Heq.
      destruct (Z.even (Qfloor x)).
      * fold f. split; lra.
      * rewrite inject_Z_plus. change (inject_Z 1) with 1%Q. fold f. split; lra.
    + fold f. split; lra.
  - apply Qle_bool_false_iff in Hle.
    rewrite inject_Z_plus. change (inject_Z 1) with 1%Q. fold f. split; lra.
Qed.

(** The exponent of a value below [2^k] is below [k]. *)
Lemma ilog2_upper (n d k : Z) :
  0 < n -> 0 < d -> 0 <= k -> n < d * 2 ^ k -> ilog2 n d < k.
Proof.
  intros Hn Hd Hk Hlt. unfold ilog2.
  assert (Hl : Z.log2 n - Z.log2 d <= k).
  { assert (Z.log2 n <= Z.log2 (d * 2 ^ k)) by (apply Z.log2_le_mono; lia).
    rewrite Z.log2_mul_pow2 in H by lia. lia. }
  set (l := Z.log2 n - Z.log2 d) in *.
  destruct (0 <=? l) eqn:Hl0.
  - apply Z.leb_le in Hl0.
    destruct (d * 2 ^ l <=? n) eqn:Htest; [| lia].
    apply Z.leb_le in Htest.
    destruct (Z.eq_dec l k) as [-> | Hne]; [lia | lia].
  - apply Z.leb_gt in Hl0. destruct (d <=? n * 2 ^ (- l)); lia.
Qed.

(** Rounding a value of [0, 2^k) moves it by at most [2^(k-54)], half a
    unit in the last place, and leaves it non-negative. *)
Lemma binary64_near (q : Q) (k : Z) :
  0 <= k <= 52 -> (0 <= q)%Q -> (q < inject_Z (2 ^ k))%Q ->
  (0 <= binary64 q)%Q
  /\ (q - (1 # Z.to_pos (2 ^ (54 - k))) <= binary64 q)%Q
  /\ (binary64 q <= q + (1 # Z.to_pos (2 ^ (54 - k))))%Q.
Proof.
  intros Hk Hq0 Hqk.
  assert (Heps : (0 <= 1 # Z.to_pos (2 ^ (54 - k)))%Q) by discriminate.
  unfold binary64.
  pose proof (Qred_correct q) as Hred.
  set (q' := Qred q) in *.
  assert (Hnum : 0 <= Qnum q').
  { assert (H : (0 <= q')%Q) by (rewrite Hred; exact Hq0).
    unfold Qle in H. cbn in H. lia. }
  rewrite Z.abs_eq by exact Hnum.
  destruct (Z.eqb_spec (Qnum q') 0) as [Hzero | Hpos].
  { assert (H : (q == 0)%Q).
    { rewrite <- Hred. unfold Qeq. cbn. rewrite Hzero. reflexivity. }
    rewrite H. repeat split; lra. }
  set (n := Qnum q') in *. set (d := Qden q') in *.
  assert (Hn : 0 < n) by lia.
  assert (Hlt : n < Z.pos d * 2 ^ k).
  { assert (H : (q' < inject_Z (2 ^ k))%Q) by (rewrite Hred; exact Hqk).
    unfold Qlt, inject_Z in H. cbn [Qnum Qden] in H. fold n d in H. lia. }
  pose proof (ilog2_upper n (Z.pos d) k Hn ltac:(lia) ltac:(lia) Hlt) as Hlog.
  set (e := Z.max (ilog2 n (Z.pos d) - 52) (-1074)).
  assert (He : e <= k - 53) by (unfold e; lia).
  destruct (0 <=? e) eqn:He0; [apply Z.leb_le in He0; lia |].
  destruct (n <? 0) eqn:Hneg; [apply Z.ltb_lt in Hneg; lia |].
  rewrite Qred_correct.
  set (P := 2 ^ (- e)).
  assert (HP : 0 < P) by (apply Z.pow_pos_nonneg; lia).
  set (x := (n * P # d)%Q).
  destruct (py_round_near x) as [Hlow Hhigh].
  set (m := py_round x) in *.
  assert (Hx : (x == q * inject_Z P)%Q).
  { rewrite <- Hred. unfold x, Qeq, Qmult, inject_Z. cbn [Qnum Qden]. fold n d. lia. }
  assert (Hr : ((m # Z.to_pos P) * inject_Z P == inject_Z m)%Q).
  { unfold Qeq, Qmult, inject_Z. cbn [Qnum Qden]. rewrite Pos2Z.inj_mul, Z2Pos.id by lia. lia. }
  assert (Hhalf : ((1 # 2) <= (1 # Z.to_pos (2 ^ (54 - k))) * inject_Z P)%Q).
  { unfold Qle, Qmult, inject_Z. cbn [Qnum Qden].
    rewrite Pos2Z.inj_mul, Z2Pos.id by (apply Z.pow_pos_nonneg; lia).
    assert (2 ^ (54 - k) <= 2 * P).
    { unfold P. rewrite <- Z.pow_succ_r by lia. apply Z.pow_le_mono_r; lia. }
    lia. }
  assert (HPq : (0 < inject_Z P)%Q) by (unfold Qlt, inject_Z; cbn; lia).
  set (eps := (1 # Z.to_pos (2 ^ (54 - k)))%Q) in *.
  set (r := (m # Z.to_pos P)%Q) in *.
  split; [| split].
  - assert (Hm : (0 <= m)%Z).
    { assert (Hx0 : (0 <= x)%Q) by (rewrite Hx; apply Qmult_le_0_compat; lra).
      assert (H : (inject_Z (-1) < inject_Z m)%Q)
        by (change (inject_Z (-1)) with (-1)%Q; lra).
      rewrite <- Zlt_Qlt in H. lia. }
    unfold r, Qle. cbn [Qnum Qden]. lia.
  - apply (Qmult_le_r _ _ (inject_Z P) HPq).
    assert (H1 : ((q - eps) * inject_Z P == q * inject_Z P - eps * inject_Z P)%Q) by ring.
    rewrite H1, Hr, <- Hx. lra.
  - apply (Qmult_le_r _ _ (inject_Z P) HPq).
    assert (H1 : ((q + eps) * inject_Z P == q * inject_Z P + eps * inject_Z P)%Q) by ring.
    rewrite H1, Hr, <- Hx. lra.
Qed.

Ltac binary64_bounds q k H :=
  let Hpos := fresh H "_pos" in
  let Hlow := fresh H "_low" in
  let Hhigh := fresh H "_high" in
  let c := eval vm_compute in (Z.to_pos (2 ^ (54 - k))) in
  let b := eval vm_compute in (2 ^ k)%Z in
  assert (Hlow : (0 <= binary64 q)%Q
                 /\ (q - (1 # c) <= binary64 q)%Q /\ (binary64 q <= q + (1 # c))%Q)
    by (apply (binary64_near q k);
        [lia | lra | change (inject_Z (2 ^ k)) with (inject_Z b); unfold inject_Z; lra]);
  destruct Hlow as (Hpos & Hlow & Hhigh).

Ltac float_literal t :=
  let v := eval vm_compute in t in
  let H := fresh in
  assert (H : t = v) by (vm_compute; reflexivity); rewrite H; clear H.

(** From means in [0, 255], rounded once, the luminance that the source
    computes is within [2^-43] of the exact one: eight roundings, each of
    at most [2^-46], and the three rounded coefficients. *)
Lemma computed_luminance_near (xr xg xb : Q) :
  (0 <= xr <= 255)%Q -> (0 <= xg <= 255)%Q -> (0 <= xb <= 255)%Q ->
  (luminance_of (xr, xg, xb) - (1 # 8796093022208)
   <= computed_luminance (binary64 xr, binary64 xg, binary64 xb))%Q
  /\ (computed_luminance (binary64 xr, binary64 xg, binary64 xb)
      <= luminance_of (xr, xg, xb) + (1 # 8796093022208))%Q.
Proof.
  intros Hr Hg Hb.
  unfold luminance_of, computed_luminance, fadd, fmul.
  float_literal (float 0.299). float_literal (float 0.587). float_literal (float 0.114).
  binary64_bounds xr 8 Hmr. set (mr := binary64 xr) in *. clearbody mr.
  binary64_bounds xg 8 Hmg. set (mg := binary64 xg) in *. clearbody mg.
  binary64_bounds xb 8 Hmb. set (mb := binary64 xb) in *. clearbody mb.
  match goal with
  | |- context [binary64 (?c * mr)] =>
      binary64_bounds (c * mr)%Q 7 Hp1; set (p1 := binary64 (c * mr)) in *; clearbody p1
  end.
  match goal with
  | |- context [binary64 (?c * mg)] =>
      binary64_bounds (c * mg)%Q 8 Hp2; set (p2 := binary64 (c * mg)) in *; clearbody p2
  end.
  match goal with
  | |- context [binary64 (?c * mb)] =>
      binary64_bounds (c * mb)%Q 5 Hp3; set (p3 := binary64 (c * mb)) in *; clearbody p3
  end.
  binary64_bounds (p1 + p2)%Q 8 Hs1. set (s1 := binary64 (p1 + p2)) in *. clearbody s1.
  binary64_bounds (s1 + p3)%Q 8 Hs2. set (s2 := binary64 (s1 + p3)) in *. clearbody s2.
  split; lra.
Qed.

Lemma band_sum_bounds (band : Z * Z * Z -> Z) (data : list (Z * Z * Z)) :
  Forall (fun px => 0 <= band px <= 255) data ->
  0 <= band_sum band data <= 255 * Z.of_nat (length data).
Proof.
  unfold band_sum.
  assert (Hfold : forall acc, Forall (fun px => 0 <= band px <= 255) data ->
                    acc <= fold_left (fun acc px => acc + band px) data acc
                    <= acc + 255 * Z.of_nat (length data)).
  { induction data as [| px data IH]; intros acc Hall.
    - cbn. lia.
    - inversion Hall as [| ? ? Hpx Hrest]; subst.
      cbn [fold_left length]. specialize (IH (acc + band px) Hrest). lia. }
  intros Hall. specialize (Hfold 0 Hall). lia.
Qed.

Lemma getdata_bytes (image : Image) (band : Z * Z * Z -> Z) :
  rgb_bytes image ->
  (band = (fun px => fst (fst px)) \/ band = (fun px => snd (fst px)) \/ band = snd) ->
  Forall (fun px => 0 <= band px <= 255) (getdata image).
Proof.
  intros Hbytes Hband. unfold getdata.
  apply Forall_forall. intros px Hin.
  apply list_elem_of_In, in_flat_map in Hin. destruct Hin as (y & _ & Hin).
  apply in_map_iff in Hin. destruct Hin as (x & <- & _).
  specialize (Hbytes x y). destruct (getpixel image x y) as [[r g] b].
  destruct Hband as [-> | [-> | ->]]; cbn; tauto.
Qed.

Lemma mean_band_bounds (s n : Z) :
  0 < n -> 0 <= s <= 255 * n -> (0 <= inject_Z s / inject_Z n <= 255)%Q.
Proof.
  intros Hn Hs.
  assert (HN : (0 < inject_Z n)%Q) by (unfold Qlt, inject_Z; cbn; lia).
  split.
  - apply Qle_shift_div_l; [exact HN |].
    unfold Qle, Qmult, inject_Z. cbn [Qnum Qden]. lia.
  - apply Qle_shift_div_r; [exact HN |].
    unfold Qle, Qmult, inject_Z. cbn [Qnum Qden]. lia.
Qed.

(** The exact luminance of at most [2^32] pixels is a multiple of
    [1 / (1000 n)]: off 128, it is at least [1 / (1000 * 2^32)] away. *)
Lemma exact_luminance_gap (sr sg sb n : Z) :
  0 < n <= 2 ^ 32 ->
  let luminance :=
    luminance_of ((inject_Z sr / inject_Z n)%Q, (inject_Z sg / inject_Z n)%Q,
                  (inject_Z sb / inject_Z n)%Q) in
  ((luminance < 128)%Q -> (luminance <= 128 - (1 # 4294967296000))%Q)
  /\ ((128 < luminance)%Q -> (128 + (1 # 4294967296000) <= luminance)%Q).
Proof.
  intros Hn luminance.
  assert (HN : (0 < inject_Z n)%Q) by (unfold Qlt, inject_Z; cbn; lia).
  assert (HN32 : (inject_Z n <= 4294967296)%Q).
  { change 4294967296%Q with (inject_Z (2 ^ 32)). rewrite <- Zle_Qle. lia. }
  set (total := 299 * sr + 587 * sg + 114 * sb).
  assert (Htotal : (luminance * (1000 * inject_Z n) == inject_Z total)%Q).
  { unfold luminance, luminance_of, total.
    rewrite !inject_Z_plus, !inject_Z_mult.
    change (inject_Z 299) with 299%Q. change (inject_Z 587) with 587%Q.
    change (inject_Z 114) with 114%Q. field. lra. }
  assert (Hscale : (0 < 1000 * inject_Z n)%Q) by lra.
  clearbody luminance.
  split; intros Hside.
  - assert (Hlt : (inject_Z total < inject_Z (128000 * n))%Q).
    { rewrite <- Htotal, inject_Z_mult. change (inject_Z 128000) with 128000%Q.
      assert (H : (luminance * (1000 * inject_Z n) < 128 * (1000 * inject_Z n))%Q)
        by (apply Qmult_lt_r; assumption).
      lra. }
    rewrite <- Zlt_Qlt in Hlt.
    assert (Hle : (inject_Z total + 1 <= inject_Z (128000 * n))%Q).
    { change 1%Q with (inject_Z 1). rewrite <- inject_Z_plus, <- Zle_Qle. lia. }
    rewrite inject_Z_mult in Hle. change (inject_Z 128000) with 128000%Q in Hle.
    apply (Qmult_le_r _ _ (1000 * inject_Z n) Hscale). rewrite Htotal. lra.
  - assert (Hlt : (inject_Z (128000 * n) < inject_Z total)%Q).
    { rewrite <- Htotal, inject_Z_mult. change (inject_Z 128000) with 128000%Q.
      assert (H : (128 * (1000 * inject_Z n) < luminance * (1000 * inject_Z n))%Q)
        by (apply Qmult_lt_r; assumption).
      lra. }
    rewrite <- Zlt_Qlt in Hlt.
    assert (Hle : (inject_Z (128000 * n) + 1 <= inject_Z total)%Q).
    { change 1%Q with (inject_Z 1). rewrite <- inject_Z_plus, <- Zle_Qle. lia. }
    rewrite inject_Z_mult in Hle. change (inject_Z 128000) with 128000%Q in Hle.
    apply (Qmult_le_r _ _ (1000 * inject_Z n) Hscale). rewrite Htotal. lra.
Qed.

Lemma tool_contrast_color_threshold (watermark_color : Z * Z * Z) (image region : Image)
    (x y width height : Z) (mean : Q * Q * Q) :
  crop image (x, y, x + width, y + height) = Some region ->
  stat_mean region = Some mean ->
  ((128 < computed_luminance mean)%Q ->
     WatermarkTool.calculate_contrast_color_for_region watermark_color image x y width height
     = (0, 0, 0))
  /\ ((computed_luminance mean <= 128)%Q ->
     WatermarkTool.calculate_contrast_color_for_region watermark_color image x y width height
     = (255, 255, 255)).
Proof.
  intros Hcrop Hmean. unfold WatermarkTool.calculate_contrast_color_for_region.
  rewrite Hcrop, Hmean. destruct mean as [[r g] b]. unfold computed_luminance.
  split; intros HL.
  - apply Qlt_bool_iff in HL. now rewrite HL.
  - apply Qlt_bool_false_iff in HL. now rewrite HL.
Qed.

Lemma crop_bytes (image region : Image) (box : Z * Z * Z * Z) :
  rgb_bytes image -> crop image box = Some region -> rgb_bytes region.
Proof.
  intros Hbytes Hcrop. destruct box as [[[x0 y0] x1] y1]. unfold crop in Hcrop.
  destruct ((x1 <? x0) || (y1 <? y0)); [discriminate |]. injection Hcrop as <-.
  intros x y. cbn [getpixel].
  destruct (_ && _); [apply Hbytes | lia].
Qed.

(** X26. On a region of positive width and height of an RGB image, of at
    most 2^32 pixels, the rounding of the float arithmetic does not change
    the answer off the tie: where the exact luminance of the exact mean
    colour is below 128 both [calculate_contrast_color_for_region] and
    [_calculate_contrast_color] answer white, where it is above 128 both
    answer black. *)
Theorem contrast_colors_follow_the_exact_luminance
    (watermark_color : Z * Z * Z) (image : Image) (x y width height : Z) :
  0 < width -> 0 < height -> width * height <= 2 ^ 32 ->
  rgb_bytes image ->
  exists region,
    crop image (x, y, x + width, y + height) = Some region
    /\ ((luminance_of (exact_mean region) < 128)%Q ->
        WatermarkTool.calculate_contrast_color_for_region watermark_color image
          x y width height = (255, 255, 255)
        /\ WatermarkApp._calculate_contrast_color (Some region) = (255, 255, 255))
    /\ ((128 < luminance_of (exact_mean region))%Q ->
        WatermarkTool.calculate_contrast_color_for_region watermark_color image
          x y width height = (0, 0, 0)
        /\ WatermarkApp._calculate_contrast_color (Some region) = (0, 0, 0)).
Proof.
  intros Hw Hh Harea Hbytes.
  destruct (crop image (x, y, x + width, y + height)) as [region |] eqn:Hcrop.
  2: { unfold crop in Hcrop.
       destruct ((x + width <? x) || (y + height <? y)) eqn:Hrev; [| discriminate].
       apply orb_true_iff in Hrev. destruct Hrev as [Hrev | Hrev];
         apply Z.ltb_lt in Hrev; lia. }
  assert (Hsize : size region = (width, height)).
  { unfold crop in Hcrop.
    destruct ((x + width <? x) || (y + height <? y)); [discriminate |].
    injection Hcrop as <-. cbn. f_equal; lia. }
  pose proof (crop_bytes _ _ _ Hbytes Hcrop) as Hregion.
  exists region. split; [reflexivity |].
  set (data := getdata region).
  set (n := Z.of_nat (length data)).
  assert (Hn : n = width * height).
  { unfold n, data. rewrite getdata_length, Hsize. cbn [fst snd]. lia. }
  assert (Hn0 : 0 < n) by nia.
  set (sr := band_sum (fun px => fst (fst px)) data).
  set (sg := band_sum (fun px => snd (fst px)) data).
  set (sb := band_sum (fun px => snd px) data).
  assert (Hsr : 0 <= sr <= 255 * n)
    by (apply band_sum_bounds, getdata_bytes; [exact Hregion | auto]).
  assert (Hsg : 0 <= sg <= 255 * n)
    by (apply band_sum_bounds, getdata_bytes; [exact Hregion | auto]).
  assert (Hsb : 0 <= sb <= 255 * n)
    by (apply band_sum_bounds, getdata_bytes; [exact Hregion | auto]).
  set (xr := (inject_Z sr / inject_Z n)%Q).
  set (xg := (inject_Z sg / inject_Z n)%Q).
  set (xb := (inject_Z sb / inject_Z n)%Q).
  assert (Hexact : exact_mean region = (xr, xg, xb)) by reflexivity.
  assert (Hmean : stat_mean region = Some (binary64 xr, binary64 xg, binary64 xb)).
  { unfold stat_mean. fold data n.
    destruct (n =? 0) eqn:Hzero; [apply Z.eqb_eq in Hzero; lia | reflexivity]. }
  destruct (computed_luminance_near xr xg xb) as [Hlow Hhigh];
    try (apply mean_band_bounds; assumption).
  destruct (exact_luminance_gap sr sg sb n ltac:(lia)) as [Hbelow Habove].
  fold xr xg xb in Hbelow, Habove.
  destruct (tool_contrast_color_threshold watermark_color image region x y width height
              _ Hcrop Hmean) as [Htool_black Htool_white].
  destruct (app_contrast_color_threshold region _
              ltac:(rewrite Hsize; cbn; lia) ltac:(rewrite Hsize; cbn; lia) Hmean)
    as [Happ_white Happ_black].
  rewrite Hexact.
  set (computed := computed_luminance (binary64 xr, binary64 xg, binary64 xb)) in *.
  set (luminance := luminance_of (xr, xg, xb)) in *.
  clearbody computed luminance.
  split; intros Hside.
  - specialize (Hbelow Hside). split; [apply Htool_white | apply Happ_white]; lra.
  - specialize (Habove Hside). split; [apply Htool_black | apply Happ_black]; lra.
Qed.

Lemma contrast_colors_follow_the_exact_luminance_near_grey :
  0 < 4 /\ 0 < 2 /\ 4 * 2 <= 2 ^ 32
  /\ rgb_bytes (uniform_image 10 10 (128, 128, 129))
  /\ exists region,
       crop (uniform_image 10 10 (128, 128, 129)) (3, 3, 3 + 4, 3 + 2) = Some region
       /\ (128 < luminance_of (exact_mean region))%Q
       /\ WatermarkTool.calculate_contrast_color_for_region (255, 255, 0)
            (uniform_image 10 10 (128, 128, 129)) 3 3 4 2 = (0, 0, 0)
       /\ WatermarkApp._calculate_contrast_color (Some region) = (0, 0, 0).
Proof.
  assert (Hbytes : rgb_bytes (uniform_image 10 10 (128, 128, 129)))
    by (intros x y; cbn; lia).
  assert (Harea : 4 * 2 <= 2 ^ 32) by (vm_compute; discriminate).
  split; [lia | split; [lia | split; [exact Harea | split; [exact Hbytes |]]]].
  destruct (contrast_colors_follow_the_exact_luminance (255, 255, 0)
              (uniform_image 10 10 (128, 128, 129)) 3 3 4 2
              ltac:(lia) ltac:(lia) Harea Hbytes)
    as (region & Hcrop & _ & Habove).
  exists region. split; [exact Hcrop |].
  assert (Hside : (128 < luminance_of (exact_mean region))%Q).
  { injection Hcrop as <-. vm_compute. reflexivity. }
  split; [exact Hside | exact (Habove Hside)].
Defined.

(** ** The draw call of the tool *)

Lemma tool_adaptive_search_maximal (text_width_at : Z -> option Q) (target : Q) (top : Z)
    (iterations : nat) :
  forall low high best r,
    high - low + 1 < 2 ^ Z.of_nat iterations ->
    low - 1 <= best ->
    (forall a b wa wb, low <= a -> a <= b -> b <= top ->
       text_width_at a = Some wa -> text_width_at b = Some wb -> (wa <= wb)%Q) ->
    (forall s w, high < s -> s <= top -> text_width_at s = Some w -> (target < w)%Q) ->
    WatermarkTool.adaptive_search text_width_at target iterations low high best = Some r ->
    forall s w, r < s -> s <= top -> text_width_at s = Some w -> (target < w)%Q.
Proof.
  induction iterations as [| n IH]; intros low high best r Hfuel Hbest Hmono Habove; cbn.
  - intros [= <-] s w Hs Htop Hw. apply (Habove s w); [| exact Htop | exact Hw].
    change (2 ^ Z.of_nat 0) with 1 in Hfuel. lia.
  - destruct (high <? low) eqn:Hrange.
    { apply Z.ltb_lt in Hrange. intros [= <-] s w Hs Htop Hw.
      apply (Habove s w); [lia | exact Htop | exact Hw]. }
    apply Z.ltb_ge in Hrange.
    assert (Hpow : 2 ^ Z.of_nat (S n) = 2 * 2 ^ Z.of_nat n)
      by (rewrite Nat2Z.inj_succ, Z.pow_succ_r; lia).
    assert (Hhalf : 2 * ((low + high) / 2) <= low + high < 2 * ((low + high) / 2) + 2).
    { pose proof (Z.div_mod (low + high) 2 ltac:(lia)).
      pose proof (Z.mod_pos_bound (low + high) 2 ltac:(lia)). lia. }
    destruct (text_width_at ((low + high) / 2)) as [wmid |] eqn:Hmid; [| discriminate].
    destruct (Qle_bool wmid target) eqn:Hfit; intros Hrec.
    + apply (IH ((low + high) / 2 + 1) high ((low + high) / 2) r);
        try lia; try assumption.
      intros a b wa wb Ha Hab Hb. apply Hmono; lia.
    + apply Qle_bool_false_iff in Hfit.
      apply (IH low ((low + high) / 2 - 1) best r); try lia; try assumption.
      intros s w Hs Htop Hw.
      destruct (Z_lt_le_dec high s) as [Hhi | Hhi]; [now apply (Habove s w) |].
      apply Qlt_le_trans with wmid; [exact Hfit |].
      apply (Hmono ((low + high) / 2) s); try assumption; lia.
Qed.

(** X24. When the measured text width does not decrease as the font size
    grows and the range from [min_size] to [max_size] holds fewer than
    1024 sizes, the size [WatermarkTool.calculate_adaptive_font_size]
    returns is the largest one that fits: at every larger size up to
    [max_size] the measured text is wider than 0.8 of the image width. *)
Theorem tool_adaptive_font_size_is_the_largest_that_fits
    (text_width_at : Z -> option Q) (img_w img_h s : Z) :
  WatermarkTool.calculate_adaptive_font_size text_width_at (img_w, img_h) = Some s ->
  WatermarkTool.max_size img_w img_h - WatermarkTool.min_size img_w img_h < 1023 ->
  (forall a b wa wb,
      WatermarkTool.min_size img_w img_h <= a -> a <= b ->
      b <= WatermarkTool.max_size img_w img_h ->
      text_width_at a = Some wa -> text_width_at b = Some wb -> (wa <= wb)%Q) ->
  forall s' w,
    s < s' -> s' <= WatermarkTool.max_size img_w img_h ->
    text_width_at s' = Some w -> (inject_Z img_w * 0.8 < w)%Q.
Proof.
  unfold WatermarkTool.calculate_adaptive_font_size.
  set (mn := WatermarkTool.min_size img_w img_h).
  set (mx := WatermarkTool.max_size img_w img_h).
  destruct (WatermarkTool.adaptive_search _ _ _ _ _ _) as [best |] eqn:Hsearch;
    [| discriminate].
  intros [= <-] Hrange Hmono s' w Hs' Htop Hw.
  apply (tool_adaptive_search_maximal text_width_at (inject_Z img_w * 0.8) mx 10
           mn mx mn best) with (s := s'); try assumption; try lia.
Qed.

Lemma tool_adaptive_font_size_is_the_largest_that_fits_on_a_photo :
  let text_width_at (size : Z) := Some (inject_Z (10 * size)) in
  WatermarkTool.calculate_adaptive_font_size text_width_at (4000, 3000) = Some 320
  /\ (inject_Z 4000 * 0.8 < inject_Z (10 * 321))%Q.
Proof.
  intros text_width_at.
  assert (Hsize : WatermarkTool.calculate_adaptive_font_size text_width_at (4000, 3000)
                  = Some 320) by (vm_compute; reflexivity).
  split; [exact Hsize |].
  apply (tool_adaptive_font_size_is_the_largest_that_fits text_width_at 4000 3000 320 Hsize)
    with (s' := 321).
  - vm_compute. reflexivity.
  - intros a b wa wb _ Hab _ [= <-] [= <-]. rewrite <- Zle_Qle. lia.
  - lia.
  - vm_compute. discriminate.
  - reflexivity.
Defined.

Lemma tool_contrast_color_is_black_or_white
    (watermark_color : Z * Z * Z) (image : Image) (x y width height : Z) :
  0 < width -> 0 < height ->
  WatermarkTool.calculate_contrast_color_for_region watermark_color image x y width height
  = (0, 0, 0)
  \/ WatermarkTool.calculate_contrast_color_for_region watermark_color image x y width height
     = (255, 255, 255).
Proof.
  intros Hw Hh.
  unfold WatermarkTool.calculate_contrast_color_for_region.
  destruct (crop image (x, y, x + width, y + height)) as [region |] eqn:Hcrop.
  2: { unfold crop in Hcrop.
       destruct ((x + width <? x) || (y + height <? y)) eqn:Hrev; [| discriminate].
       apply orb_true_iff in Hrev. destruct Hrev as [Hrev | Hrev];
         apply Z.ltb_lt in Hrev; lia. }
  assert (Hsize : size region = (width, height)).
  { unfold crop in Hcrop.
    destruct ((x + width <? x) || (y + height <? y)); [discriminate |].
    injection Hcrop as <-. cbn. f_equal; lia. }
  destruct (stat_mean_defined region) as [[[r g] b] Hmean];
    [rewrite Hsize; exact Hw | rewrite Hsize; exact Hh |].
  rewrite Hmean. destruct (Qlt_bool 128 _); [now left | now right].
Qed.

Lemma tool_calculate_position_inside (position : text) (img_w img_h text_w text_h : Z) :
  0 <= text_w -> 0 <= text_h ->
  text_w + 10 <= img_w -> text_h + 10 <= img_h ->
  let xy := WatermarkTool.calculate_position position (img_w, img_h) (text_w, text_h) in
  0 <= fst xy /\ fst xy + text_w <= img_w /\ 0 <= snd xy /\ snd xy + text_h <= img_h.
Proof.
  intros Hw0 Hh0 Hw Hh. unfold WatermarkTool.calculate_position.
  assert (Hcx : 0 <= (img_w - text_w) / 2 <= img_w - text_w)
    by (split; [apply Z.div_le_lower_bound | apply Z.div_le_upper_bound]; lia).
  assert (Hcy : 0 <= (img_h - text_h) / 2 <= img_h - text_h)
    by (split; [apply Z.div_le_lower_bound | apply Z.div_le_upper_bound]; lia).
  repeat match goal with
         | |- context [text_eqb position ?a] => destruct (text_eqb position a)
         end;
    cbn [fst snd]; lia.
Qed.

(** X25. Whenever [add_watermark_to_image] gets to its draw call, the
    call draws the text it was given, at the size whose measured extent
    positioned it; for an opacity from 0 to 100 the alpha of the fill is
    [opacity * 255 / 100] rounded down, between 0 and 255; the colour is
    the user's colour without high-contrast mode, and black or white with
    it when the extent is positive; and when the extent plus a 10 pixel
    margin fits into the image, the rectangle of the text lies inside the
    image. *)
Theorem tool_draw_call_is_well_formed
    (multi_size_var high_contrast_var : bool) (font_size opacity : Z)
    (watermark_color : Z * Z * Z) (position_var : text)
    (textbbox : text -> Z -> option (Z * Z)) (image : Image) (t : text)
    (d : WatermarkTool.Drawing) :
  WatermarkTool.add_watermark_to_image multi_size_var high_contrast_var font_size opacity
    watermark_color position_var textbbox image t = Some d ->
  0 <= opacity <= 100 ->
  WatermarkTool.draw_text d = t
  /\ snd (WatermarkTool.draw_fill d) = opacity * 255 / 100
  /\ 0 <= snd (WatermarkTool.draw_fill d) <= 255
  /\ (high_contrast_var = false -> fst (WatermarkTool.draw_fill d) = watermark_color)
  /\ (multi_size_var = false -> WatermarkTool.draw_font_size d = font_size)
  /\ exists text_width text_height,
       textbbox t (WatermarkTool.draw_font_size d) = Some (text_width, text_height)
       /\ WatermarkTool.draw_xy d
          = WatermarkTool.calculate_position position_var (size image)
              (text_width, text_height)
       /\ (high_contrast_var = true -> 0 < text_width -> 0 < text_height ->
           fst (WatermarkTool.draw_fill d) = (0, 0, 0)
           \/ fst (WatermarkTool.draw_fill d) = (255, 255, 255))
       /\ (0 <= text_width -> 0 <= text_height ->
           text_width + 10 <= fst (size image) -> text_height + 10 <= snd (size image) ->
           0 <= fst (WatermarkTool.draw_xy d)
           /\ fst (WatermarkTool.draw_xy d) + text_width <= fst (size image)
           /\ 0 <= snd (WatermarkTool.draw_xy d)
           /\ snd (WatermarkTool.draw_xy d) + text_height <= snd (size image)).
Proof.
  unfold WatermarkTool.add_watermark_to_image.
  intros Hdraw Hopacity.
  assert (Halpha : WatermarkTool.opacity_value opacity = opacity * 255 / 100)
    by (apply (opacity_value_div opacity); lia).
  assert (Hsize : exists size0,
             (if multi_size_var
              then WatermarkTool.calculate_adaptive_font_size
                     (fun mid => option_map (fun wh => inject_Z (fst wh)) (textbbox t mid))
                     (size image)
              else Some font_size) = Some size0
             /\ (multi_size_var = false -> size0 = font_size)).
  { destruct multi_size_var.
    - destruct (WatermarkTool.calculate_adaptive_font_size _ _) as [size0 |];
        [| discriminate].
      exists size0. split; [reflexivity | discriminate].
    - exists font_size. split; [reflexivity | reflexivity]. }
  destruct Hsize as (size0 & Esize & Hfixed). rewrite Esize in Hdraw.
  destruct (textbbox t size0) as [[text_width text_height] |] eqn:Hbox; [| discriminate].
  destruct (WatermarkTool.calculate_position position_var (size image)
              (text_width, text_height)) as [x y] eqn:Hpos.
  injection Hdraw as <-. cbn [WatermarkTool.draw_text WatermarkTool.draw_fill
    WatermarkTool.draw_font_size WatermarkTool.draw_xy fst snd].
  split; [reflexivity |]. split; [exact Halpha |]. split.
  { rewrite Halpha. split; [apply Z.div_pos; lia | apply Z.div_le_upper_bound; lia]. }
  split; [now intros -> |]. split; [exact Hfixed |].
  exists text_width, text_height. split; [exact Hbox |].
  split; [first [reflexivity | symmetry; exact Hpos] |]. split.
  - intros -> Hw Hh. now apply tool_contrast_color_is_black_or_white.
  - intros Hw0 Hh0 Hw Hh.
    pose proof (tool_calculate_position_inside position_var
                  (fst (size image)) (snd (size image)) text_width text_height
                  Hw0 Hh0 Hw Hh) as Hinside.
    rewrite <- surjective_pairing, Hpos in Hinside. exact Hinside.
Qed.

Lemma tool_draw_call_is_well_formed_example :
  let textbbox (t : text) (size : Z) := Some (Z.of_nat (length t) * size / 2, size) in
  let image := uniform_image 400 300 (250, 250, 250) in
  WatermarkTool.add_watermark_to_image false true 20 80 (255, 255, 0)
    WatermarkApp.BOTTOM_RIGHT textbbox image (str "Hello")
  = Some {| WatermarkTool.draw_xy := (340, 270);
            WatermarkTool.draw_text := str "Hello";
            WatermarkTool.draw_font_size := 20;
            WatermarkTool.draw_fill := ((0, 0, 0), 204) |}
  /\ 0 <= 80 <= 100
  /\ 204 = 80 * 255 / 100.
Proof.
  intros textbbox image.
  assert (Hdraw : WatermarkTool.add_watermark_to_image false true 20 80 (255, 255, 0)
                    WatermarkApp.BOTTOM_RIGHT textbbox image (str "Hello")
                  = Some {| WatermarkTool.draw_xy := (340, 270);
                            WatermarkTool.draw_text := str "Hello";
                            WatermarkTool.draw_font_size := 20;
                            WatermarkTool.draw_fill := ((0, 0, 0), 204) |})
    by (vm_compute; reflexivity).
  split; [exact Hdraw |]. split; [lia |].
  exact (proj1 (proj2 (tool_draw_call_is_well_formed false true 20 80 (255, 255, 0)
                         WatermarkApp.BOTTOM_RIGHT textbbox image (str "Hello") _
                         Hdraw ltac:(lia)))).
Defined.

(** ** The region analysed in high-contrast mode *)

Lemma py_int_le_upper (q : Q) (n : Z) : (q <= inject_Z n)%Q -> py_int q <= n.
Proof.
  destruct q as [a d]. unfold Qle, py_int, inject_Z. cbn.
  intros H. Z.quot_rem_to_equations. nia.
Qed.

Lemma py_int_ge_lower (q : Q) (n : Z) : (inject_Z n <= q)%Q -> n <= py_int q.
Proof.
  destruct q as [a d]. unfold Qle, py_int, inject_Z. cbn.
  intros H. Z.quot_rem_to_equations. nia.
Qed.

Lemma qmax_spec (a b : Q) :
  (a <= qmax a b)%Q /\ (b <= qmax a b)%Q /\ (qmax a b <= a \/ qmax a b <= b)%Q.
Proof.
  unfold qmax. destruct (Qlt_bool a b) eqn:H.
  - apply Qlt_bool_iff in H. split; [| split]; lra.
  - apply Qlt_bool_false_iff in H. split; [| split]; lra.
Qed.

Lemma qmin_spec (a b : Q) :
  (qmin a b <= a)%Q /\ (qmin a b <= b)%Q /\ (a <= qmin a b \/ b <= qmin a b)%Q.
Proof.
  unfold qmin. destruct (Qlt_bool b a) eqn:H.
  - apply Qlt_bool_iff in H. split; [| split]; lra.
  - apply Qlt_bool_false_iff in H. split; [| split]; lra.
Qed.

(** X7. In [process_single_image], for a text estimate of at least one
    pixel each way that is no larger than the image, and the origin that
    [calculate_position] returns for it (any anchor), the region analysed
    in high-contrast mode starts at that origin, is as wide as the
    estimate, is not empty and lies inside the image; so the colour drawn
    is the contrast colour of that crop, black or white, and never the
    user's colour. *)
Theorem high_contrast_region_is_inside_the_image
    (color : Z * Z * Z) (image_rgba : Image) (text_w text_h : Z) (position : text) :
  let img_w := fst (size image_rgba) in
  let img_h := snd (size image_rgba) in
  let xy := WatermarkApp.calculate_position (img_w, img_h) (text_w, text_h) position in
  let box :=
    WatermarkApp.watermark_bbox img_w img_h (inject_Z (fst xy)) (inject_Z (snd xy))
      (inject_Z text_w) (inject_Z text_h) in
  let final :=
    WatermarkApp.final_color_rgb color true image_rgba
      (inject_Z (fst xy)) (inject_Z (snd xy)) (inject_Z text_w) (inject_Z text_h) in
  1 <= text_w <= img_w -> 1 <= text_h <= img_h ->
  (exists y1,
      box = (fst xy, snd xy, fst xy + text_w, y1)
      /\ 0 <= fst xy /\ fst xy + text_w <= img_w
      /\ 0 <= snd xy /\ snd xy < y1 /\ y1 <= img_h)
  /\ final = WatermarkApp._calculate_contrast_color (crop image_rgba box)
  /\ (final = (0, 0, 0) \/ final = (255, 255, 255)).
Proof.
  intros img_w img_h xy box final Hw Hh.
  pose proof (app_calculate_position_within_image img_w img_h text_w text_h position
                ltac:(lia) ltac:(lia)) as Hpos.
  fold xy in Hpos. cbv zeta in Hpos. destruct Hpos as [Hx Hy].
  set (x := fst xy) in *. set (y := snd xy) in *.
  assert (Hbox : exists y1,
             box = (x, y, x + text_w, y1) /\ y < y1 /\ y1 <= img_h).
  { unfold box, WatermarkApp.watermark_bbox.
    pose proof (qmax_spec 0 (inject_Z x)) as (Hl1 & Hl2 & Hl3).
    pose proof (qmax_spec 0 (inject_Z y)) as (Ht1 & Ht2 & Ht3).
    pose proof (qmin_spec (inject_Z img_w - qmax 0 (inject_Z x)) (inject_Z text_w))
      as (Hw1 & Hw2 & Hw3).
    pose proof (qmin_spec (inject_Z img_h - qmax 0 (inject_Z y)) (inject_Z text_h * 1.5))
      as (Hh1 & Hh2 & Hh3).
    set (bl := qmax 0 (inject_Z x)) in *.
    set (bt := qmax 0 (inject_Z y)) in *.
    set (aw := qmin (inject_Z img_w - bl) (inject_Z text_w)) in *.
    set (ah := qmin (inject_Z img_h - bt) (inject_Z text_h * 1.5)) in *.
    assert (Qx : (0 <= inject_Z x)%Q) by (change 0%Q with (inject_Z 0); rewrite <- Zle_Qle; lia).
    assert (Qy : (0 <= inject_Z y)%Q) by (change 0%Q with (inject_Z 0); rewrite <- Zle_Qle; lia).
    assert (Qxw : (inject_Z x + inject_Z text_w <= inject_Z img_w)%Q)
      by (rewrite <- inject_Z_plus, <- Zle_Qle; lia).
    assert (Qyh : (inject_Z y + inject_Z text_h <= inject_Z img_h)%Q)
      by (rewrite <- inject_Z_plus, <- Zle_Qle; lia).
    assert (Qth : (1 <= inject_Z text_h)%Q)
      by (change 1%Q with (inject_Z 1); rewrite <- Zle_Qle; lia).
    assert (Ebl : (bl == inject_Z x)%Q) by (destruct Hl3; lra).
    assert (Ebt : (bt == inject_Z y)%Q) by (destruct Ht3; lra).
    assert (Eaw : (aw == inject_Z text_w)%Q) by (destruct Hw3; lra).
    exists (py_int (bt + ah)).
    assert (E0 : py_int bl = x).
    { apply Z.le_antisymm; [apply py_int_le_upper | apply py_int_ge_lower]; lra. }
    assert (E1 : py_int bt = y).
    { apply Z.le_antisymm; [apply py_int_le_upper | apply py_int_ge_lower]; lra. }
    assert (E2 : py_int (bl + aw) = x + text_w).
    { apply Z.le_antisymm; [apply py_int_le_upper | apply py_int_ge_lower];
        rewrite inject_Z_plus; lra. }
    rewrite E0, E1, E2. split; [reflexivity |]. split.
    - apply Z.lt_le_trans with (y + 1); [lia |].
      apply py_int_ge_lower. rewrite inject_Z_plus. change (inject_Z 1) with 1%Q.
      destruct Hh3; lra.
    - apply py_int_le_upper. lra. }
  destruct Hbox as (y1 & Ebox & Hy1 & Hy1').
  assert (Hfinal : final = WatermarkApp._calculate_contrast_color (crop image_rgba box)).
  { unfold final, WatermarkApp.final_color_rgb.
    destruct (size image_rgba) as [w h] eqn:Hsize.
    change w with img_w. change h with img_h. fold xy. fold x y. fold box. rewrite Ebox.
    replace (x <? x + text_w) with true by (symmetry; apply Z.ltb_lt; lia).
    replace (y <? y1) with true by (symmetry; apply Z.ltb_lt; lia).
    reflexivity. }
  split; [| split].
  - exists y1. repeat split; try assumption; lia.
  - exact Hfinal.
  - rewrite Hfinal. unfold WatermarkApp._calculate_contrast_color.
    destruct (crop image_rgba box) as [region |]; [| now left].
    destruct (_ || _); [now left |].
    destruct (stat_mean region) as [[[r g] b] |]; [| now left].
    destruct (Qlt_bool _ 128); [now right | now left].
Qed.

Lemma high_contrast_region_is_inside_the_image_bottom_right :
  let image := uniform_image 400 300 (250, 250, 250) in
  1 <= 95 <= 400 /\ 1 <= 40 <= 300
  /\ WatermarkApp.watermark_bbox 400 300 295 250 95 40 = (295, 250, 390, 300)
  /\ WatermarkApp.final_color_rgb (255, 255, 0) true image 295 250 95 40 = (0, 0, 0).
Proof.
  intros image.
  split; [lia | split; [lia | split; [reflexivity |]]].
  destruct (high_contrast_region_is_inside_the_image (255, 255, 0) image 95 40
              WatermarkApp.BOTTOM_RIGHT ltac:(cbn; lia) ltac:(cbn; lia))
    as (_ & Hfinal & _).
  etransitivity; [exact Hfinal |]. vm_compute. reflexivity.
Defined.

(** ** EXIF tags and the resolved text *)

Lemma exif_lookup_non_empty (exif_data : gmap Z exif_value) (tag : Z) (v : exif_value) :
  exif_data !! tag = Some v -> bool_decide (exif_data = ∅) = false.
Proof.
  intros Hv. apply bool_decide_eq_false. intros ->.
  rewrite lookup_empty in Hv. discriminate.
Qed.

(** X8. When tag 36867 (DateTimeOriginal) holds a non-empty string, both
    EXIF lookups answer from that tag alone: whatever tag 306 (DateTime)
    holds, the result is the reformatted timestamp when the cleaned string
    parses and the cleaned string itself when it does not. In particular
    a DateTimeOriginal that is blank after cleaning is shown as [N/A] even
    when DateTime holds a valid timestamp. *)
Theorem datetime_original_takes_precedence
    (image : Image) (exif_data : gmap Z exif_value) (s : text) (modified : exif_value) :
  exif_data !! 36867 = Some (ExifStr s) -> s <> [] ->
  let image' := with_exif image (<[306 := modified]> exif_data) in
  Utils.get_exif_datetime image'
  = Some (match strptime (cleaned s) FMT_EXIF with
          | Some dt => strftime dt
          | None => cleaned s
          end)
  /\ WatermarkApp._get_exif_datetime image'
     = Some (match WatermarkApp.parse_first (cleaned s) [FMT_EXIF; FMT_ISO] with
             | Some dt => strftime dt
             | None => cleaned s
             end)
  /\ (cleaned s = [] ->
      WatermarkApp._process_dynamic_text WatermarkApp.EXIF_DATE image' = str "N/A"
      /\ WatermarkTool.process_dynamic_text WatermarkApp.EXIF_DATE image' = str "N/A").
Proof.
  intros Horiginal Hs image'.
  assert (Hlookup : <[306 := modified]> exif_data !! 36867 = Some (ExifStr s))
    by (rewrite lookup_insert_ne by discriminate; exact Horiginal).
  assert (Hutils : Utils.get_exif_datetime image'
                   = Some (match strptime (cleaned s) FMT_EXIF with
                           | Some dt => strftime dt
                           | None => cleaned s
                           end)).
  { unfold Utils.get_exif_datetime, image', with_exif. cbn [getexif].
    rewrite (exif_lookup_non_empty _ _ _ Hlookup).
    unfold Utils.TAG_DATETIME_ORIGINAL. rewrite Hlookup.
    destruct s as [| c s]; [congruence |]. cbn [Utils.nonempty_str].
    fold (cleaned (c :: s)). now destruct (strptime _ _). }
  assert (Happ : WatermarkApp._get_exif_datetime image'
                 = Some (match WatermarkApp.parse_first (cleaned s) [FMT_EXIF; FMT_ISO] with
                         | Some dt => strftime dt
                         | None => cleaned s
                         end)).
  { unfold WatermarkApp._get_exif_datetime, image', with_exif. cbn [getexif].
    rewrite (exif_lookup_non_empty _ _ _ Hlookup).
    unfold WatermarkApp.TAG_DATETIME_ORIGINAL. rewrite Hlookup.
    destruct s as [| c s]; [congruence |]. cbn [WatermarkApp.nonempty_str].
    fold (cleaned (c :: s)). now destruct (WatermarkApp.parse_first _ _). }
  split; [exact Hutils | split; [exact Happ |]].
  intros Hblank. split.
  - unfold WatermarkApp._process_dynamic_text.
    rewrite Happ, Hblank. reflexivity.
  - rewrite tool_process_dynamic_text_unfold, Hutils, Hblank. reflexivity.
Qed.

Lemma datetime_original_takes_precedence_blank :
  let exif_data : gmap Z exif_value := {[ 36867 := ExifStr (str "   ") ]} in
  let image' :=
    with_exif (uniform_image 1 1 (0, 0, 0))
      (<[306 := ExifStr (str "2021:12:31 23:59:58")]> exif_data) in
  exif_data !! 36867 = Some (ExifStr (str "   "))
  /\ str "   " <> []
  /\ cleaned (str "   ") = []
  /\ WatermarkApp._process_dynamic_text WatermarkApp.EXIF_DATE image' = str "N/A".
Proof.
  intros exif_data image'.
  split; [reflexivity | split; [discriminate | split; [reflexivity |]]].
  exact (proj1 (proj2 (proj2 (datetime_original_takes_precedence
                                (uniform_image 1 1 (0, 0, 0)) exif_data (str "   ")
                                (ExifStr (str "2021:12:31 23:59:58"))
                                eq_refl ltac:(discriminate)))
                 eq_refl)).
Defined.

Lemma intercalate_plain (value : text) (pieces : list text) :
  ~ In 123 value -> Forall (fun p => ~ In 123 p) pieces ->
  ~ In 123 (intercalate value pieces).
Proof.
  intros Hvalue Hpieces.
  induction Hpieces as [| p pieces Hp Hrest IH]; [intros [] |].
  destruct pieces as [| q pieces]; [exact Hp |].
  change (intercalate value (p :: q :: pieces))
    with (p ++ value ++ intercalate value (q :: pieces)).
  rewrite !in_app_iff. tauto.
Qed.

Lemma resolve_pieces (value : text) (pieces : list text) :
  Forall (fun p => ~ In 123 p) pieces ->
  (if contains WatermarkApp.EXIF_DATE (intercalate WatermarkApp.EXIF_DATE pieces)
   then replace WatermarkApp.EXIF_DATE value (intercalate WatermarkApp.EXIF_DATE pieces)
   else intercalate WatermarkApp.EXIF_DATE pieces)
  = intercalate value pieces.
Proof.
  intros Hpieces.
  destruct pieces as [| p [| q pieces]].
  - reflexivity.
  - inversion Hpieces; subst. simpl. now rewrite contains_false_plain by assumption.
  - inversion Hpieces; subst. rewrite contains_at_joint by assumption.
    now rewrite replace_every_occurrence.
Qed.

Lemma zero_padded_plain (width : nat) (v : Z) : ~ In 123 (zero_padded width v).
Proof.
  revert v. induction width as [| n IH]; intros v; cbn; [tauto |].
  rewrite in_app_iff. intros [Hin | [Hin | []]]; [exact (IH _ Hin) |].
  pose proof (Z.mod_pos_bound v 10 ltac:(lia)). lia.
Qed.

Lemma strftime_plain (dt : datetime) : ~ In 123 (strftime dt).
Proof.
  unfold strftime. rewrite !in_app_iff.
  pose proof (zero_padded_plain 4 (year dt)).
  pose proof (zero_padded_plain 2 (month dt)).
  pose proof (zero_padded_plain 2 (day dt)).
  pose proof (zero_padded_plain 2 (hour dt)).
  pose proof (zero_padded_plain 2 (minute dt)).
  pose proof (zero_padded_plain 2 (second dt)).
  cbn [In]. intuition (try discriminate; auto).
Qed.

(** X9. When the value put in place of [{exif_date}] holds no opening
    brace (as every reformatted timestamp and [N/A] do), the text that
    [_process_dynamic_text] and [process_dynamic_text] return for a text
    made of brace-free pieces joined by the placeholder holds no
    placeholder any more, and resolving it once more changes nothing. *)
Theorem resolved_text_is_stable (image : Image) (pieces : list text) :
  Forall (fun p => ~ In 123 p) pieces ->
  (~ In 123 (WatermarkApp.or_not_available (WatermarkApp._get_exif_datetime image)) ->
   let resolved :=
     WatermarkApp._process_dynamic_text (intercalate WatermarkApp.EXIF_DATE pieces) image in
   contains WatermarkApp.EXIF_DATE resolved = false
   /\ WatermarkApp._process_dynamic_text resolved image = resolved)
  /\ (~ In 123 (WatermarkApp.or_not_available (Utils.get_exif_datetime image)) ->
      let resolved :=
        WatermarkTool.process_dynamic_text (intercalate WatermarkApp.EXIF_DATE pieces) image in
      contains WatermarkApp.EXIF_DATE resolved = false
      /\ WatermarkTool.process_dynamic_text resolved image = resolved)
  /\ (forall dt, ~ In 123 (WatermarkApp.or_not_available (Some (strftime dt))))
  /\ ~ In 123 (WatermarkApp.or_not_available None).
Proof.
  intros Hpieces. split; [| split; [| split]].
  - intros Hvalue resolved.
    assert (Hres : resolved
                   = intercalate
                       (WatermarkApp.or_not_available (WatermarkApp._get_exif_datetime image))
                       pieces)
      by (unfold resolved, WatermarkApp._process_dynamic_text; now apply resolve_pieces).
    assert (Hnone : contains WatermarkApp.EXIF_DATE resolved = false)
      by (rewrite Hres; apply contains_false_plain, intercalate_plain; assumption).
    split; [exact Hnone |].
    unfold WatermarkApp._process_dynamic_text at 1. now rewrite Hnone.
  - intros Hvalue resolved.
    assert (Hres : resolved
                   = intercalate
                       (WatermarkApp.or_not_available (Utils.get_exif_datetime image))
                       pieces)
      by (unfold resolved; rewrite tool_process_dynamic_text_unfold;
          now apply resolve_pieces).
    assert (Hnone : contains WatermarkApp.EXIF_DATE resolved = false)
      by (rewrite Hres; apply contains_false_plain, intercalate_plain; assumption).
    split; [exact Hnone |].
    rewrite tool_process_dynamic_text_unfold. now rewrite Hnone.
  - intros dt. rewrite or_not_available_strftime. apply strftime_plain.
  - cbn. intuition discriminate.
Qed.

Lemma resolved_text_is_stable_with_a_date :
  let image :=
    with_exif (uniform_image 1 1 (0, 0, 0))
      {[ 36867 := ExifStr (str "2023:05:01 12:34:56") ]} in
  let resolved := str "shot 2023-05-01 12:34:56 / 2023-05-01 12:34:56" in
  Forall (fun p => ~ In 123 p) [str "shot "; str " / "; str ""]
  /\ WatermarkApp._process_dynamic_text (str "shot {exif_date} / {exif_date}") image
     = resolved
  /\ WatermarkApp._process_dynamic_text resolved image = resolved.
Proof.
  intros image resolved.
  assert (Hpieces : Forall (fun p => ~ In 123 p) [str "shot "; str " / "; str ""]).
  { repeat constructor; cbn; intuition discriminate. }
  split; [exact Hpieces | split; [vm_compute; reflexivity |]].
  refine (proj2 (proj1 (resolved_text_is_stable image _ Hpieces) _)).
  change (WatermarkApp.or_not_available (WatermarkApp._get_exif_datetime image))
    with (str "2023-05-01 12:34:56").
  cbn. intuition discriminate.
Defined.

(** X23. The two EXIF lookups differ only in the second format that
    [WatermarkApp._get_exif_datetime] tries: on every image whose date tag,
    once cleaned, parses in the EXIF format or does not parse in the
    [%Y-%m-%d %H:%M:%S] format either, [utils.get_exif_datetime] and
    [WatermarkApp._get_exif_datetime] return the same value. *)
Theorem exif_lookups_agree (image : Image) :
  (forall exif_data s,
      getexif image = Some exif_data -> first_date_tag exif_data = Some s ->
      strptime (cleaned s) FMT_EXIF <> None \/ strptime (cleaned s) FMT_ISO = None) ->
  Utils.get_exif_datetime image = WatermarkApp._get_exif_datetime image.
Proof.
  intros Hformat.
  unfold Utils.get_exif_datetime, WatermarkApp._get_exif_datetime.
  destruct (getexif image) as [exif_data |] eqn:Hexif; [| reflexivity].
  specialize (Hformat exif_data). unfold first_date_tag in Hformat.
  destruct (bool_decide (exif_data = ∅)); [reflexivity |].
  change WatermarkApp.TAG_DATETIME_ORIGINAL with Utils.TAG_DATETIME_ORIGINAL.
  change WatermarkApp.TAG_DATETIME with Utils.TAG_DATETIME.
  change WatermarkApp.nonempty_str with Utils.nonempty_str.
  assert (Hparse : forall s,
             strptime (cleaned s) FMT_EXIF <> None \/ strptime (cleaned s) FMT_ISO = None ->
             match strptime (strip (split_head NUL s)) FMT_EXIF with
             | Some dt_obj => Some (strftime dt_obj)
             | None => Some (strip (split_head NUL s))
             end
             = match WatermarkApp.parse_first (strip (split_head NUL s)) [FMT_EXIF; FMT_ISO] with
               | Some dt_obj => Some (strftime dt_obj)
               | None => Some (strip (split_head NUL s))
               end).
  { intros s Hs. unfold cleaned in Hs. cbn [WatermarkApp.parse_first].
    destruct (strptime (strip (split_head NUL s)) FMT_EXIF); [reflexivity |].
    destruct Hs as [Hs | ->]; [congruence | reflexivity]. }
  destruct (Utils.nonempty_str (exif_data !! Utils.TAG_DATETIME_ORIGINAL)) as [s |].
  - apply Hparse. now apply Hformat.
  - destruct (Utils.nonempty_str (exif_data !! Utils.TAG_DATETIME)) as [s |];
      [| reflexivity].
    apply Hparse. now apply Hformat.
Qed.

Lemma exif_lookups_agree_example :
  let image :=
    with_exif (uniform_image 1 1 (0, 0, 0))
      {[ 36867 := ExifStr (str "2023:05:01 12:34:56") ]} in
  Utils.get_exif_datetime image = Some (str "2023-05-01 12:34:56")
  /\ Utils.get_exif_datetime image = WatermarkApp._get_exif_datetime image.
Proof.
  intros image. split; [reflexivity |].
  apply (exif_lookups_agree image).
  intros exif_data s Hexif Htag.
  injection Hexif as <-. vm_compute in Htag. injection Htag as <-.
  left. vm_compute. discriminate.
Defined.

Example exif_lookups_differ_on_iso_dates :
  let image :=
    with_exif (uniform_image 1 1 (0, 0, 0))
      {[ 36867 := ExifStr (str "2024-02-29 1:2:3") ]} in
  Utils.get_exif_datetime image = Some (str "2024-02-29 1:2:3")
  /\ WatermarkApp._get_exif_datetime image = Some (str "2024-02-29 01:02:03").
Proof. split; reflexivity. Qed.

(** ** A batch under any sequence of stop requests *)

Lemma first_stop (stop_requested : nat -> bool) (n : nat) :
  forall i, exists k,
    (k <= n)%nat
    /\ (forall j, (j < k)%nat -> stop_requested (i + j)%nat = false)
    /\ ((k < n)%nat -> stop_requested (i + k)%nat = true).
Proof.
  induction n as [| n IH]; intros i.
  - exists 0%nat. repeat split; [lia | intros j Hj; lia | lia].
  - destruct (stop_requested i) eqn:Hstop.
    + exists 0%nat. repeat split; [lia | intros j Hj; lia |].
      intros _. now rewrite Nat.add_0_r.
    + destruct (IH (S i)) as (k & Hk & Hbefore & Hat).
      exists (S k). repeat split; [lia | |].
      * intros [| j] Hj; [now rewrite Nat.add_0_r |].
        replace (i + S j)%nat with (S i + j)%nat by lia. apply Hbefore. lia.
      * intros Hlt. replace (i + S k)%nat with (S i + k)%nat by lia. apply Hat. lia.
Qed.

(** X10. Whatever the outcomes of the files and whenever the stop flag
    is raised, [_threaded_add_watermarks] attempts a prefix of the file
    list in order, counts every attempted file exactly once as processed
    or as skipped, and puts exactly one ['finished'] message, with these
    counts and no error, at the end of the queue; [_check_queue] then
    reaches [_handle_completion] with these counts. *)
Theorem batch_attempts_a_prefix_and_finishes_once
    (process_single_image : text -> option text) (stop_requested : nat -> bool)
    (files : list text) :
  let w :=
    WatermarkApp._threaded_add_watermarks process_single_image stop_requested (inr files) in
  exists k,
    (k <= length files)%nat
    /\ WatermarkApp.attempted w = take k files
    /\ WatermarkApp.processed_count w
       = length (succeeded process_single_image (take k files))
    /\ WatermarkApp.skipped_count w
       = length (failed process_single_image (take k files))
    /\ (WatermarkApp.processed_count w + WatermarkApp.skipped_count w = k)%nat
    /\ WatermarkApp.processing_queue w
       = app_events process_single_image (length files) 0 (take k files)
         ++ [WatermarkApp.Finished (WatermarkApp.processed_count w)
               (WatermarkApp.skipped_count w) None]
    /\ forall was_stopped,
         WatermarkApp._check_queue was_stopped (WatermarkApp.processing_queue w)
         = Some (WatermarkApp._handle_completion was_stopped
                   (WatermarkApp.processed_count w) (WatermarkApp.skipped_count w) None).
Proof.
  intros w.
  destruct (first_stop stop_requested (length files) 0) as (k & Hk & Hbefore & Hat).
  exists k.
  assert (Hlen : (length (succeeded process_single_image (take k files))
                  + length (failed process_single_image (take k files)) = k)%nat)
    by (rewrite succeeded_failed_length, length_take; lia).
  unfold w, WatermarkApp._threaded_add_watermarks.
  destruct (length files =? 0)%nat eqn:Hempty.
  - apply Nat.eqb_eq in Hempty.
    assert (k = 0%nat) by lia. subst k.
    apply nil_length_inv in Hempty. subst files.
    cbn. repeat split; try reflexivity; lia.
  - destruct (app_process_loop_prefix process_single_image stop_requested (length files)
                k files 0 WatermarkApp.idle Hk Hbefore Hat) as (Ha & Hp & Hs & Hq).
    unfold WatermarkApp.put.
    cbn [WatermarkApp.attempted WatermarkApp.processed_count WatermarkApp.skipped_count
         WatermarkApp.processing_queue].
    rewrite Ha, Hp, Hs, Hq. cbn [WatermarkApp.idle WatermarkApp.attempted
      WatermarkApp.processed_count WatermarkApp.skipped_count
      WatermarkApp.processing_queue app Nat.add].
    split; [exact Hk |]. split; [reflexivity |]. split; [reflexivity |].
    split; [reflexivity |]. split; [exact Hlen |]. split; [reflexivity |].
    intros was_stopped. now rewrite check_queue_skips_events.
Qed.

Lemma filter_outcome_length (process_image : text -> bool) (files : list text) :
  (length (filter (fun f => process_image f = true) files)
   + length (filter (fun f => process_image f = false) files) = length files)%nat.
Proof.
  induction files as [| f files IH]; [reflexivity |].
  rewrite !filter_cons.
  destruct (decide (process_image f = true)) as [Ht | Ht];
    destruct (decide (process_image f = false)) as [Hf | Hf].
  - congruence.
  - simpl. lia.
  - simpl. lia.
  - destruct (process_image f); congruence.
Qed.

(** X11. Whatever the outcomes of the images and whenever the stop flag
    is raised, [process_images_thread] attempts a prefix of the image
    list, counts every attempted image once as processed or as an error,
    logs one line for each error, and closes the message queue with the
    cancelled or the completed status followed by the message that
    re-enables the controls; that message is the last one also when the
    output folder cannot be created. *)
Theorem tool_batch_always_reenables_controls
    (process_image : text -> bool) (stop_requested : nat -> bool) (files : list text) :
  (forall output_folder : text,
      let tw :=
        WatermarkTool.process_images_thread process_image stop_requested
          (inr output_folder) files in
      exists k,
        (k <= length files)%nat
        /\ WatermarkTool.attempted tw = take k files
        /\ (WatermarkTool.processed_count tw + WatermarkTool.error_count tw = k)%nat
        /\ length (WatermarkTool.logged tw) = WatermarkTool.error_count tw
        /\ WatermarkTool.message_queue tw
           = [WatermarkTool.Status WatermarkTool.StatusStarted]
             ++ tool_events (length files) 0 (take k files)
             ++ (if stop_requested k
                 then [WatermarkTool.Status WatermarkTool.StatusCancelled]
                 else
                   [WatermarkTool.Status
                      (WatermarkTool.StatusCompleted
                         (WatermarkTool.processed_count tw)
                         (WatermarkTool.error_count tw))]
                   ++ (if (0 <? WatermarkTool.processed_count tw)%nat
                       then [WatermarkTool.Info] else []))
             ++ [WatermarkTool.EnableControls])
  /\ (forall output_folder : text + text,
      last (WatermarkTool.message_queue
              (WatermarkTool.process_images_thread process_image stop_requested
                 output_folder files))
      = Some WatermarkTool.EnableControls).
Proof.
  split.
  - intros output_folder tw.
    destruct (first_stop stop_requested (length files) 0) as (k & Hk & Hbefore & Hat).
    exists k.
    destruct (tool_process_loop_prefix process_image stop_requested (length files)
                k files 0
                (WatermarkTool.put [WatermarkTool.Status WatermarkTool.StatusStarted]
                   WatermarkTool.idle)
                Hk Hbefore Hat) as (Ha & Hp & He & Hq & Hl).
    pose proof (filter_outcome_length process_image (take k files)) as Hlen.
    rewrite length_take in Hlen.
    unfold tw, WatermarkTool.process_images_thread.
    set (w := WatermarkTool.process_loop _ _ _ _ _ _) in *.
    unfold WatermarkTool.put, WatermarkTool.idle in Ha, Hp, He, Hq, Hl.
    cbn [WatermarkTool.attempted WatermarkTool.processed_count WatermarkTool.error_count
         WatermarkTool.message_queue WatermarkTool.logged app Nat.add] in Ha, Hp, He, Hq, Hl.
    assert (Hattempted : length (WatermarkTool.attempted w) = k)
      by (rewrite Ha, length_take; lia).
    rewrite Hattempted.
    destruct (stop_requested k) eqn:Hstop.
    + unfold WatermarkTool.put.
      cbn [WatermarkTool.attempted WatermarkTool.processed_count WatermarkTool.error_count
           WatermarkTool.message_queue WatermarkTool.logged].
      rewrite Ha, Hp, He, Hq, Hl, length_map.
      split; [exact Hk |]. split; [reflexivity |]. split; [lia |].
      split; [reflexivity |]. now rewrite <- !app_assoc.
    + destruct (0 <? WatermarkTool.processed_count
                       (WatermarkTool.put
                          [WatermarkTool.Status
                             (WatermarkTool.StatusCompleted
                                (WatermarkTool.processed_count w)
                                (WatermarkTool.error_count w))] w))%nat eqn:Hany;
        unfold WatermarkTool.put in *;
        cbn [WatermarkTool.attempted WatermarkTool.processed_count WatermarkTool.error_count
             WatermarkTool.message_queue WatermarkTool.logged] in *;
        rewrite Hany, Ha, Hq, Hl, length_map;
        (split; [exact Hk |]); (split; [reflexivity |]); (split; [lia |]);
        (split; [lia |]); now rewrite <- !app_assoc.
  - intros [e | output_folder].
    + reflexivity.
    + unfold WatermarkTool.process_images_thread, WatermarkTool.put at 1.
      cbn [WatermarkTool.message_queue]. apply last_snoc.
Qed.

(** X12. When the part of [_threaded_add_watermarks] before the loop
    raises, no file is attempted and the only message is ['finished']
    with zero counts and the error; [_check_queue] then shows the failure
    dialog with that error, also when a stop was requested. An error whose
    text is empty is not told apart from a folder without images: both
    end as a completed run of zero files. In [process_images_thread] a
    failure to create the output folder is logged, reported, and nothing
    is attempted. *)
Theorem setup_failure_is_reported
    (process_single_image : text -> option text) (process_image : text -> bool)
    (stop_requested : nat -> bool) (files : list text) (error : text) :
  let w :=
    WatermarkApp._threaded_add_watermarks process_single_image stop_requested (inl error) in
  let tw :=
    WatermarkTool.process_images_thread process_image stop_requested (inl error) files in
  WatermarkApp.attempted w = []
  /\ WatermarkApp.processing_queue w = [WatermarkApp.Finished 0 0 (Some error)]
  /\ (error <> [] ->
      forall was_stopped,
        WatermarkApp._check_queue was_stopped (WatermarkApp.processing_queue w)
        = Some (if was_stopped then WatermarkApp.LabelStopped
                else WatermarkApp.LabelEndedByError,
                WatermarkApp.DialogFailed error 0 0))
  /\ (error = [] ->
      forall was_stopped,
        WatermarkApp._check_queue was_stopped (WatermarkApp.processing_queue w)
        = WatermarkApp._check_queue was_stopped
            (WatermarkApp.processing_queue
               (WatermarkApp._threaded_add_watermarks process_single_image
                  stop_requested (inr []))))
  /\ WatermarkTool.attempted tw = []
  /\ WatermarkTool.logged tw = [WatermarkTool.BatchFailed error]
  /\ WatermarkTool.message_queue tw
     = [WatermarkTool.Error error; WatermarkTool.EnableControls].
Proof.
  intros w tw.
  split; [reflexivity |]. split; [reflexivity |]. split; [| split].
  - intros Herror was_stopped. destruct error as [| c e]; [congruence |].
    now destruct was_stopped.
  - intros -> was_stopped. reflexivity.
  - repeat split.
Qed.

Lemma setup_failure_is_reported_permission_denied :
  let w :=
    WatermarkApp._threaded_add_watermarks (fun _ => None) (fun _ => false)
      (inl (str "Permission denied")) in
  str "Permission denied" <> []
  /\ WatermarkApp._check_queue true (WatermarkApp.processing_queue w)
     = Some (WatermarkApp.LabelStopped,
             WatermarkApp.DialogFailed (str "Permission denied") 0 0).
Proof.
  intros w. split; [discriminate |].
  exact (proj1 (proj2 (proj2 (setup_failure_is_reported (fun _ => None) (fun _ => true)
                                (fun _ => false) [] (str "Permission denied"))))
           ltac:(discriminate) true).
Defined.

(** ** Rows of the layout *)

Section rows.
Import WatermarkApp Geometry.

Variable use_bbox : bool.
Variables font_chinese font_english : Font.
Variables x_start y_start max_width : Q.

Local Abbreviation body := (loop_body use_bbox font_chinese font_english x_start max_width).
Local Abbreviation metrics := (word_chars_metrics use_bbox font_chinese font_english).
Local Abbreviation force := (force_break x_start max_width).
Local Abbreviation spc := (space_item use_bbox font_english).

Lemma descending_weaken (rs : list Run) :
  forall top bottom bottom',
    (bottom <= bottom')%Q -> descending top bottom rs -> descending top bottom' rs.
Proof.
  induction rs as [| r rs IH]; intros top bottom bottom' Hle; cbn.
  - intros H. lra.
  - intros [Hr Hrest]. split; [exact Hr | now apply (IH _ bottom)].
Qed.

Lemma descending_app (a b : list Run) :
  forall top middle bottom,
    descending top middle a -> descending middle bottom b -> descending top bottom (a ++ b).
Proof.
  induction a as [| r a IH]; intros top middle bottom; cbn.
  - intros Hle Hb. destruct b as [| r b]; cbn in *; [lra |].
    destruct Hb as [Hr Hb]. split; [lra | exact Hb].
  - intros [Hr Ha] Hb. split; [exact Hr | now apply (IH _ middle)].
Qed.

Lemma descending_flush (buffer : list Item) (cx cy : Q) :
  descending cy cy (flush_runs cx cy buffer).
Proof.
  revert cx. induction buffer as [| m buffer IH]; intros cx; cbn.
  - lra.
  - split; [lra | apply IH].
Qed.

Lemma qmax_lower (a b : Q) : (a <= qmax a b)%Q /\ (b <= qmax a b)%Q.
Proof.
  unfold qmax. destruct (Qlt_bool a b) eqn:H.
  - apply Qlt_bool_iff in H. lra.
  - apply Qlt_bool_false_iff in H. lra.
Qed.

Lemma total_line_height_nonneg (buffer : list Item) :
  Forall (fun m => (0 <= item_height m)%Q) buffer -> (0 <= total_line_height buffer)%Q.
Proof.
  destruct buffer as [| m buffer]; cbn; [lra |].
  intros Hall. inversion Hall as [| ? ? Hm _]; subst.
  assert (Hfold : forall (l : list Item) (acc : Q),
             (0 <= acc)%Q ->
             (0 <= fold_left (fun acc m => qmax acc (item_height m)) l acc)%Q).
  { induction l as [| m' l IH]; intros acc Hacc; cbn; [exact Hacc |].
    apply IH. pose proof (qmax_lower acc (item_height m')). lra. }
  now apply Hfold.
Qed.

Lemma descending_force (ms : list Item) :
  forall temp_x temp_h cy,
    Forall (fun m => (0 <= item_height m)%Q) ms ->
    (0 <= temp_h)%Q ->
    let '(rs, y2, temp_h2) := force ms temp_x temp_h cy in
    descending cy y2 rs /\ (0 <= temp_h2)%Q.
Proof.
  induction ms as [| m ms IH]; intros temp_x temp_h cy Hall Htemp.
  - cbn. split; [lra | exact Htemp].
  - inversion Hall as [| ? ? Hm Hrest]; subst.
    cbn [force_break].
    set (wrap := Qlt_bool x_start temp_x
                 && Qlt_bool (x_start + max_width) (temp_x + item_width m)).
    set (y1 := if wrap
               then (cy + (if Qlt_bool 0 temp_h then temp_h else item_height m))%Q
               else cy).
    set (temp_x1 := if wrap then x_start else temp_x).
    set (temp_h1 := if wrap then 0%Q else temp_h).
    assert (Hy1 : (cy <= y1)%Q).
    { unfold y1. destruct wrap; [| lra]. destruct (Qlt_bool 0 temp_h); lra. }
    assert (Htemp1 : (0 <= qmax temp_h1 (item_height m))%Q).
    { pose proof (qmax_lower temp_h1 (item_height m)). lra. }
    specialize (IH (temp_x1 + item_width m)%Q (qmax temp_h1 (item_height m)) y1
                   Hrest Htemp1).
    destruct (force_break x_start max_width ms _ _ _) as [[rs y2] temp_h2].
    destruct IH as [Hrs Hh2]. cbn. split; [| exact Hh2]. split; [exact Hy1 | exact Hrs].
Qed.

Section nonnegative_heights.
Hypothesis glyph_height_nonneg :
  forall c, (0 <= item_height (char_item use_bbox font_chinese font_english c))%Q.
Hypothesis space_height_nonneg : (0 <= item_height spc)%Q.

Lemma metrics_heights (word : text) :
  Forall (fun m => (0 <= item_height m)%Q) (metrics word).
Proof.
  unfold word_chars_metrics. apply Forall_forall. intros m Hm.
  apply list_elem_of_In, in_map_iff in Hm. destruct Hm as (c & <- & _).
  apply glyph_height_nonneg.
Qed.

Lemma rows_invariant_initial : rows_invariant y_start (initial y_start).
Proof. split; cbn; [lra | constructor]. Qed.

Lemma rows_invariant_step (st : Loop) (word : text) :
  rows_invariant y_start st -> rows_invariant y_start (body word st).
Proof.
  intros [Hdrawn Hbuffer]. unfold rows_invariant, loop_body.
  destruct (line_buffer st) as [| item buffer] eqn:Hbuf.
  - destruct (Qle_bool _ _).
    + cbn [y drawn line_buffer]. split; [exact Hdrawn |].
      cbn [app]. apply metrics_heights.
    + pose proof (descending_force (metrics word) x_start 0 (y st)
                    (metrics_heights word) ltac:(lra)) as Hforce.
      destruct (force_break _ _ _ _ _ _) as [[rs y1] temp_h].
      destruct Hforce as [Hrs Hh]. cbn [y drawn line_buffer].
      split; [| constructor].
      apply descending_weaken with y1; [lra |].
      now apply descending_app with (y st).
  - destruct (Qle_bool _ _).
    + cbn [y drawn line_buffer]. split; [exact Hdrawn |].
      apply Forall_app. split; [exact Hbuffer |].
      apply Forall_app. split; [| apply metrics_heights].
      constructor; [exact space_height_nonneg | constructor].
    + cbn [flush_line_buffer y drawn line_buffer fst snd]. split; [| constructor].
      pose proof (total_line_height_nonneg _ Hbuffer) as Hheight.
      apply descending_weaken with (y st); [lra |].
      apply descending_app with (y st); [exact Hdrawn | apply descending_flush].
Qed.

End nonnegative_heights.

Lemma abutting_flush (buffer : list Item) (cx cy row : Q) :
  (cy == row)%Q -> abutting cx row (flush_runs cx cy buffer).
Proof.
  intros Hrow. revert cx. induction buffer as [| m buffer IH]; intros cx; cbn; [exact I |].
  split; [reflexivity |]. split; [exact Hrow |]. split; [reflexivity | apply IH].
Qed.

Lemma force_nonempty (m : Item) (ms : list Item) (temp_x temp_h cy : Q) :
  fst (fst (force (m :: ms) temp_x temp_h cy)) <> [].
Proof.
  cbn [force_break].
  destruct (force_break x_start max_width ms _ _ _) as [[rs y2] temp_h2].
  cbn. discriminate.
Qed.

Lemma body_keeps_row (st : Loop) (word : text) :
  drawn (body word st) = [] -> (y (body word st) == y st)%Q.
Proof.
  unfold loop_body.
  destruct (line_buffer st) as [| item buffer] eqn:Hbuf.
  - destruct (Qle_bool _ _); [reflexivity |].
    destruct (metrics word) as [| m ms] eqn:Hms.
    + cbn. intros _. lra.
    + pose proof (force_nonempty m ms x_start 0 (y st)) as Hne.
      destruct (force_break _ _ _ _ _ _) as [[rs y1] temp_h]. cbn in *.
      intros Hnil. apply app_eq_nil in Hnil. destruct Hnil as [_ Hnil]. contradiction.
  - destruct (Qle_bool _ _); [reflexivity |].
    cbn. intros Hnil. apply app_eq_nil in Hnil. destruct Hnil as [_ Hnil]. discriminate.
Qed.

End rows.

Import Geometry.

(** ** Lines of the layout *)

Import Lines.

Lemma line_text_snoc (ws : list text) (w : text) :
  line_text (ws ++ [w])
  = match line_text ws with
    | [] => w
    | _ :: _ => line_text ws ++ SPACE :: w
    end.
Proof.
  induction ws as [| v ws IH].
  - destruct w; reflexivity.
  - destruct v as [| c v].
    + exact IH.
    + unfold line_text. cbn [app strip_empty].
      change ((c :: v) :: ws ++ [w]) with (((c :: v) :: ws) ++ [w]).
      rewrite join_snoc by discriminate.
      destruct ws; reflexivity.
Qed.

Lemma line_text_nil (ws : list text) : line_text ws = [] -> strip_empty ws = [].
Proof.
  induction ws as [| v ws IH]; [reflexivity |].
  destruct v as [| c v]; [exact IH |].
  unfold line_text. cbn [strip_empty]. destruct ws; discriminate.
Qed.

Lemma strip_empty_app (ws l : list text) :
  strip_empty ws = [] -> strip_empty (ws ++ l) = strip_empty l.
Proof.
  induction ws as [| v ws IH]; [reflexivity |].
  destruct v as [| c v]; [exact IH | discriminate].
Qed.

Lemma strip_empty_suffix (ws : list text) (w : text) :
  In w (strip_empty ws) -> In w ws.
Proof.
  induction ws as [| v ws IH]; [auto |].
  destruct v as [| c v]; cbn [strip_empty]; [right; auto | auto].
Qed.

Lemma head_line_text (ws : list text) :
  Forall (fun w => ~ In SPACE w) ws -> head (line_text ws) <> Some SPACE.
Proof.
  induction 1 as [| v ws Hv _ IH]; [discriminate |].
  destruct v as [| c v]; [exact IH |].
  assert (Hhead : head (line_text ((c :: v) :: ws)) = Some c)
    by (unfold line_text; cbn [strip_empty]; destruct ws; reflexivity).
  intros Hspace. apply Hv. left. congruence.
Qed.

Lemma buffer_text_nil (buffer : list WatermarkApp.Item) :
  Forall (fun m => WatermarkApp.item_text m <> []) buffer ->
  buffer_text buffer = [] -> buffer = [].
Proof.
  destruct buffer as [| m buffer]; [reflexivity |].
  intros Hall Htext. inversion Hall as [| ? ? Hm _]; subst.
  unfold buffer_text in Htext. cbn in Htext.
  apply app_eq_nil in Htext. destruct Htext as [Htext _]. contradiction.
Qed.

Lemma abutting_not_forced (rs : list WatermarkApp.Run) :
  forall x row, abutting x row rs -> Forall (fun r => WatermarkApp.run_forced r = false) rs.
Proof.
  induction rs as [| r rs IH]; intros x row; cbn; [constructor |].
  intros (_ & _ & Hr & Hrest). constructor; [exact Hr | eapply IH; exact Hrest].
Qed.

Lemma runs_text_elem (rs : list WatermarkApp.Run) (r : WatermarkApp.Run) (c : char) :
  In r rs -> In c (WatermarkApp.run_text r) -> In c (WatermarkApp.runs_text rs).
Proof.
  intros Hr Hc. unfold WatermarkApp.runs_text.
  apply in_concat. exists (WatermarkApp.run_text r). split; [| exact Hc].
  apply in_map_iff. eauto.
Qed.

Lemma runs_text_lines (x_start : Q) (lines : list (list text * list WatermarkApp.Run)) :
  Forall (drawn_line x_start) lines ->
  WatermarkApp.runs_text (concat (List.map snd lines))
  = concat (List.map (fun line => line_text (fst line)) lines).
Proof.
  induction 1 as [| line lines [Htext _] _ IH]; [reflexivity |].
  cbn [List.map concat]. rewrite runs_text_app, Htext, IH. reflexivity.
Qed.

(** In a drawn line whose words hold no space, a run that is a space is
    not a forced one. *)
Lemma drawn_line_space (x_start : Q) (line : list text * list WatermarkApp.Run)
    (r : WatermarkApp.Run) :
  drawn_line x_start line ->
  Forall (fun w => ~ In SPACE w) (fst line) ->
  In r (snd line) -> WatermarkApp.run_text r = [SPACE] ->
  WatermarkApp.run_forced r = false.
Proof.
  intros [Htext [[row Hrow] | [Hforced Hone]]] Hwords Hr Hspace.
  - apply abutting_not_forced in Hrow. rewrite Forall_forall in Hrow.
    apply Hrow. now apply list_elem_of_In.
  - exfalso.
    assert (Hin : In SPACE (WatermarkApp.runs_text (snd line))).
    { apply (runs_text_elem _ r); [exact Hr |]. rewrite Hspace. now left. }
    rewrite Htext in Hin. unfold line_text in Hin.
    destruct (strip_empty (fst line)) as [| w [| w' ws]] eqn:Hstrip;
      [destruct Hin | | cbn in Hone; lia].
    cbn in Hin. rewrite Forall_forall in Hwords.
    apply (Hwords w); [| exact Hin].
    apply list_elem_of_In, strip_empty_suffix. rewrite Hstrip. now left.
Qed.

Section lines.
Import WatermarkApp.

Variable use_bbox : bool.
Variables font_chinese font_english : Font.
Variables x_start y_start max_width : Q.

Local Abbreviation body := (loop_body use_bbox font_chinese font_english x_start max_width).
Local Abbreviation metrics := (word_chars_metrics use_bbox font_chinese font_english).
Local Abbreviation force := (force_break x_start max_width).
Local Abbreviation spc := (space_item use_bbox font_english).

Lemma force_all_forced (ms : list Item) :
  forall temp_x temp_h cy,
    Forall (fun r => run_forced r = true) (fst (fst (force ms temp_x temp_h cy))).
Proof.
  induction ms as [| m ms IH]; intros temp_x temp_h cy; [constructor |].
  cbn [force_break].
  match goal with
  | |- context [force_break _ _ ms ?a ?b ?c] => specialize (IH a b c)
  end.
  destruct (force_break x_start max_width ms _ _ _) as [[rs y2] temp_h2].
  cbn in *. constructor; [reflexivity | exact IH].
Qed.

Lemma metrics_texts (word : text) : Forall (fun m => item_text m <> []) (metrics word).
Proof.
  unfold word_chars_metrics. apply Forall_forall. intros m Hm.
  apply list_elem_of_In, in_map_iff in Hm. destruct Hm as (c & <- & _). discriminate.
Qed.

Lemma lines_invariant_initial (words : list text) :
  lines_invariant x_start words (initial y_start).
Proof.
  exists [], []. cbn. rewrite take_0. repeat split; constructor.
Qed.

Lemma lines_invariant_step (words : list text) (st : Loop) (word : text) :
  words !! word_index st = Some word ->
  lines_invariant x_start words st -> lines_invariant x_start words (body word st).
Proof.
  intros Hword (done & cur & Hwords & Hdrawn & Hdone & Htext & Hitems).
  pose proof (take_S_r _ _ _ Hword) as Htake.
  pose proof (line_text_snoc cur word) as Hsnoc.
  assert (Hplaced : concat (List.map fst done) ++ cur ++ [word]
                    = take (S (word_index st)) words).
  { rewrite Htake, <- Hwords. apply app_assoc. }
  assert (Hclosed : forall (ws : list text) (rs : list Run),
             drawn_line x_start (ws, rs) ->
             concat (List.map snd (done ++ [(ws, rs)])) = drawn st ++ rs
             /\ concat (List.map fst (done ++ [(ws, rs)])) ++ []
                = concat (List.map fst done) ++ ws
             /\ Forall (drawn_line x_start) (done ++ [(ws, rs)])).
  { intros ws rs Hline. rewrite !List.map_app, !concat_app. cbn [List.map concat fst snd].
    rewrite !app_nil_r, Hdrawn. split; [reflexivity |]. split; [reflexivity |].
    apply Forall_app. split; [exact Hdone |]. constructor; [exact Hline | constructor]. }
  unfold lines_invariant, loop_body.
  destruct (line_buffer st) as [| item buffer] eqn:Hbuf.
  - (* the word starts a line *)
    change (buffer_text []) with (@nil Z) in Htext. rewrite <- Htext in Hsnoc.
    destruct (Qle_bool _ _).
    + exists done, (cur ++ [word]).
      cbn [word_index line_buffer drawn app].
      split; [exact Hplaced |]. split; [exact Hdrawn |]. split; [exact Hdone |].
      split; [now rewrite buffer_text_metrics | apply metrics_texts].
    + pose proof (runs_text_force x_start max_width (metrics word) x_start 0 (y st)) as Hrs.
      pose proof (force_all_forced (metrics word) x_start 0 (y st)) as Hforced.
      destruct (force_break _ _ _ _ _ _) as [[rs y1] temp_h].
      cbn [fst] in Hrs, Hforced. rewrite buffer_text_metrics in Hrs.
      destruct (Hclosed (cur ++ [word]) rs) as (Hruns & Hws & Hall).
      { split; cbn [fst snd]; [now rewrite Hrs |].
        right. split; [exact Hforced |].
        symmetry in Htext. apply line_text_nil in Htext.
        rewrite (strip_empty_app _ _ Htext). destruct word; cbn; lia. }
      exists (done ++ [(cur ++ [word], rs)]), [].
      cbn [word_index line_buffer drawn].
      split; [now rewrite Hws |]. split; [exact Hruns |]. split; [exact Hall |].
      split; [reflexivity | constructor].
  - destruct (Qle_bool _ _).
    + (* the word follows a space on the line *)
      exists done, (cur ++ [word]).
      cbn [word_index line_buffer drawn].
      split; [exact Hplaced |]. split; [exact Hdrawn |]. split; [exact Hdone |].
      split.
      * rewrite !buffer_text_app, buffer_text_metrics, Hsnoc, <- Htext.
        inversion Hitems as [| ? ? Hitem _]; subst.
        unfold buffer_text at 1 3 4. cbn [List.map concat].
        destruct (item_text item) as [| c rest]; [contradiction | reflexivity].
      * apply Forall_app. split; [exact Hitems |].
        apply Forall_app. split; [| apply metrics_texts].
        constructor; [discriminate | constructor].
    + (* the line is flushed; the word waits *)
      destruct (Hclosed cur (flush_runs x_start (y st) (item :: buffer)))
        as (Hruns & Hws & Hall).
      { split; cbn [fst snd]; [now rewrite runs_text_flush |].
        left. exists (y st). now apply abutting_flush. }
      exists (done ++ [(cur, flush_runs x_start (y st) (item :: buffer))]), [].
      cbn [flush_line_buffer word_index line_buffer drawn fst].
      split; [now rewrite Hws |]. split; [exact Hruns |]. split; [exact Hall |].
      split; [reflexivity | constructor].
Qed.

End lines.

(** C1 (amended): [draw_watermark] always returns, and the run texts
    concatenated in drawing order are the input text with some of its spaces
    left out: the characters other than spaces are all there, in order, and
    nothing is added. Which spaces are drawn is fixed by the lines: the
    words of the text fall into consecutive lines, each drawn as one flushed
    row or as the forced characters of a single word, and the runs of a line
    spell its words with one space between two of them. So a space run lies
    between two words of one line and is never a forced run; no line begins
    with a space, and the space between the last word of a line and the
    first of the next is not drawn. A text that does not begin with a space
    and whose single-line width is within [max_width] (all widths
    non-negative) is reproduced exactly. *)
Theorem draw_watermark_text_up_to_spaces
    (use_bbox : bool) (font_chinese font_english : Font)
    (x_start y_start max_width : Q) (t : text) :
  exists rs,
    WatermarkApp.draw_watermark use_bbox font_chinese font_english
      x_start y_start max_width t = Some rs
    /\ without_spaces (WatermarkApp.runs_text rs) = without_spaces t
    /\ sublist (WatermarkApp.runs_text rs) t
    /\ (exists lines : list (list text * list WatermarkApp.Run),
          concat (List.map fst lines) = split SPACE t
          /\ concat (List.map snd lines) = rs
          /\ Forall (drawn_line x_start) lines
          /\ WatermarkApp.runs_text rs
             = concat (List.map (fun line => line_text (fst line)) lines)
          /\ Forall (fun line => head (WatermarkApp.runs_text (snd line)) <> Some SPACE) lines
          /\ forall r, In r rs -> WatermarkApp.run_text r = [SPACE] ->
                       WatermarkApp.run_forced r = false)
    /\ ((forall c, (0 <= glyph_width use_bbox font_chinese font_english c)%Q) ->
        head t <> Some SPACE ->
        (line_width use_bbox font_chinese font_english t <= max_width)%Q ->
        WatermarkApp.runs_text rs = t).
Proof.
  assert (Hlines : forall (lines : list (list text * list WatermarkApp.Run)),
             concat (List.map fst lines) = split SPACE t ->
             Forall (drawn_line x_start) lines ->
             WatermarkApp.runs_text (concat (List.map snd lines))
             = concat (List.map (fun line => line_text (fst line)) lines)
             /\ Forall (fun line => head (WatermarkApp.runs_text (snd line)) <> Some SPACE)
                  lines
             /\ forall r, In r (concat (List.map snd lines)) ->
                          WatermarkApp.run_text r = [SPACE] ->
                          WatermarkApp.run_forced r = false).
  { intros lines Hwords Hdrawn.
    assert (Hnosp : Forall (fun line => Forall (fun w => ~ In SPACE w) (fst line)) lines).
    { pose proof (split_no_sep SPACE t) as Hsplit. rewrite <- Hwords in Hsplit.
      rewrite Forall_concat, Forall_fmap in Hsplit. exact Hsplit. }
    split; [now apply runs_text_lines with x_start |].
    rewrite Forall_forall in Hdrawn, Hnosp. split.
    - apply Forall_forall. intros line Hline.
      destruct (Hdrawn line Hline) as [Htext _]. rewrite Htext.
      apply head_line_text. now apply Hnosp.
    - intros r Hr Hspace. apply in_concat in Hr. destruct Hr as (runs & Hruns & Hr).
      apply in_map_iff in Hruns. destruct Hruns as (line & <- & Hline).
      apply list_elem_of_In in Hline.
      apply (drawn_line_space x_start line r); auto. }
  destruct t as [| c0 t0] eqn:Et.
  { exists []. split; [reflexivity |]. split; [reflexivity |]. split; [reflexivity |].
    split; [| reflexivity].
    exists [([[]], [])]. split; [reflexivity |]. split; [reflexivity |].
    assert (Hline : Forall (drawn_line x_start) [([[]], @nil WatermarkApp.Run)]).
    { constructor; [| constructor]. split; [reflexivity |]. left. exists 0%Q. exact I. }
    split; [exact Hline |]. exact (Hlines [([[]], [])] eq_refl Hline). }
  rewrite <- Et in *. assert (Ht : t <> []) by (subst t; discriminate).
  set (words := split SPACE t) in *.
  set (one_line :=
         (forall c, (0 <= glyph_width use_bbox font_chinese font_english c)%Q)
         /\ head t <> Some SPACE
         /\ (line_width use_bbox font_chinese font_english t <= max_width)%Q).
  destruct (draw_watermark_rule use_bbox font_chinese font_english x_start y_start max_width
              (fun st => text_invariant words st
                         /\ (one_line ->
                             single_line_invariant use_bbox font_chinese font_english words st)
                         /\ lines_invariant x_start words st)
              t Ht) as (st & Hdraw & (Htext & Hline & Hrows) & Hend).
  - split; [apply text_invariant_initial |].
    split; [intros _; apply single_line_initial | apply lines_invariant_initial].
  - intros st word Hword (Htext & Hline & Hrows).
    split; [now apply text_invariant_step |].
    split; [| now apply lines_invariant_step].
    intros (Hpos & Hhead & Hroom).
    apply single_line_step; try assumption; auto.
    + apply split_no_sep.
    + intros w Hw. unfold words in Hw. rewrite Et in Hw, Hhead. simpl in Hhead.
      destruct (split_first_nonempty SPACE c0 t0) as (w' & ws & Hsplit); [congruence |].
      rewrite Hsplit in Hw. injection Hw as <-. discriminate.
    + unfold words. now rewrite join_split.
    + apply Hline. repeat split; assumption.
  - exists (WatermarkApp.drawn st
            ++ WatermarkApp.flush_runs x_start (WatermarkApp.y st) (WatermarkApp.line_buffer st)).
    split; [exact Hdraw |].
    destruct Htext as (Hidx & Hfilter & Hsub & _).
    apply lookup_ge_None in Hend. subst words.
    rewrite take_ge in Hfilter, Hsub by lia.
    rewrite join_split in Hfilter, Hsub.
    rewrite runs_text_app, runs_text_flush.
    split; [exact Hfilter |]. split; [exact Hsub |]. split.
    + destruct Hrows as (done & cur & Hwords & Hdrawn & Hdone & Hbuffer & _).
      rewrite take_ge in Hwords by lia.
      set (last_line := (cur, WatermarkApp.flush_runs x_start (WatermarkApp.y st)
                                (WatermarkApp.line_buffer st))).
      assert (Hruns : concat (List.map snd (done ++ [last_line]))
                      = WatermarkApp.drawn st
                        ++ WatermarkApp.flush_runs x_start (WatermarkApp.y st)
                             (WatermarkApp.line_buffer st)).
      { rewrite List.map_app, concat_app, Hdrawn. cbn. now rewrite app_nil_r. }
      assert (Hall : concat (List.map fst (done ++ [last_line])) = split SPACE t).
      { rewrite List.map_app, concat_app. cbn. now rewrite app_nil_r. }
      assert (Hlast : Forall (drawn_line x_start) (done ++ [last_line])).
      { apply Forall_app. split; [exact Hdone |]. constructor; [| constructor].
        unfold last_line. split; cbn [fst snd]; [now rewrite runs_text_flush |].
        left. exists (WatermarkApp.y st). now apply abutting_flush. }
      exists (done ++ [last_line]).
      split; [exact Hall |]. split; [exact Hruns |]. split; [exact Hlast |].
      rewrite <- runs_text_flush with (cx := x_start) (cy := WatermarkApp.y st),
              <- runs_text_app, <- Hruns.
      exact (Hlines _ Hall Hlast).
    + intros Hpos Hhead Hroom.
      destruct (Hline (conj Hpos (conj Hhead Hroom))) as (Hdrawn & _ & Hbuf & _).
      rewrite Hdrawn, Hbuf. simpl.
      rewrite take_ge by lia. apply join_split.
Qed.

Lemma draw_watermark_text_one_line :
  exists rs,
    WatermarkApp.draw_watermark true (fixed_font 1 1) (fixed_font 1 1) 0 0 5 (str "a b")
    = Some rs
    /\ WatermarkApp.runs_text rs = str "a b".
Proof.
  destruct (draw_watermark_text_up_to_spaces true (fixed_font 1 1) (fixed_font 1 1)
              0%Q 0%Q 5%Q (str "a b")) as (rs & Hrs & _ & _ & _ & Hexact).
  exists rs. split; [exact Hrs |]. apply Hexact.
  - intros c. unfold glyph_width, WatermarkApp.char_item.
    destruct (c =? SPACE), (WatermarkApp.is_chinese c); vm_compute; discriminate.
  - discriminate.
  - vm_compute. discriminate.
Defined.

(** The lines of ["abc d"] on a line two glyphs wide: the word ["abc"] is
    forced, character by character, and ["d"] starts the next line; the
    space between them is not drawn. *)
Example lines_of_a_wrapped_text :
  exists forced_runs last_runs,
    WatermarkApp.draw_watermark true (fixed_font 1 1) (fixed_font 1 1) 0 0 2 (str "abc d")
    = Some (forced_runs ++ last_runs)
    /\ drawn_line 0 ([str "abc"], forced_runs)
    /\ drawn_line 0 ([str "d"], last_runs)
    /\ Forall (fun r => WatermarkApp.run_forced r = true) forced_runs
    /\ WatermarkApp.runs_text (forced_runs ++ last_runs) = str "abcd".
Proof.
  eexists [_; _; _], [_]. split; [vm_compute; reflexivity |].
  split; [split; [reflexivity | right; split; [repeat constructor | cbn; lia]] |].
  split; [split; [reflexivity | left; exists 2%Q; cbn; repeat split; reflexivity] |].
  split; [repeat constructor | reflexivity].
Qed.

Lemma descending_lookup (rs : list WatermarkApp.Run) :
  forall top bottom (i j : nat) (r r' : WatermarkApp.Run),
    descending top bottom rs ->
    (i <= j)%nat -> rs !! i = Some r -> rs !! j = Some r' ->
    (top <= WatermarkApp.run_y r)%Q
    /\ (WatermarkApp.run_y r <= WatermarkApp.run_y r')%Q
    /\ (WatermarkApp.run_y r' <= bottom)%Q.
Proof.
  assert (Hbottom : forall (rs : list WatermarkApp.Run) top bottom,
             descending top bottom rs -> (top <= bottom)%Q).
  { clear rs. induction rs as [| r rs IH]; intros top bottom; cbn; [auto |].
    intros [Hr Hrest]. apply IH in Hrest. lra. }
  induction rs as [| r0 rs IH]; intros top bottom i j r r' Hdesc Hij Hi Hj;
    [discriminate |].
  destruct Hdesc as [Hr0 Hrest].
  destruct i as [| i]; destruct j as [| j]; cbn in Hi, Hj; try lia.
  - injection Hi as <-. injection Hj as <-.
    apply Hbottom in Hrest. repeat split; lra.
  - injection Hi as <-.
    destruct (IH _ _ j j r' r' Hrest ltac:(lia) Hj Hj) as (H1 & _ & H3).
    repeat split; lra.
  - destruct (IH _ _ i j r r' Hrest ltac:(lia) Hi Hj) as (H1 & H2 & H3).
    repeat split; lra.
Qed.

(** X13. With glyph and space heights that are not negative,
    [draw_watermark] makes its draw calls down the page: no run is drawn
    above [y_start], and none above a run drawn before it. *)
Theorem draw_watermark_runs_go_down
    (use_bbox : bool) (font_chinese font_english : Font)
    (x_start y_start max_width : Q) (t : text) :
  (forall c, (0 <= WatermarkApp.item_height
                     (WatermarkApp.char_item use_bbox font_chinese font_english c))%Q) ->
  (0 <= WatermarkApp.item_height (WatermarkApp.space_item use_bbox font_english))%Q ->
  exists rs bottom,
    WatermarkApp.draw_watermark use_bbox font_chinese font_english
      x_start y_start max_width t = Some rs
    /\ descending y_start bottom rs
    /\ forall (i j : nat) (r r' : WatermarkApp.Run),
         (i <= j)%nat -> rs !! i = Some r -> rs !! j = Some r' ->
         (y_start <= WatermarkApp.run_y r)%Q
         /\ (WatermarkApp.run_y r <= WatermarkApp.run_y r')%Q.
Proof.
  intros Hglyph Hspace.
  assert (Hgoal : exists rs bottom,
             WatermarkApp.draw_watermark use_bbox font_chinese font_english
               x_start y_start max_width t = Some rs
             /\ descending y_start bottom rs).
  { destruct t as [| c0 t0] eqn:Et.
    { exists [], y_start. split; [reflexivity | cbn; lra]. }
    rewrite <- Et. assert (Ht : t <> []) by (subst t; discriminate).
    destruct (draw_watermark_rule use_bbox font_chinese font_english x_start y_start
                max_width (rows_invariant y_start) t Ht)
      as (st & Hdraw & (Hdrawn & _) & _).
    - apply rows_invariant_initial.
    - intros st word _. now apply rows_invariant_step.
    - eexists. exists (WatermarkApp.y st). split; [exact Hdraw |].
      apply descending_app with (WatermarkApp.y st); [exact Hdrawn |].
      apply descending_flush. }
  destruct Hgoal as (rs & bottom & Hdraw & Hdesc).
  exists rs, bottom. split; [exact Hdraw |]. split; [exact Hdesc |].
  intros i j r r' Hij Hi Hj.
  destruct (descending_lookup rs _ _ i j r r' Hdesc Hij Hi Hj) as (H1 & H2 & _).
  split; assumption.
Qed.

Lemma draw_watermark_runs_go_down_wrapped :
  exists rs,
    WatermarkApp.draw_watermark true (fixed_font 1 1) (fixed_font 1 1) 0 0 3
      (str "abcdefgh ij") = Some rs
    /\ descending 0 3 rs.
Proof.
  destruct (draw_watermark_runs_go_down true (fixed_font 1 1) (fixed_font 1 1) 0 0 3
              (str "abcdefgh ij"))
    as (rs & bottom & Hdraw & _ & _).
  - intros c. cbn. destruct (WatermarkApp.is_chinese c); vm_compute; discriminate.
  - vm_compute. discriminate.
  - exists rs. split; [exact Hdraw |].
    vm_compute in Hdraw. injection Hdraw as <-.
    cbn. repeat split; vm_compute; discriminate.
Defined.

(** X14. A text that does not begin with a space and whose single-line
    width (all advances non-negative) is at most the width limit is drawn
    by [draw_watermark] as one row: the draw calls spell the text, all
    come from the final flush, all lie at height [y_start], the first at
    [x_start] and each next one where the run before it ends. *)
Theorem text_that_fits_is_drawn_on_one_row
    (use_bbox : bool) (font_chinese font_english : Font)
    (x_start y_start max_width : Q) (t : text) :
  (forall c, (0 <= glyph_width use_bbox font_chinese font_english c)%Q) ->
  head t <> Some SPACE ->
  (line_width use_bbox font_chinese font_english t <= max_width)%Q ->
  exists rs,
    WatermarkApp.draw_watermark use_bbox font_chinese font_english
      x_start y_start max_width t = Some rs
    /\ WatermarkApp.runs_text rs = t
    /\ abutting x_start y_start rs.
Proof.
  intros Hpos Hhead Hroom.
  destruct t as [| c0 t0] eqn:Et.
  { exists []. repeat split. }
  rewrite <- Et in *. assert (Ht : t <> []) by (subst t; discriminate).
  set (words := split SPACE t).
  destruct (draw_watermark_rule use_bbox font_chinese font_english x_start y_start max_width
              (fun st => single_line_invariant use_bbox font_chinese font_english words st
                         /\ (WatermarkApp.y st == y_start)%Q)
              t Ht) as (st & Hdraw & [Hline Hrow] & Hend).
  - split; [apply single_line_initial | reflexivity].
  - intros st word Hword [Hline Hrow].
    assert (Hnext : single_line_invariant use_bbox font_chinese font_english words
                      (WatermarkApp.loop_body use_bbox font_chinese font_english
                         x_start max_width word st)).
    { apply single_line_step; try assumption.
      - apply split_no_sep.
      - intros w Hw. unfold words in Hw. rewrite Et in Hw, Hhead. simpl in Hhead.
        destruct (split_first_nonempty SPACE c0 t0) as (w' & ws & Hsplit); [congruence |].
        rewrite Hsplit in Hw. injection Hw as <-. discriminate.
      - unfold words. now rewrite join_split. }
    split; [exact Hnext |].
    destruct Hnext as (Hdrawn & _).
    rewrite (body_keeps_row _ _ _ _ _ _ _ Hdrawn). exact Hrow.
  - destruct Hline as (Hdrawn & Hidx & Hbuf & _).
    apply lookup_ge_None in Hend. unfold words in *.
    eexists. split; [exact Hdraw |].
    rewrite Hdrawn. cbn [app]. split.
    + rewrite runs_text_flush, Hbuf, take_ge by lia. apply join_split.
    + now apply abutting_flush.
Qed.

Lemma text_that_fits_is_drawn_on_one_row_example :
  exists rs,
    WatermarkApp.draw_watermark true (fixed_font 1 1) (fixed_font 1 1) 7 9 5 (str "a b")
    = Some rs
    /\ List.map (fun r => (WatermarkApp.run_text r, WatermarkApp.run_pixel r)) rs
       = [(str "a", (7, 9)); (str " ", (8, 9)); (str "b", (9, 9))]
    /\ abutting 7 9 rs.
Proof.
  destruct (text_that_fits_is_drawn_on_one_row true (fixed_font 1 1) (fixed_font 1 1)
              7 9 5 (str "a b")) as (rs & Hdraw & _ & Hrow).
  - intros c. unfold glyph_width, WatermarkApp.char_item.
    destruct (c =? SPACE); [vm_compute; discriminate |].
    destruct (WatermarkApp.is_chinese c); vm_compute; discriminate.
  - discriminate.
  - vm_compute. discriminate.
  - exists rs. split; [exact Hdraw |]. split; [| exact Hrow].
    vm_compute in Hdraw. injection Hdraw as <-. reflexivity.
Defined.

Lemma text_size_fold (use_bbox : bool) (font_chinese font_english : Font) (t : text) :
  forall acc : Q * Q,
    (fst (fold_left
            (fun acc c =>
               let font :=
                 if WatermarkApp.is_chinese c then font_chinese else font_english in
               let wh := WatermarkApp.get_char_metrics use_bbox c font in
               ((fst acc + fst wh)%Q, qmax (snd acc) (snd wh)))
            t acc)
     == fst acc
        + buffer_width
            (WatermarkApp.word_chars_metrics use_bbox font_chinese font_english t))%Q.
Proof.
  induction t as [| c t IH]; intros acc.
  - cbn. lra.
  - cbn [fold_left]. rewrite IH.
    change (buffer_width
              (WatermarkApp.word_chars_metrics use_bbox font_chinese font_english (c :: t)))
      with (WatermarkApp.item_width
              (WatermarkApp.char_item use_bbox font_chinese font_english c)
            + buffer_width
                (WatermarkApp.word_chars_metrics use_bbox font_chinese font_english t))%Q.
    unfold WatermarkApp.char_item. cbn [fst WatermarkApp.item_width]. lra.
Qed.

Lemma text_size_width (use_bbox : bool) (font_chinese font_english : Font) (t : text) :
  (fst (WatermarkApp.calculate_text_size use_bbox t font_chinese font_english)
   == buffer_width
        (WatermarkApp.word_chars_metrics use_bbox font_chinese font_english t))%Q.
Proof.
  destruct t as [| c t]; [cbn; lra |].
  unfold WatermarkApp.calculate_text_size. rewrite text_size_fold. cbn [fst]. lra.
Qed.

(** X15. The width that [calculate_text_size] estimates is the sum of the
    measured glyph widths of all characters, spaces included; it is
    additive over concatenation, and it equals the width that
    [draw_watermark] uses for the text on one line when the text holds no
    space, or when the space glyph is measured as wide as the space
    advance of the layout. *)
Theorem text_size_estimate_and_line_width
    (use_bbox : bool) (font_chinese font_english : Font) :
  let estimate (t : text) :=
    fst (WatermarkApp.calculate_text_size use_bbox t font_chinese font_english) in
  (forall t,
      (estimate t
       == buffer_width
            (WatermarkApp.word_chars_metrics use_bbox font_chinese font_english t))%Q)
  /\ (forall a b, (estimate (a ++ b) == estimate a + estimate b)%Q)
  /\ (forall t, ~ In SPACE t ->
        (estimate t == line_width use_bbox font_chinese font_english t)%Q)
  /\ ((WatermarkApp.item_width
         (WatermarkApp.char_item use_bbox font_chinese font_english SPACE)
       == WatermarkApp.space_width font_english)%Q ->
      forall t, (estimate t == line_width use_bbox font_chinese font_english t)%Q).
Proof.
  intros estimate. split; [| split; [| split]].
  - intros t. apply text_size_width.
  - intros a b. unfold estimate. rewrite !text_size_width.
    unfold WatermarkApp.word_chars_metrics. rewrite map_app. apply buffer_width_app.
  - intros t Ht. unfold estimate. rewrite text_size_width.
    now apply metrics_line_width.
  - intros Hspace t. unfold estimate. rewrite text_size_width.
    induction t as [| c t IH]; [reflexivity |].
    change (buffer_width
              (WatermarkApp.word_chars_metrics use_bbox font_chinese font_english (c :: t)))
      with (WatermarkApp.item_width
              (WatermarkApp.char_item use_bbox font_chinese font_english c)
            + buffer_width
                (WatermarkApp.word_chars_metrics use_bbox font_chinese font_english t))%Q.
    change (line_width use_bbox font_chinese font_english (c :: t))
      with (glyph_width use_bbox font_chinese font_english c
            + line_width use_bbox font_chinese font_english t)%Q.
    rewrite IH. unfold glyph_width.
    destruct (Z.eqb_spec c SPACE) as [-> | Hc]; [rewrite Hspace |]; reflexivity.
Qed.

Lemma text_size_estimate_and_line_width_fixed_font :
  (WatermarkApp.item_width (WatermarkApp.char_item true (fixed_font 2 3) (fixed_font 2 3) SPACE)
   == WatermarkApp.space_width (fixed_font 2 3))%Q
  /\ (fst (WatermarkApp.calculate_text_size true (str "a b") (fixed_font 2 3) (fixed_font 2 3))
      == line_width true (fixed_font 2 3) (fixed_font 2 3) (str "a b"))%Q.
Proof.
  split; [reflexivity |].
  exact (proj2 (proj2 (proj2 (text_size_estimate_and_line_width true
                                (fixed_font 2 3) (fixed_font 2 3))))
           ltac:(reflexivity) (str "a b")).
Defined.

(** ** Colours in hexadecimal *)

Lemma format_02x_byte (v : Z) :
  0 <= v <= 255 ->
  exists d1 d2,
    format_02x v = [d1; d2] /\ d1 <> 35 /\ int_of_str 16 [d1; d2] = Some v.
Proof.
  intros Hv.
  assert (Hall : forallb
                   (fun v =>
                      match format_02x v with
                      | [d1; d2] =>
                          negb (d1 =? 35)
                          && bool_decide (int_of_str 16 [d1; d2] = Some v)
                      | _ => false
                      end)
                   (seqZ 0 256) = true) by (vm_compute; reflexivity).
  rewrite forallb_forall in Hall.
  assert (Hin : In v (seqZ 0 256)) by (apply list_elem_of_In, elem_of_seqZ; lia).
  specialize (Hall v Hin). cbv beta in Hall.
  destruct (format_02x v) as [| d1 [| d2 [| d3 rest]]]; try discriminate.
  apply andb_true_iff in Hall. destruct Hall as [Hd1 Hint].
  exists d1, d2. split; [reflexivity |]. split.
  - apply negb_true_iff, Z.eqb_neq in Hd1. exact Hd1.
  - now apply bool_decide_eq_true in Hint.
Qed.

(** X16. For colour components between 0 and 255, [rgb_to_hex] yields a
    ['#'] followed by six characters, and [hex_to_rgb] reads the three
    components back from it. *)
Theorem hex_to_rgb_inverts_rgb_to_hex (r g b : Z) :
  0 <= r <= 255 -> 0 <= g <= 255 -> 0 <= b <= 255 ->
  length (WatermarkTool.rgb_to_hex (r, g, b)) = 7%nat
  /\ head (WatermarkTool.rgb_to_hex (r, g, b)) = Some 35
  /\ WatermarkTool.hex_to_rgb (WatermarkTool.rgb_to_hex (r, g, b)) = Some (r, g, b).
Proof.
  intros Hr Hg Hb.
  destruct (format_02x_byte r Hr) as (r1 & r2 & Er & Hr1 & Ir).
  destruct (format_02x_byte g Hg) as (g1 & g2 & Eg & _ & Ig).
  destruct (format_02x_byte b Hb) as (b1 & b2 & Eb & _ & Ib).
  unfold WatermarkTool.rgb_to_hex. rewrite Er, Eg, Eb.
  split; [reflexivity |]. split; [reflexivity |].
  unfold WatermarkTool.hex_to_rgb.
  cbn [app lstrip_char]. change (35 =? 35) with true. cbv iota.
  cbn [lstrip_char].
  apply Z.eqb_neq in Hr1. rewrite Hr1.
  change (slice 0 2 [r1; r2; g1; g2; b1; b2]) with [r1; r2].
  change (slice 2 4 [r1; r2; g1; g2; b1; b2]) with [g1; g2].
  change (slice 4 6 [r1; r2; g1; g2; b1; b2]) with [b1; b2].
  now rewrite Ir, Ig, Ib.
Qed.

Lemma hex_to_rgb_inverts_rgb_to_hex_yellow :
  0 <= 255 <= 255 /\ 0 <= 200 <= 255 /\ 0 <= 7 <= 255
  /\ WatermarkTool.rgb_to_hex (255, 200, 7) = str "#ffc807"
  /\ WatermarkTool.hex_to_rgb (str "#ffc807") = Some (255, 200, 7).
Proof.
  split; [lia | split; [lia | split; [lia | split; [reflexivity |]]]].
  exact (proj2 (proj2 (hex_to_rgb_inverts_rgb_to_hex 255 200 7
                         ltac:(lia) ltac:(lia) ltac:(lia)))).
Defined.

(** ** Aspect ratio *)

Lemma int_truediv_exact (a g : Z) :
  0 < g -> Z.abs (a * g) < 2 ^ 53 ->
  exists r, int_truediv (a * g) g = Some r /\ (r == inject_Z a)%Q.
Proof.
  intros Hg Hbound. unfold int_truediv.
  assert (Ha : Z.abs a < 2 ^ 53) by nia.
  assert (Hquot : (inject_Z (a * g) / inject_Z g == inject_Z a)%Q).
  { rewrite inject_Z_mult. field. unfold Qeq, inject_Z. cbn. lia. }
  rewrite (binary64_proper _ _ Hquot).
  pose proof (binary64_integer a Ha) as Hexact.
  assert (Hmax : 2 ^ 53 <= (2 ^ 53 - 1) * 2 ^ 971) by (vm_compute; discriminate).
  assert (Hle : Qle_bool (binary64 (inject_Z a)) max_float = true).
  { apply Qle_bool_iff. rewrite Hexact. unfold max_float. rewrite <- Zle_Qle. lia. }
  assert (Hge : Qle_bool (- max_float) (binary64 (inject_Z a)) = true).
  { apply Qle_bool_iff. rewrite Hexact. unfold max_float.
    rewrite <- inject_Z_opp, <- Zle_Qle. lia. }
  rewrite Hle, Hge. cbn [andb]. eexists. split; [reflexivity | exact Hexact].
Qed.

(** X17. For a non-zero width and height below 2^53 in absolute value,
    [calculate_aspect_ratio] returns the two sides divided by their
    greatest common divisor, exactly: two integers without a common
    factor, in the proportion of the sides and with their signs. (Above
    2^53 the float quotients are rounded, and the proportion can be
    lost.) *)
Theorem aspect_ratio_is_in_lowest_terms (width height : Z) :
  width <> 0 -> height <> 0 ->
  Z.abs width < 2 ^ 53 -> Z.abs height < 2 ^ 53 ->
  exists (a b : Z) (ratio : Q * Q),
    Utils.calculate_aspect_ratio width height = Some ratio
    /\ (fst ratio == inject_Z a)%Q
    /\ (snd ratio == inject_Z b)%Q
    /\ Z.gcd a b = 1
    /\ a * height = b * width
    /\ width = a * Z.gcd width height
    /\ height = b * Z.gcd width height.
Proof.
  intros Hw Hh Hwidth Hheight.
  unfold Utils.calculate_aspect_ratio.
  destruct (width =? 0) eqn:Ew; [apply Z.eqb_eq in Ew; contradiction |].
  destruct (height =? 0) eqn:Eh; [apply Z.eqb_eq in Eh; contradiction |].
  cbn [orb].
  set (g := Z.gcd width height).
  assert (Hg : 0 < g).
  { pose proof (Z.gcd_nonneg width height).
    assert (g <> 0) by (unfold g; intros Hz; apply Z.gcd_eq_0_l in Hz; contradiction).
    unfold g in *. lia. }
  destruct (Z.gcd_divide_l width height) as [a Ha].
  destruct (Z.gcd_divide_r width height) as [b Hb].
  fold g in Ha, Hb.
  assert (Hco : Z.gcd a b = 1).
  { pose proof (Z.gcd_div_gcd width height g ltac:(lia) eq_refl) as Hco.
    rewrite Ha in Hco at 1. rewrite Hb in Hco at 1.
    rewrite !Z.div_mul in Hco by lia. exact Hco. }
  destruct (int_truediv_exact a g Hg) as (ra & Era & Hra); [rewrite <- Ha; exact Hwidth |].
  destruct (int_truediv_exact b g Hg) as (rb & Erb & Hrb); [rewrite <- Hb; exact Hheight |].
  rewrite <- Ha in Era. rewrite <- Hb in Erb.
  exists a, b, (ra, rb). cbn [fst snd].
  split; [cbv zeta; fold g; rewrite Era, Erb; reflexivity |]. split; [exact Hra |]. split; [exact Hrb |].
  split; [exact Hco |]. split; [rewrite Ha, Hb; ring | split; assumption].
Qed.

Lemma aspect_ratio_is_in_lowest_terms_photo :
  4000 <> 0 /\ 3000 <> 0 /\ Z.abs 4000 < 2 ^ 53 /\ Z.abs 3000 < 2 ^ 53
  /\ Utils.calculate_aspect_ratio 4000 3000 = Some (4, 3)%Q
  /\ exists (a b : Z) (ratio : Q * Q),
       Utils.calculate_aspect_ratio 4000 3000 = Some ratio
       /\ (fst ratio == inject_Z a)%Q
       /\ (snd ratio == inject_Z b)%Q
       /\ Z.gcd a b = 1.
Proof.
  assert (Hsmall : Z.abs 4000 < 2 ^ 53 /\ Z.abs 3000 < 2 ^ 53)
    by (split; vm_compute; reflexivity).
  destruct Hsmall as [Hw Hh].
  split; [lia | split; [lia | split; [exact Hw | split; [exact Hh |]]]].
  split; [vm_compute; reflexivity |].
  destruct (aspect_ratio_is_in_lowest_terms 4000 3000 ltac:(lia) ltac:(lia) Hw Hh)
    as (a & b & ratio & Hratio & Ha & Hb & Hco & _).
  exists a, b, ratio. split; [exact Hratio | split; [exact Ha | split; [exact Hb | exact Hco]]].
Defined.

(** Above 2^53 the quotient is rounded: 27021597764222979 / 3 is
    2^53 + 1, which binary64 does not hold. *)
Example aspect_ratio_is_rounded_above_2_53 :
  Utils.calculate_aspect_ratio 27021597764222979 3 = Some (9007199254740992, 1)%Q.
Proof. vm_compute. reflexivity. Qed.

(** ** File names *)

Lemma splitext_app (os : Flavour) (p : text) :
  fst (splitext os p) ++ snd (splitext os p) = p.
Proof.
  unfold splitext.
  destruct (_ <? rfind 46 p); [| apply app_nil_r].
  destruct (existsb _ _); [| apply app_nil_r].
  cbn [fst snd]. unfold slice_to, slice_from. apply take_drop.
Qed.

Lemma splitext_length (os : Flavour) (p : text) :
  (length (fst (splitext os p)) + length (snd (splitext os p)) = length p)%nat.
Proof. rewrite <- (splitext_app os p) at 3. now rewrite length_app. Qed.

Lemma slice_to_length (k : Z) (s : text) :
  0 <= k -> Z.of_nat (length (slice_to k s)) = Z.min k (Z.of_nat (length s)).
Proof.
  intros Hk. unfold slice_to, slice_index.
  destruct (k <? 0) eqn:Hneg; [apply Z.ltb_lt in Hneg; lia |].
  rewrite length_take. lia.
Qed.

(** X18. For a limit that is not negative, [truncate_filename] returns a
    name of [min(len(filename), max_length)] characters: the name itself
    when it fits, and otherwise exactly [max_length] characters, which,
    when the extension and the three dots leave room for at least one
    character, are a beginning of the name, three dots and the whole
    extension. *)
Theorem truncate_filename_length (os : Flavour) (filename : text) (max_length : Z) :
  0 <= max_length ->
  let shown := Utils.truncate_filename os filename max_length in
  let ext := snd (splitext os filename) in
  Z.of_nat (length shown) = Z.min (Z.of_nat (length filename)) max_length
  /\ (Z.of_nat (length filename) <= max_length -> shown = filename)
  /\ (max_length < Z.of_nat (length filename) ->
      Z.of_nat (length ext) + 3 < max_length ->
      exists stem,
        shown = stem ++ str "..." ++ ext
        /\ stem `prefix_of` filename
        /\ Z.of_nat (length stem) = max_length - Z.of_nat (length ext) - 3).
Proof.
  intros Hmax shown ext.
  unfold shown, Utils.truncate_filename.
  pose proof (splitext_app os filename) as Happ.
  pose proof (splitext_length os filename) as Hlen.
  fold ext in Happ, Hlen.
  destruct (splitext os filename) as [name e] eqn:Hsplit.
  cbn [fst snd] in *. subst ext. cbn [snd].
  destruct (Z.of_nat (length filename) <=? max_length) eqn:Hfits.
  - apply Z.leb_le in Hfits. split; [lia |]. split; [reflexivity | lia].
  - apply Z.leb_gt in Hfits.
    destruct (max_length - Z.of_nat (length e) - 3 <=? 0) eqn:Hroom.
    + apply Z.leb_le in Hroom.
      split; [rewrite slice_to_length by lia; lia |]. split; [lia | lia].
    + apply Z.leb_gt in Hroom.
      assert (Hstem : Z.of_nat (length (slice_to (max_length - Z.of_nat (length e) - 3) name))
                      = max_length - Z.of_nat (length e) - 3)
        by (rewrite slice_to_length by lia; lia).
      split; [| split; [lia |]].
      * rewrite !length_app, !Nat2Z.inj_add, Hstem.
        change (Z.of_nat (length (str "..."))) with 3. lia.
      * intros _ _. eexists. split; [reflexivity |]. split; [| exact Hstem].
        rewrite <- Happ. unfold slice_to.
        apply prefix_app_r, prefix_take.
Qed.

Lemma truncate_filename_length_example :
  0 <= 12
  /\ Utils.truncate_filename posixpath (str "holiday_photo_0001.jpeg") 12
     = str "holi....jpeg"
  /\ Z.of_nat (length (Utils.truncate_filename posixpath (str "holiday_photo_0001.jpeg") 12))
     = Z.min (Z.of_nat (length (str "holiday_photo_0001.jpeg"))) 12.
Proof.
  split; [lia | split; [reflexivity |]].
  exact (proj1 (truncate_filename_length posixpath (str "holiday_photo_0001.jpeg") 12
                  ltac:(lia))).
Defined.

Import Names.

Lemma replace_char (c n : char) (s : text) :
  replace [c] [n] s = List.map (fun x => if x =? c then n else x) s.
Proof.
  induction s as [| x s IH]; [reflexivity |].
  cbn [List.map]. destruct (Z.eqb_spec x c) as [-> | Hx].
  - rewrite (replace_match [c] [n] c s s); [| discriminate |].
    + now rewrite IH.
    + cbn. now rewrite Z.eqb_refl.
  - rewrite replace_skip.
    + now rewrite IH.
    + cbn. destruct (Z.eqb_spec c x); [congruence | reflexivity].
Qed.

Lemma replaced_chars (cs : list char) :
  ~ In 95 cs ->
  forall (s : text) (x : char),
    In x (fold_left (fun f c => replace [c] [95] f) cs s) ->
    ~ In x cs /\ (In x s \/ x = 95).
Proof.
  induction cs as [| c cs IH]; intros Hcs s x; cbn [fold_left].
  - intros Hx. split; [intros [] | now left].
  - intros Hx. apply IH in Hx; [| intros H; apply Hcs; now right].
    destruct Hx as [Hrest Hx]. rewrite replace_char in Hx.
    assert (H95 : 95 <> c) by (intros H; apply Hcs; left; now symmetry).
    assert (Hc : x <> c /\ (In x s \/ x = 95)).
    { destruct Hx as [Hx | Hx].
      - apply in_map_iff in Hx. destruct Hx as (z & Hz & Hin).
        destruct (z =? c) eqn:Hzc.
        + split; [congruence | right; congruence].
        + apply Z.eqb_neq in Hzc. split; [congruence | left; now subst x].
      - split; [congruence | now right]. }
    destruct Hc as [Hc Hin]. split; [| exact Hin].
    intros [-> | Hin']; [now apply Hc | now apply Hrest].
Qed.

Lemma sanitized_chars (filename : text) (c : char) :
  In c (sanitized filename) -> 32 <= c /\ ~ In c Utils.illegal_chars.
Proof.
  unfold sanitized. intros Hin. apply filter_In in Hin. destruct Hin as [Hin Hc].
  split; [now apply Z.leb_le |].
  apply (replaced_chars Utils.illegal_chars) in Hin; [tauto |].
  cbn. intuition discriminate.
Qed.

Lemma lstrip_suffix (s : text) : exists p, s = p ++ lstrip s.
Proof.
  induction s as [| c s [p IH]]; [now exists [] |].
  cbn. destruct (isspace c); [| now exists []].
  exists (c :: p). cbn. now rewrite <- IH.
Qed.

Lemma strip_within (s : text) :
  (forall c, In c (strip s) -> In c s) /\ (length (strip s) <= length s)%nat.
Proof.
  unfold strip, rstrip.
  destruct (lstrip_suffix s) as [p Hp].
  destruct (lstrip_suffix (rev (lstrip s))) as [q Hq].
  split.
  - intros c Hc. rewrite <- in_rev in Hc.
    rewrite Hp. apply in_or_app. right.
    apply in_rev. rewrite Hq. apply in_or_app. now right.
  - rewrite length_rev.
    assert (length (lstrip (rev (lstrip s))) <= length (rev (lstrip s)))%nat
      by (rewrite Hq at 2; rewrite length_app; lia).
    rewrite length_rev in H.
    assert (length (lstrip s) <= length s)%nat
      by (rewrite Hp at 2; rewrite length_app; lia).
    lia.
Qed.

Lemma rfind_absent (c : char) (s : text) :
  ~ In c s -> forall i found, rfind_from c s i found = found.
Proof.
  induction s as [| x s IH]; intros Hc i found; [reflexivity |].
  cbn. destruct (Z.eqb_spec x c) as [-> | Hx]; [exfalso; apply Hc; now left |].
  apply IH. intros H. apply Hc. now right.
Qed.

Lemma splitext_sanitized (filename : text) :
  splitext posixpath (sanitized filename) = splitext ntpath (sanitized filename).
Proof.
  assert (H47 : rfind 47 (sanitized filename) = -1).
  { apply rfind_absent. intros Hin. apply sanitized_chars in Hin.
    destruct Hin as [_ Hin]. apply Hin. cbn. tauto. }
  assert (H92 : rfind 92 (sanitized filename) = -1).
  { apply rfind_absent. intros Hin. apply sanitized_chars in Hin.
    destruct Hin as [_ Hin]. apply Hin. cbn. tauto. }
  unfold splitext. cbn [sep altsep posixpath ntpath]. now rewrite H47, H92.
Qed.

Lemma safe_filename_unfold (os : Flavour) (filename : text) :
  Utils.safe_filename os filename
  = strip (if (200 <? length (sanitized filename))%nat
           then slice_to (200 - Z.of_nat (length (snd (splitext os (sanitized filename)))))
                  (fst (splitext os (sanitized filename)))
                ++ snd (splitext os (sanitized filename))
           else sanitized filename).
Proof.
  unfold Utils.safe_filename, sanitized.
  destruct (200 <? _)%nat; [| reflexivity].
  now destruct (splitext os _).
Qed.

(** X19. The name [safe_filename] returns holds no control character and
    none of the nine characters it declares illegal; as no path separator
    is left when the extension is split off, the result is the same
    under the POSIX and the Windows flavour of [os.path]; and it is at
    most 200 characters long whenever the extension of the cleaned name
    is. *)
Theorem safe_filename_is_clean (os : Flavour) (filename : text) :
  (forall c, In c (Utils.safe_filename os filename) ->
             32 <= c /\ ~ In c Utils.illegal_chars)
  /\ Utils.safe_filename posixpath filename = Utils.safe_filename ntpath filename
  /\ ((length (snd (splitext os (sanitized filename))) <= 200)%nat ->
      (length (Utils.safe_filename os filename) <= 200)%nat).
Proof.
  pose proof (splitext_app os (sanitized filename)) as Happ.
  pose proof (splitext_length os (sanitized filename)) as Hlen.
  split; [| split].
  - intros c Hc. rewrite safe_filename_unfold in Hc.
    apply strip_within in Hc. apply (sanitized_chars filename).
    destruct (200 <? length (sanitized filename))%nat; [| exact Hc].
    rewrite <- Happ. apply in_app_iff in Hc. apply in_or_app.
    destruct Hc as [Hc | Hc]; [left | now right].
    unfold slice_to in Hc.
    rewrite <- (take_drop (slice_index
                             (200 - Z.of_nat (length (snd (splitext os (sanitized filename)))))
                             (fst (splitext os (sanitized filename))))
                  (fst (splitext os (sanitized filename)))).
    apply in_or_app. now left.
  - rewrite !safe_filename_unfold. now rewrite splitext_sanitized.
  - intros Hext. rewrite safe_filename_unfold.
    etransitivity; [apply strip_within |].
    destruct (200 <? length (sanitized filename))%nat eqn:Hlong.
    + rewrite length_app.
      pose proof (slice_to_length
                    (200 - Z.of_nat (length (snd (splitext os (sanitized filename)))))
                    (fst (splitext os (sanitized filename))) ltac:(lia)).
      lia.
    + apply Nat.ltb_ge in Hlong. exact Hlong.
Qed.

Lemma safe_filename_is_clean_example :
  let name := str " report: a/b?" ++ [9] ++ str ".txt " in
  Utils.safe_filename ntpath name = str "report_ a_b_.txt"
  /\ (length (snd (splitext ntpath (sanitized name))) <= 200)%nat
  /\ (length (Utils.safe_filename ntpath name) <= 200)%nat.
Proof.
  intros name.
  split; [reflexivity |].
  assert (Hext : (length (snd (splitext ntpath (sanitized name))) <= 200)%nat)
    by (vm_compute; lia).
  split; [exact Hext |].
  exact (proj2 (proj2 (safe_filename_is_clean ntpath name)) Hext).
Defined.

Lemma str_inj (a b : string) : str a = str b -> a = b.
Proof.
  revert b. induction a as [| x a IH]; intros [| y b]; cbn; try discriminate.
  - reflexivity.
  - intros [= Hxy Hab]. f_equal; [| now apply IH].
    apply N2Z.inj in Hxy.
    rewrite <- (ascii_N_embedding x), <- (ascii_N_embedding y). now rewrite Hxy.
Qed.

Lemma str_int_inj (a b : Z) : str_int a = str_int b -> a = b.
Proof.
  unfold str_int. intros H. apply str_inj in H.
  assert (Hd : Z.to_int a = Z.to_int b).
  { pose proof (DecimalString.NilEmpty.isi (Z.to_int a)) as Ha.
    pose proof (DecimalString.NilEmpty.isi (Z.to_int b)) as Hb.
    rewrite H in Ha. congruence. }
  rewrite <- (DecimalZ.of_to a), <- (DecimalZ.of_to b). now rewrite Hd.
Qed.

Lemma candidate_inj (base_name extension : text) (j k : Z) :
  candidate base_name extension j = candidate base_name extension k ->
  (j =? 0) = (k =? 0) /\ (j <> 0 -> j = k).
Proof.
  unfold candidate, Utils.numbered.
  destruct (Z.eqb_spec j 0) as [-> | Hj]; destruct (Z.eqb_spec k 0) as [-> | Hk];
    intros H; apply app_inv_head in H; try discriminate.
  - split; [reflexivity | intros Hne; contradiction].
  - split; [reflexivity | intros _].
    cbn [app] in H. injection H as H.
    apply str_int_inj. apply app_inv_tail in H. exact H.
Qed.

Lemma unique_loop_spec (taken : gset text) (base_name extension : text) (fuel : nat) :
  forall (k : Z) (T : gset text),
    0 <= k ->
    (forall j, k <= j -> (candidate base_name extension j ∈ taken) ->
               (candidate base_name extension j ∈ T)) ->
    (base.size T <= fuel)%nat ->
    exists k',
      k <= k' <= k + Z.of_nat (base.size T)
      /\ Utils.unique_loop taken base_name extension fuel
           (candidate base_name extension k) (k + 1)
         = Some (candidate base_name extension k')
      /\ (candidate base_name extension k' ∉ taken)
      /\ forall j, k <= j < k' -> (candidate base_name extension j ∈ taken).
Proof.
  induction fuel as [| fuel IH]; intros k T Hk HT Hfuel.
  - cbn [Utils.unique_loop].
    destruct (bool_decide (candidate base_name extension k ∈ taken)) eqn:Hin.
    + apply bool_decide_eq_true in Hin.
      assert (HinT : candidate base_name extension k ∈ T) by (apply HT; [lia | exact Hin]).
      assert (Hempty : base.size T = 0%nat) by lia.
      apply size_empty_inv in Hempty. set_solver.
    + apply bool_decide_eq_false in Hin.
      exists k. split; [lia |]. split; [reflexivity |]. split; [exact Hin |].
      intros j Hj. lia.
  - cbn [Utils.unique_loop].
    destruct (bool_decide (candidate base_name extension k ∈ taken)) eqn:Hin.
    + apply bool_decide_eq_true in Hin.
      assert (HinT : candidate base_name extension k ∈ T) by (apply HT; [lia | exact Hin]).
      assert (Hsub : {[candidate base_name extension k]} ⊆ T)
        by (apply singleton_subseteq_l; exact HinT).
      pose proof (size_difference T _ Hsub) as Hsize.
      pose proof (subseteq_size _ _ Hsub) as Hone.
      rewrite size_singleton in Hsize, Hone.
      assert (Hnext : Utils.numbered base_name extension (k + 1)
                      = candidate base_name extension (k + 1)).
      { unfold candidate. destruct (Z.eqb_spec (k + 1) 0); [lia | reflexivity]. }
      rewrite Hnext.
      destruct (IH (k + 1) (T ∖ {[candidate base_name extension k]}) ltac:(lia))
        as (k' & Hk' & Hrun & Hfresh & Hbelow).
      * intros j Hj Hjin. apply elem_of_difference. split; [apply HT; [lia | exact Hjin] |].
        intros Heq. apply elem_of_singleton in Heq.
        apply candidate_inj in Heq. destruct Heq as [_ Heq].
        specialize (Heq ltac:(lia)). lia.
      * lia.
      * exists k'. split; [lia |]. split; [exact Hrun |]. split; [exact Hfresh |].
        intros j Hj. destruct (Z.eq_dec j k) as [-> | Hjk]; [exact Hin |].
        apply Hbelow. lia.
    + apply bool_decide_eq_false in Hin.
      exists k. split; [lia |]. split; [reflexivity |]. split; [exact Hin |].
      intros j Hj. lia.
Qed.

(** X20. For every finite set of existing names, [get_unique_filename]
    returns: its loop stops within as many runs as there are existing
    names. The name returned does not exist; it is the plain
    [base_name.extension] (dots stripped from the front of the extension)
    when that is free, and otherwise the numbered name with the least
    counter from 1 on that is free. *)
Theorem get_unique_filename_is_fresh (taken : gset text) (base_name extension : text) :
  let ext := lstrip_char 46 extension in
  exists k,
    0 <= k <= Z.of_nat (base.size taken)
    /\ Utils.get_unique_filename taken base_name extension
       = Some (candidate base_name ext k)
    /\ (candidate base_name ext k ∉ taken)
    /\ forall j, 0 <= j < k -> (candidate base_name ext j ∈ taken).
Proof.
  intros ext.
  destruct (unique_loop_spec taken base_name ext (base.size taken) 0 taken
              ltac:(lia) ltac:(auto) ltac:(lia))
    as (k & Hk & Hrun & Hfresh & Hbelow).
  exists k. split; [lia |]. split; [exact Hrun |]. split; [exact Hfresh | exact Hbelow].
Qed.

Example get_unique_filename_skips_taken_names :
  Utils.get_unique_filename {[ str "a.png"; str "a_1.png"; str "b.png" ]} (str "a") (str ".png")
  = Some (str "a_2.png").
Proof. vm_compute. reflexivity. Qed.

(** ** The parameters of a run *)

Lemma str_cons (a : ascii) (s : string) : str (String a s) = Z.of_N (N_of_ascii a) :: str s.
Proof. reflexivity. Qed.

Lemma scan_decimal_acc (d : Decimal.uint) :
  forall acc : positive,
    scan_digits 10 (str (DecimalString.NilEmpty.string_of_uint d)) false true (Z.pos acc)
    = Some (Z.pos (Pos.of_uint_acc d acc), true, []).
Proof.
  induction d as [| d IH | d IH | d IH | d IH | d IH | d IH | d IH | d IH | d IH | d IH];
    intros acc; cbn [DecimalString.NilEmpty.string_of_uint Pos.of_uint_acc];
    [reflexivity | ..];
    rewrite str_cons;
    match goal with
    | |- scan_digits _ (?c :: _) _ _ _ = _ =>
        let v := eval vm_compute in c in change c with v
    end;
    cbn [scan_digits]; cbv beta iota;
    match goal with
    | |- context [Pos.of_uint_acc d ?p] => rewrite <- (IH p)
    end;
    cbn; f_equal; lia.
Qed.

Lemma scan_decimal (d : Decimal.uint) :
  d <> Decimal.Nil ->
  forall seen,
    scan_digits 10 (str (DecimalString.NilEmpty.string_of_uint d)) false seen 0
    = Some (Z.of_N (Pos.of_uint d), true, []).
Proof.
  induction d as [| d IH | d IH | d IH | d IH | d IH | d IH | d IH | d IH | d IH | d IH];
    intros Hd seen; [congruence | ..];
    cbn [DecimalString.NilEmpty.string_of_uint Pos.of_uint];
    rewrite str_cons;
    match goal with
    | |- scan_digits _ (?c :: _) _ _ _ = _ =>
        let v := eval vm_compute in c in change c with v
    end;
    cbn [scan_digits]; cbv beta iota.
  - change (48 =? 95) with false. change (digit_value 48) with (Some 0).
    change (0 <? 10) with true. cbv iota. change (0 * 10 + 0) with 0.
    destruct d; [reflexivity | apply IH; discriminate ..].
  - apply (scan_decimal_acc d 1).
  - apply (scan_decimal_acc d 2).
  - apply (scan_decimal_acc d 3).
  - apply (scan_decimal_acc d 4).
  - apply (scan_decimal_acc d 5).
  - apply (scan_decimal_acc d 6).
  - apply (scan_decimal_acc d 7).
  - apply (scan_decimal_acc d 8).
  - apply (scan_decimal_acc d 9).
Qed.

Lemma decimal_digits (d : Decimal.uint) :
  Forall (fun x => 48 <= x <= 57) (str (DecimalString.NilEmpty.string_of_uint d)).
Proof.
  induction d; cbn [DecimalString.NilEmpty.string_of_uint];
    [constructor | ..]; rewrite str_cons; constructor; try exact IHd; vm_compute;
    split; discriminate.
Qed.

Lemma to_ascii_digits (s : text) :
  Forall (fun x => 48 <= x <= 57) s -> List.map to_ascii s = s.
Proof.
  induction 1 as [| x s Hx _ IH]; [reflexivity |].
  cbn [List.map]. rewrite IH. f_equal. unfold to_ascii.
  destruct (x <? 128) eqn:E; [reflexivity | apply Z.ltb_ge in E; lia].
Qed.

Lemma int_of_digits_string (d : Decimal.uint) :
  d <> Decimal.Nil ->
  int_of_str 10 (str (DecimalString.NilEmpty.string_of_uint d))
  = Some (Z.of_N (Pos.of_uint d))
  /\ int_of_str 10 (45 :: str (DecimalString.NilEmpty.string_of_uint d))
     = Some (- Z.of_N (Pos.of_uint d)).
Proof.
  intros Hd.
  pose proof (scan_decimal d Hd false) as Hscan.
  pose proof (to_ascii_digits _ (decimal_digits d)) as Hascii.
  unfold int_of_str. cbn [List.map]. change (to_ascii 45) with 45. rewrite Hascii.
  generalize dependent (Z.of_N (Pos.of_uint d)). intros v Hscan. clear Hascii.
  destruct d; [congruence | ..];
    cbn [DecimalString.NilEmpty.string_of_uint] in *; rewrite str_cons in *;
    match goal with
    | |- context [Z.of_N (N_of_ascii ?a)] =>
        let c := eval vm_compute in (Z.of_N (N_of_ascii a)) in
        change (Z.of_N (N_of_ascii a)) with c in *
    end;
    set (s := str (DecimalString.NilEmpty.string_of_uint d)) in *; clearbody s;
    repeat match goal with
           | |- context [skip_spaces (?c :: ?t)] =>
               change (skip_spaces (c :: t)) with (c :: t)
           end;
    cbv beta iota zeta;
    try (rewrite Hscan; split; reflexivity).
  destruct s as [| x s]; cbv beta iota zeta;
    change (10 =? 16) with false; cbn [andb]; cbv beta iota zeta;
    rewrite Hscan; split; reflexivity.
Qed.

Lemma int_of_str_str_int (n : Z) : int_of_str 10 (str_int n) = Some n.
Proof.
  unfold str_int. destruct n as [| p | p]; [reflexivity | |].
  - cbn [Z.to_int DecimalString.NilEmpty.string_of_int].
    destruct (int_of_digits_string (Pos.to_uint p)
                (DecimalPos.Unsigned.to_uint_nonnil p)) as [-> _].
    now rewrite DecimalPos.Unsigned.of_to.
  - cbn [Z.to_int DecimalString.NilEmpty.string_of_int]. rewrite str_cons.
    change (Z.of_N (N_of_ascii "-")) with 45.
    destruct (int_of_digits_string (Pos.to_uint p)
                (DecimalPos.Unsigned.to_uint_nonnil p)) as [_ ->].
    now rewrite DecimalPos.Unsigned.of_to.
Qed.

Lemma lstrip_head (s : text) :
  match lstrip s with
  | [] => True
  | c :: _ => isspace c = false
  end.
Proof.
  induction s as [| c s IH]; [exact I |].
  cbn [lstrip]. destruct (isspace c) eqn:Hc; [exact IH | exact Hc].
Qed.

Lemma lstrip_fixed (s : text) :
  match s with
  | [] => True
  | c :: _ => isspace c = false
  end -> lstrip s = s.
Proof. destruct s as [| c s]; [reflexivity |]. cbn [lstrip]. now intros ->. Qed.

Lemma strip_idempotent (s : text) : strip (strip s) = strip s.
Proof.
  unfold strip, rstrip.
  set (u := lstrip s).
  set (v := lstrip (rev u)).
  assert (Hv : lstrip v = v) by (apply lstrip_fixed, lstrip_head).
  assert (Hu : lstrip (rev v) = rev v).
  { apply lstrip_fixed.
    destruct (lstrip_suffix (rev u)) as [q Hq]. fold v in Hq.
    assert (Hprefix : u = rev v ++ rev q)
      by (rewrite <- (rev_involutive u), Hq, rev_app_distr; reflexivity).
    pose proof (lstrip_head s) as Hhead. fold u in Hhead.
    destruct (rev v) as [| c t]; [exact I |].
    rewrite Hprefix in Hhead. exact Hhead. }
  now rewrite Hu, rev_involutive, Hv.
Qed.

Lemma validated_params_spec (gui : WatermarkApp.Gui) (t : text) (fs op : Z) (pos : text) :
  WatermarkApp._get_validated_params gui = inr (t, fs, op, pos) ->
  t = strip (WatermarkApp.entry_text gui) /\ t <> []
  /\ int_of_str 10 (WatermarkApp.entry_font_size gui) = Some fs /\ 0 < fs
  /\ int_of_str 10 (WatermarkApp.entry_opacity gui) = Some op /\ 0 <= op <= 100
  /\ pos = (if bool_decide (WatermarkApp.position_var gui ∈ WatermarkApp.position_options)
            then WatermarkApp.position_var gui else WatermarkApp.BOTTOM_RIGHT)
  /\ pos ∈ WatermarkApp.position_options.
Proof.
  unfold WatermarkApp._get_validated_params.
  destruct (strip (WatermarkApp.entry_text gui)) as [| c t0] eqn:Ht; [discriminate |].
  destruct (int_of_str 10 (WatermarkApp.entry_font_size gui)) as [fs0 |]; [| discriminate].
  destruct (fs0 <=? 0) eqn:Hfs; [discriminate |].
  destruct (int_of_str 10 (WatermarkApp.entry_opacity gui)) as [op0 |]; [| discriminate].
  destruct ((0 <=? op0) && (op0 <=? 100)) eqn:Hop; [| discriminate].
  cbn [negb]. intros [= <- <- <- <-].
  apply Z.leb_gt in Hfs. apply andb_true_iff in Hop. destruct Hop as [H0 H100].
  apply Z.leb_le in H0. apply Z.leb_le in H100.
  repeat split; try reflexivity; try lia; try discriminate.
  destruct (bool_decide _) eqn:Hpos; [now apply bool_decide_eq_true in Hpos |].
  unfold WatermarkApp.position_options. set_solver.
Qed.

(** X21. What [_get_validated_params] returns is fit for the run: the
    text is the stripped entry and not empty, the font size is the
    positive integer and the opacity the integer from 0 to 100 that the
    entries spell, the position is one of the five menu entries (the
    bottom-right one when the variable holds anything else), and the alpha
    value computed from the opacity lies between 0 and 255. *)
Theorem validated_params_are_in_range
    (gui : WatermarkApp.Gui) (t : text) (font_size opacity : Z) (position : text) :
  WatermarkApp._get_validated_params gui = inr (t, font_size, opacity, position) ->
  t = strip (WatermarkApp.entry_text gui) /\ t <> []
  /\ int_of_str 10 (WatermarkApp.entry_font_size gui) = Some font_size /\ 0 < font_size
  /\ int_of_str 10 (WatermarkApp.entry_opacity gui) = Some opacity /\ 0 <= opacity <= 100
  /\ position ∈ WatermarkApp.position_options
  /\ (WatermarkApp.position_var gui ∉ WatermarkApp.position_options ->
      position = WatermarkApp.BOTTOM_RIGHT)
  /\ 0 <= WatermarkApp.opacity_value opacity <= 255.
Proof.
  intros Hvalid.
  destruct (validated_params_spec _ _ _ _ _ Hvalid)
    as (Ht & Hne & Hfs & Hpos & Hop & Hrange & Hposition & Hmenu).
  repeat (split; [assumption |]). split.
  - intros Hnot. rewrite Hposition. now rewrite bool_decide_eq_false_2.
  - rewrite opacity_value_div by lia. split.
    + apply Z.div_pos; lia.
    + apply Z.div_le_upper_bound; lia.
Qed.

Lemma validated_params_are_in_range_example :
  let gui :=
    {| WatermarkApp.entry_text := str "  shot {exif_date} ";
       WatermarkApp.entry_font_size := str " 40";
       WatermarkApp.entry_opacity := str "+80 ";
       WatermarkApp.position_var := str "top" |} in
  WatermarkApp._get_validated_params gui
  = inr (str "shot {exif_date}", 40, 80, WatermarkApp.BOTTOM_RIGHT)
  /\ 0 <= WatermarkApp.opacity_value 80 <= 255.
Proof.
  intros gui.
  assert (Hvalid : WatermarkApp._get_validated_params gui
                   = inr (str "shot {exif_date}", 40, 80, WatermarkApp.BOTTOM_RIGHT))
    by (vm_compute; reflexivity).
  split; [exact Hvalid |].
  apply (validated_params_are_in_range gui _ _ _ _ Hvalid).
Defined.

(** X22. The settings that [save_settings] stores validate again to the
    same parameters: once the saved text, [str(font_size)], [str(opacity)]
    and position are back in the widgets, [_get_validated_params] returns
    the parameters they were saved from. *)
Theorem saved_settings_validate_again
    (gui : WatermarkApp.Gui) (params : text * Z * Z * text) :
  WatermarkApp._get_validated_params gui = inr params ->
  WatermarkApp._get_validated_params (WatermarkApp.saved_entries params) = inr params.
Proof.
  destruct params as [[[t fs] op] pos]. intros Hvalid.
  destruct (validated_params_spec _ _ _ _ _ Hvalid)
    as (Ht & Hne & _ & Hfs & _ & Hop & _ & Hmenu).
  unfold WatermarkApp._get_validated_params, WatermarkApp.saved_entries.
  cbn [WatermarkApp.entry_text WatermarkApp.entry_font_size WatermarkApp.entry_opacity
       WatermarkApp.position_var].
  assert (Hstrip : strip t = t) by (rewrite Ht; apply strip_idempotent).
  rewrite Hstrip, !int_of_str_str_int.
  destruct t as [| c t]; [congruence |].
  destruct (fs <=? 0) eqn:Efs; [apply Z.leb_le in Efs; lia |].
  replace ((0 <=? op) && (op <=? 100)) with true
    by (symmetry; apply andb_true_iff; split; apply Z.leb_le; lia).
  cbn [negb]. now rewrite bool_decide_eq_true_2.
Qed.

Lemma saved_settings_validate_again_example :
  let gui :=
    {| WatermarkApp.entry_text := str "  shot {exif_date} ";
       WatermarkApp.entry_font_size := str " 40";
       WatermarkApp.entry_opacity := str "+80 ";
       WatermarkApp.position_var := str "top" |} in
  let params := (str "shot {exif_date}", 40, 80, WatermarkApp.BOTTOM_RIGHT) in
  WatermarkApp._get_validated_params gui = inr params
  /\ WatermarkApp.entry_opacity (WatermarkApp.saved_entries params) = str "80"
  /\ WatermarkApp._get_validated_params (WatermarkApp.saved_entries params) = inr params.
Proof.
  intros gui params.
  assert (Hvalid : WatermarkApp._get_validated_params gui = inr params)
    by (vm_compute; reflexivity).
  split; [exact Hvalid |]. split; [reflexivity |].
  exact (saved_settings_validate_again gui params Hvalid).
Defined.
